(** * SMIRNOFF parameter handlers: a shallow embedding

    Source: [openforcefield/typing/engines/smirnoff/parameters.py].

    The development follows the layout of the Python module: Python values and
    exceptions, the attribute descriptors ([ParameterAttribute],
    [IndexedParameterAttribute]), the attribute-initialising base class
    ([_ParameterAttributeInitializer]), the [ParameterHandler] base class with
    its matching and auditing machinery, and the bond, proper-torsion and
    improper-torsion handlers. *)

From Stdlib Require Import QArith Qcanon.
From stdpp Require Import base option list strings pretty gmap.

Set Default Proof Using "Type".
Set Warnings "-register-all".

(** ** Python values *)

(** Numbers (ints, floats and the magnitudes of quantities) are canonical
    rationals, so that Python's [==] on numbers is Leibniz equality.  The
    arithmetic itself is not fixed here: it belongs to the external interface
    [External] below. *)
Inductive value : Type :=
| VNone
| VStr (s : string)
| VNum (q : Qc)
| VList (l : list value).

#[global] Instance Qc_eq_decision : EqDecision Qc := Qc_eq_dec.

#[global] Instance value_eq_dec : EqDecision value.
Proof.
  refine (fix F (x y : value) {struct x} : Decision (x = y) :=
    match x, y with
    | VNone, VNone => left eq_refl
    | VStr a, VStr b => cast_if (decide (a = b))
    | VNum a, VNum b => cast_if (decide (a = b))
    | VList l, VList l' => cast_if (@list_eq_dec _ F l l')
    | _, _ => right _
    end); congruence.
Defined.

(** The number literal [n] and the fraction [n/d]. *)
Definition num (q : Q) : value := VNum (Q2Qc (Qred q)).

(** ** Exceptions *)

Inductive exn_class : Type :=
| TypeError | ValueError | AttributeError | KeyError | IndexError
| ZeroDivisionError | NotImplementedError | PyException
| SMIRNOFFSpecError | IncompatibleParameterError | IncompatibleUnitError
| ToolkitUnavailableException | SMIRNOFFVersionError
| UnassignedValenceParameterException
| UnassignedBondParameterException
| UnassignedAngleParameterException
| UnassignedProperTorsionParameterException
| ExternalError.

#[global] Instance exn_class_eq_dec : EqDecision exn_class.
Proof. solve_decision. Defined.

(** [issubclass c d]: the class hierarchy of the module's exceptions. *)
Definition issubclass (c d : exn_class) : bool :=
  bool_decide (c = d) ||
  match c, d with
  | _, PyException => true
  | (UnassignedBondParameterException | UnassignedAngleParameterException
     | UnassignedProperTorsionParameterException),
    UnassignedValenceParameterException => true
  | _, _ => false
  end.

Record exn : Type := Exn { exn_cls : exn_class; exn_msg : string }.

#[global] Instance exn_eq_dec : EqDecision exn.
Proof. solve_decision. Defined.

Inductive outcome (A : Type) : Type :=
| Ok (a : A)
| Raise (e : exn).
Arguments Ok {A} a.
Arguments Raise {A} e.

#[global] Instance outcome_eq_dec {A} `{EqDecision A} : EqDecision (outcome A).
Proof. solve_decision. Defined.

#[global] Instance outcome_ret : MRet outcome := λ A a, Ok a.
#[global] Instance outcome_bind : MBind outcome := λ A B f m,
  match m with Ok a => f a | Raise e => Raise e end.

Definition raise {A} (c : exn_class) (msg : string) : outcome A :=
  Raise (Exn c msg).

Definition is_ok {A} (m : outcome A) : bool :=
  match m with Ok _ => true | Raise _ => false end.

(** [for x in xs: body], threading an accumulator and stopping at the first
    exception. *)
Fixpoint foldM {A B} (f : B → A → outcome B) (xs : list A) (b : B) : outcome B :=
  match xs with
  | [] => Ok b
  | x :: xs => b' ← f b x; foldM f xs b'
  end.

Fixpoint mapM_outcome {A B} (f : A → outcome B) (xs : list A) : outcome (list B) :=
  match xs with
  | [] => Ok []
  | x :: xs => y ← f x; ys ← mapM_outcome f xs; Ok (y :: ys)
  end.

(** ** Insertion-ordered dictionaries

    A Python [dict] (and [OrderedDict]) keeps its keys in insertion order;
    assigning to a key that is present replaces the value in place. *)
Section odict.
Context {K V : Type} `{EqDecision K}.

Fixpoint od_get (k : K) (d : list (K * V)) : option V :=
  match d with
  | [] => None
  | (k', v) :: d => if decide (k = k') then Some v else od_get k d
  end.

Fixpoint od_set (k : K) (v : V) (d : list (K * V)) : list (K * V) :=
  match d with
  | [] => [(k, v)]
  | (k', v') :: d =>
      if decide (k = k') then (k, v) :: d else (k', v') :: od_set k v d
  end.

Fixpoint od_del (k : K) (d : list (K * V)) : list (K * V) :=
  match d with
  | [] => []
  | (k', v) :: d => if decide (k = k') then od_del k d else (k', v) :: od_del k d
  end.

Definition od_keys (d : list (K * V)) : list K := d.*1.

(** [d.update(e)] *)
Definition od_update (e d : list (K * V)) : list (K * V) :=
  foldl (λ acc kv, od_set kv.1 kv.2 acc) d e.

End odict.

(** ** External collaborators

    The unit system ([simtk.unit], [object_to_quantity]), the arithmetic of
    numbers and quantities, the built-in conversions and the pattern
    validation of [ChemicalEnvironment] are outside the module; they are taken
    as an interface. *)
Class External : Type := {
  unit_t : Type;
  (** [str(unit)] *)
  unit_str : unit_t → string;
  (** [object_to_quantity(value)]: parses string expressions. *)
  object_to_quantity : value → outcome value;
  (** [value.unit]; [None] when the object has no such attribute. *)
  quantity_unit : value → option unit_t;
  (** [unit.is_compatible(other)] *)
  is_compatible : unit_t → unit_t → bool;
  (** [str(value)], as used by f-strings. *)
  py_str : value → string;
  (** [a + b], [a - b], [a * b], [a / b] on numbers and quantities. *)
  py_add : value → value → outcome value;
  py_sub : value → value → outcome value;
  py_mul : value → value → outcome value;
  py_truediv : value → value → outcome value;
  (** The built-ins [int(x)] and [float(x)]. *)
  py_int : value → outcome value;
  py_float : value → outcome value;
  (** [ChemicalEnvironment.validate(smirks, ensure_valence_type=...)],
      preceded by the search for an available toolkit. *)
  validate_smirks : string → value → outcome unit;
  (** [packaging.version.parse(str(a)) < packaging.version.parse(str(b))] *)
  version_lt : value → value → bool;
  (** The units the parameter types declare. *)
  angstrom : unit_t;
  degree : unit_t;
  kilocalorie_per_mole : unit_t;
  kilocalorie_per_mole_per_angstrom2 : unit_t;
}.

(** The comparison [abs(a) > b] of numbers and quantities, which the
    handlers use on their header attributes. *)
Class Comparison : Type := {
  py_abs : value → outcome value;
  py_gt : value → value → outcome bool;
}.

(** ** Objects *)

(** An instance of a class derived from [_ParameterAttributeInitializer]:
    its [__dict__] (private names, [_name]) and its [_cosmetic_attribs]
    list. *)
Record instance : Type := Instance {
  inst_dict : gmap string value;
  _cosmetic_attribs : list string;
}.

Definition private (name : string) : string := "_" +:+ name.

(** ** The names an object uses itself

    [add_cosmetic_attribute(name, value)] and the constructors store a value
    under [_name] in the dictionary of the object.  The object keeps there
    what it needs itself, too: the list [_cosmetic_attribs] (a handler also
    its [_parameters]); and an entry of its dictionary hides the method or
    the constant of its class that has the same name.  The model keeps
    [_cosmetic_attribs] and the parameter list apart from the dictionary and
    reads methods and constants from the class: it describes the objects and
    the calls whose names keep clear of the names below, and of the names
    with a leading underscore (which, preceded by another, are those of
    [__dict__], [__class__] and the like). *)
Definition leading_underscore (k : string) : bool :=
  match k with
  | String c _ => bool_decide (String c EmptyString = "_")
  | EmptyString => false
  end.

(** The attributes and methods of [_ParameterAttributeInitializer] and
    [ParameterType] whose name starts with an underscore, without it. *)
Definition parameter_own_names : list string :=
  ["cosmetic_attribs";
   "get_parameter_attributes"; "get_indexed_parameter_attributes";
   "get_required_parameter_attributes"; "get_optional_parameter_attributes";
   "get_defined_parameter_attributes";
   "VALENCE_TYPE"; "ELEMENT_NAME"].

(** The same for [ParameterHandler] and the handler classes. *)
Definition handler_own_names : list string :=
  ["cosmetic_attribs"; "parameters";
   "TAGNAME"; "INFOTYPE"; "OPENMMTYPE"; "DEPENDENCIES";
   "REQUIRED_SPEC_ATTRIBS"; "DEFAULT_SPEC_ATTRIBS"; "OPTIONAL_SPEC_ATTRIBS";
   "INDEXED_ATTRIBS"; "REQUIRE_UNITS"; "ATTRIBS_TO_TYPE"; "KWARGS";
   "SMIRNOFF_VERSION_INTRODUCED"; "SMIRNOFF_VERSION_DEPRECATED";
   "MIN_SUPPORTED_SECTION_VERSION"; "MAX_SUPPORTED_SECTION_VERSION";
   "check_section_version_compatibility"; "add_parameters"; "Match";
   "find_matches"; "assert_correct_connectivity";
   "check_all_valence_terms_assigned"; "validate_parameters";
   "SCALETOL"; "DEFAULTS"; "ALLOWED_VALUES"].

Definition clear_of (own : list string) (k : string) : Prop :=
  leading_underscore k = false ∧ k ∉ own.

#[global] Instance clear_of_dec (own : list string) (k : string) : Decision (clear_of own k).
Proof. unfold clear_of. apply _. Defined.

(** A parameter object whose dictionary hides nothing of its class, and
    whose cosmetic attributes have names clear of the class's own. *)
Definition plain_object (self : instance) : Prop :=
  Forall (λ n, inst_dict self !! private n = None) parameter_own_names
  ∧ Forall (clear_of parameter_own_names) (_cosmetic_attribs self).

#[global] Instance plain_object_dec (self : instance) : Decision (plain_object self).
Proof. unfold plain_object. apply _. Defined.

(** [for x in v]: lists yield their elements, strings their characters;
    [None] and numbers are not iterable. *)
Fixpoint string_chars (s : string) : list value :=
  match s with
  | EmptyString => []
  | String c s => VStr (String c EmptyString) :: string_chars s
  end.

Definition py_iter (v : value) : outcome (list value) :=
  match v with
  | VList l => Ok l
  | VStr s => Ok (string_chars s)
  | VNone => raise TypeError "'NoneType' object is not iterable"
  | VNum _ => raise TypeError "object is not iterable"
  end.

(** [bool(v)], the test of [if v:]: [None], zero, the empty string and the
    empty list count as false. *)
Definition py_bool (v : value) : bool :=
  match v with
  | VNone => false
  | VStr s => match s with EmptyString => false | _ => true end
  | VNum q => bool_decide (q ≠ Q2Qc 0)
  | VList l => match l with [] => false | _ => true end
  end.

(** ** Attribute descriptors: [ParameterAttribute], [IndexedParameterAttribute] *)
Module ParameterAttribute.
Section with_external.
Context `{External}.

(** The fields of a descriptor other than its converter; [name] is the
    public name (the descriptor's [_name] is [private name]); a [default] of
    [None] stands for [UNDEFINED]. *)
Record attr_info : Type := AttrInfo {
  name : string;
  default_value : option value;
  _unit : option unit_t;
}.

(** A Python callable, by what it does when called with one positional
    argument and with three. *)
Record callable : Type := Callable {
  call1 : value → outcome value;
  call3 : instance → attr_info → value → outcome value;
}.

(** A function [def f(value)] (or a built-in such as [float]): a call with
    three arguments raises [TypeError]. *)
Definition free_function (f : value → outcome value) : callable :=
  {| call1 := f;
     call3 := λ _ _ _,
       raise TypeError "takes 1 positional argument but 3 were given" |}.

(** A function [def g(self, attr, value)]: a call with one argument raises
    [TypeError]. *)
Definition bound_function (g : instance → attr_info → value → outcome value) : callable :=
  {| call1 := λ _,
       raise TypeError "missing 2 required positional arguments";
     call3 := g |}.

(** [indexed] tells an [IndexedParameterAttribute] from a plain
    [ParameterAttribute]. *)
Record descriptor : Type := Descriptor {
  info : attr_info;
  _converter : option callable;
  indexed : bool;
}.

Definition is_undefined (d : descriptor) : bool :=
  bool_decide (default_value (info d) = None).

(** [__get__] *)
Definition __get__ (self : descriptor) (inst : instance) : outcome value :=
  match inst_dict inst !! private (name (info self)) with
  | Some v => Ok v
  | None =>
      match default_value (info self) with
      | None => raise AttributeError (private (name (info self)))
      | Some dflt => Ok dflt
      end
  end.

Definition _is_valid_default (self : descriptor) (v : value) : bool :=
  match default_value (info self) with
  | None => false
  | Some dflt => bool_decide (v = dflt)
  end.

Definition incompatible_unit_msg (self : descriptor) (u : unit_t) (v : value) : string :=
  name (info self) +:+ "=" +:+ py_str v +:+ " should have units of " +:+ unit_str u.

Definition _validate_units (self : descriptor) (v : value) : outcome value :=
  match _unit (info self) with
  | None => Ok v
  | Some u =>
      v ← object_to_quantity v;
      match quantity_unit v with
      | Some u' =>
          if is_compatible u u' then Ok v
          else raise IncompatibleUnitError (incompatible_unit_msg self u v)
      | None => raise IncompatibleUnitError (incompatible_unit_msg self u v)
      end
  end.

Definition _call_converter (self : descriptor) (v : value) (inst : instance) : outcome value :=
  match _converter self with
  | None => Ok v
  | Some c =>
      match call1 c v with
      | Raise e =>
          if issubclass (exn_cls e) TypeError then call3 c inst (info self) v
          else Raise e
      | Ok w => Ok w
      end
  end.

Definition scalar_convert_and_validate (self : descriptor) (inst : instance) (v : value) : outcome value :=
  if _is_valid_default self v then Ok v
  else
    v ← _validate_units self v;
    _call_converter self v inst.

(** Modelled from the spec: [ValidatedList] of
    [openforcefield.utils.collections] is not part of this module.  It
    applies its converters, in order, to every element of the sequence it is
    built from. *)
Definition ValidatedList (v : value) (converters : list (value → outcome value)) : outcome value :=
  elems ← py_iter v;
  elems ← mapM_outcome (λ x, foldM (λ y f, f y) converters x) elems;
  Ok (VList elems).

Definition indexed_convert_and_validate (self : descriptor) (inst : instance) (v : value) : outcome value :=
  if _is_valid_default self v then Ok v
  else ValidatedList v [_validate_units self; λ x, _call_converter self x inst].

(** [_convert_and_validate], with the override of
    [IndexedParameterAttribute]. *)
Definition _convert_and_validate (self : descriptor) (inst : instance) (v : value) : outcome value :=
  if indexed self then indexed_convert_and_validate self inst v
  else scalar_convert_and_validate self inst v.

(** [__set__] *)
Definition __set__ (self : descriptor) (inst : instance) (v : value) : outcome instance :=
  v ← _convert_and_validate self inst v;
  Ok (Instance (<[private (name (info self)) := v]> (inst_dict inst)) (_cosmetic_attribs inst)).

End with_external.
End ParameterAttribute.

(** ** Facts on dictionaries and strings *)
Section dictionary_facts.

Lemma od_del_length_le {V} (k : string) (d : list (string * V)) :
  length (od_del k d) ≤ length d.
Proof. induction d as [|[k' v] d IH]; simpl; [lia|]. case_decide; simpl; lia. Qed.

Lemma od_del_length_lt {V} (k : string) (d : list (string * V)) :
  is_Some (od_get k d) → length (od_del k d) < length d.
Proof.
  induction d as [|[k' v] d IH]; simpl; [by intros [? ?]|].
  case_decide; simpl.
  - intros _. pose proof (od_del_length_le k d). lia.
  - intros Hs. specialize (IH Hs). lia.
Qed.

Lemma od_del_od_set_ne {V} (k k' : string) (v : V) (d : list (string * V)) :
  k ≠ k' → od_del k (od_set k' v d) = od_set k' v (od_del k d).
Proof.
  intros Hne. induction d as [|[k0 v0] d IH]; simpl.
  - by rewrite decide_False.
  - destruct (decide (k' = k0)) as [->|Hk0]; simpl.
    + rewrite !decide_False by done. simpl. by rewrite decide_True.
    + destruct (decide (k = k0)) as [->|]; simpl; [done|].
      rewrite decide_False by done. by rewrite IH.
Qed.

Lemma od_del_od_set_eq {V} (k : string) (v : V) (d : list (string * V)) :
  od_del k (od_set k v d) = od_del k d.
Proof.
  induction d as [|[k0 v0] d IH]; simpl.
  - by rewrite decide_True.
  - destruct (decide (k = k0)) as [->|Hk0]; simpl.
    + by rewrite decide_True.
    + rewrite decide_False by done. by rewrite IH.
Qed.

Lemma od_del_comm {V} (k k' : string) (d : list (string * V)) :
  od_del k (od_del k' d) = od_del k' (od_del k d).
Proof.
  induction d as [|[k0 v0] d IH]; simpl; [done|].
  destruct (decide (k' = k0)) as [->|]; destruct (decide (k = k0)) as [->|];
    simpl; rewrite ?decide_True, ?decide_False by done; by rewrite ?IH.
Qed.

Lemma od_get_od_del_ne {V} (k k' : string) (d : list (string * V)) :
  k ≠ k' → od_get k (od_del k' d) = od_get k d.
Proof.
  intros Hne. induction d as [|[k0 v0] d IH]; simpl; [done|].
  destruct (decide (k' = k0)) as [->|]; simpl.
  - by rewrite decide_False.
  - case_decide; [done|]. by rewrite IH.
Qed.

Lemma string_length_app (a b : string) :
  String.length (a +:+ b) = String.length a + String.length b.
Proof. induction a as [|c a IH]; simpl; [done|]. by rewrite IH. Qed.

Lemma string_app_assoc (a b c : string) : (a +:+ b) +:+ c = a +:+ (b +:+ c).
Proof.
  induction a as [|x a IH]; [done|].
  change (String x ((a +:+ b) +:+ c) = String x (a +:+ (b +:+ c))). by f_equal.
Qed.

Lemma pretty_N_go_length (x : N) (s : string) :
  String.length s ≤ String.length (pretty_N_go x s).
Proof.
  revert s. induction (N.lt_wf_0 x) as [x _ IH]; intros s.
  assert (x = 0 ∨ 0 < x)%N as [->|?] by lia; [by rewrite pretty_N_go_0|].
  rewrite pretty_N_go_step by done.
  etrans; [|by eapply IH, N.div_lt]. simpl. lia.
Qed.

Lemma pretty_nat_length (n : nat) : 0 < String.length (pretty n).
Proof.
  unfold pretty, pretty_nat, pretty, pretty_N. case_decide; simpl; [lia|].
  rewrite pretty_N_go_step by lia.
  eapply Nat.lt_le_trans; [|apply pretty_N_go_length]. simpl. lia.
Qed.

Lemma indexed_key_ne_base (base : string) (index : nat) :
  base +:+ pretty index ≠ base.
Proof.
  intros Heq. assert (Hl : String.length (base +:+ pretty index) = String.length base)
    by (by rewrite Heq).
  rewrite string_length_app in Hl. pose proof (pretty_nat_length index). lia.
Qed.

End dictionary_facts.

(** ** The attribute-initialising base class *)
Module _ParameterAttributeInitializer.
Import ParameterAttribute.
Section with_external.
Context `{External}.

(** A class, by the result of [_get_parameter_attributes()]: its descriptors
    in declaration order, parents first. *)
Record pclass : Type := PClass {
  cls_name : string;
  cls_attrs : list descriptor;
}.

Definition attr_names (ds : list descriptor) : list string :=
  (λ d, name (info d)) <$> ds.

Definition _get_parameter_attributes (cls : pclass) (flt : descriptor → bool) : list descriptor :=
  filter (λ d, flt d = true) (cls_attrs cls).

Definition _get_indexed_parameter_attributes (cls : pclass) : list descriptor :=
  _get_parameter_attributes cls indexed.

Definition _get_required_parameter_attributes (cls : pclass) : list descriptor :=
  _get_parameter_attributes cls is_undefined.

Definition _get_optional_parameter_attributes (cls : pclass) : list descriptor :=
  _get_parameter_attributes cls (λ d, negb (is_undefined d)).

(** The class attribute of the given name, when it is a descriptor. *)
Definition find_descriptor (cls : pclass) (key : string) : option descriptor :=
  list_find (λ d, name (info d) = key) (cls_attrs cls) ≫= λ p, Some p.2.

(** [len(v)] *)
Definition py_len (v : value) : outcome nat :=
  match v with
  | VList l => Ok (length l)
  | VStr s => Ok (String.length s)
  | _ => raise TypeError "object has no len()"
  end.

(** [smirnoff_data[base].append(v)] *)
Definition data_append (base : string) (v : value) (data : list (string * value)) : outcome (list (string * value)) :=
  match od_get base data with
  | None => raise KeyError base
  | Some (VList l) => Ok (od_set base (VList (l ++ [v])) data)
  | Some _ => raise AttributeError "append"
  end.

(** One iteration of the [while True] loop of [__init__] for which the key
    [base{index}] holds [v]. *)
Definition stack_step (base : string) (index : nat) (v : value) (data : list (string * value)) : outcome (list (string * value)) :=
  data ← (if decide (index = 1) then
            if decide (base ∈ od_keys data) then
              raise TypeError ("The attribute '" +:+ base +:+ "' has been specified with and without index: '" +:+ base +:+ pretty index +:+ "'")
            else Ok (od_set base (VList []) data)
          else Ok data);
  data ← data_append base v data;
  Ok (od_del (base +:+ pretty index) data).

(** The [while True] loop; [None] when the fuel does not suffice.  The result
    is the data and the value of [index] at the [break]. *)
Fixpoint stack_loop (fuel : nat) (base : string) (index : nat) (data : list (string * value)) : option (outcome (list (string * value) * nat)) :=
  match od_get (base +:+ pretty index) data with
  | None => Some (Ok (data, index))
  | Some v =>
      match fuel with
      | 0 => None
      | S fuel =>
          match stack_step base index v data with
          | Raise e => Some (Raise e)
          | Ok data => stack_loop fuel base (S index) data
          end
      end
  end.

(** Every iteration deletes a key other than [base], so the loop ends within
    as many iterations as the data has keys. *)
Lemma stack_step_od_del (base : string) (index : nat) (v : value) (data data' : list (string * value)) :
  stack_step base index v data = Ok data' →
  od_del base data' = od_del (base +:+ pretty index) (od_del base data).
Proof.
  unfold stack_step, data_append. intros Hstep.
  assert (∀ d0 : list (string * value),
    (match od_get base d0 with
     | None => raise KeyError base
     | Some (VList l) => Ok (od_set base (VList (l ++ [v])) d0)
     | Some _ => raise AttributeError "append"
     end ≫= λ d, Ok (od_del (base +:+ pretty index) d)) = Ok data' →
    od_del base data' = od_del (base +:+ pretty index) (od_del base d0)) as Haux.
  { intros d0 Hd0. destruct (od_get base d0) as [[| | |l]|]; try done.
    simpl in Hd0. injection Hd0 as <-.
    by rewrite od_del_comm, od_del_od_set_eq. }
  destruct (decide (index = 1)) as [->|].
  - destruct (decide (base ∈ od_keys data)); [done|].
    simpl in Hstep. apply Haux in Hstep. by rewrite Hstep, od_del_od_set_eq.
  - simpl in Hstep. by apply Haux.
Qed.

Lemma stack_loop_enough (fuel : nat) (base : string) (index : nat) (data : list (string * value)) :
  length (od_del base data) ≤ fuel → is_Some (stack_loop fuel base index data).
Proof.
  revert index data. induction fuel as [|fuel IH]; intros index data Hlen; simpl.
  - destruct (od_get (base +:+ pretty index) data) eqn:Hget; [|by eexists].
    pose proof (od_del_length_lt (base +:+ pretty index) (od_del base data)) as Hlt.
    rewrite od_get_od_del_ne in Hlt by apply indexed_key_ne_base.
    rewrite Hget in Hlt. specialize (Hlt (mk_is_Some _ _ eq_refl)). lia.
  - destruct (od_get (base +:+ pretty index) data) eqn:Hget; [|by eexists].
    destruct (stack_step base index v data) as [data'|e] eqn:Hstep; [|by eexists].
    apply IH. rewrite (stack_step_od_del _ _ _ _ _ Hstep).
    pose proof (od_del_length_lt (base +:+ pretty index) (od_del base data)) as Hlt.
    rewrite od_get_od_del_ne in Hlt by apply indexed_key_ne_base.
    rewrite Hget in Hlt. specialize (Hlt (mk_is_Some _ _ eq_refl)). lia.
Qed.

Lemma stack_loop_terminates (base : string) (data : list (string * value)) :
  is_Some (stack_loop (length data) base 1 data).
Proof. apply stack_loop_enough, od_del_length_le. Qed.

(** The whole [while True] loop for one indexed attribute, started at
    [index = 1]. *)
Definition stack_indexed (base : string) (data : list (string * value)) : outcome (list (string * value) * nat) :=
  is_Some_proj (stack_loop_terminates base data).

(** The body of [for attrib_basename in ...]: stack the indexed keys, then
    record the length of the list when one was found. *)
Definition stack_indexed_attribute (st : list (string * value) * list (string * nat)) (base : string) : outcome (list (string * value) * list (string * nat)) :=
  '(data, index) ← stack_indexed base st.1;
  if decide (1 < index) then
    match od_get base data with
    | Some v => n ← py_len v; Ok (data, od_set base n st.2)
    | None => raise KeyError base
    end
  else Ok (data, st.2).

(** [add_cosmetic_attribute], for a name clear of the object's own (under
    the name [cosmetic_attribs] the value would take the place of the list,
    and [append] change that value). *)
Definition add_cosmetic_attribute (self : instance) (attr_name : string) (attr_value : value) : instance :=
  Instance (<[private attr_name := attr_value]> (inst_dict self))
           (_cosmetic_attribs self ++ [attr_name]).

(** [list.remove(x)]: the first occurrence goes; [None] when there is
    none. *)
Fixpoint list_remove_first (x : string) (l : list string) : option (list string) :=
  match l with
  | [] => None
  | y :: l => if decide (x = y) then Some l else (y ::.) <$> list_remove_first x l
  end.

(** [delete_cosmetic_attribute]: [delattr] comes first, so that the
    attribute is gone when [remove] raises.  The result is the object as the
    call leaves it, and what the call returns. *)
Definition delete_cosmetic_attribute (self : instance) (attr_name : string) : instance * outcome unit :=
  match inst_dict self !! private attr_name with
  | None => (self, raise AttributeError (private attr_name))
  | Some _ =>
      let self := Instance (delete (private attr_name) (inst_dict self)) (_cosmetic_attribs self) in
      match list_remove_first attr_name (_cosmetic_attribs self) with
      | None => (self, raise ValueError "list.remove(x): x not in list")
      | Some l => (Instance (inst_dict self) l, Ok ())
      end
  end.

(** The body of the final loop of [__init__]. *)
Definition init_attribute (cls : pclass) (allow_cosmetic_attributes : bool) (self : instance) (kv : string * value) : outcome instance :=
  match find_descriptor cls kv.1 with
  | Some d => __set__ d self kv.2
  | None =>
      if allow_cosmetic_attributes then Ok (add_cosmetic_attribute self kv.1 kv.2)
      else raise SMIRNOFFSpecError
             ("Unexpected kwarg (" +:+ kv.1 +:+ ": " +:+ py_str kv.2 +:+ ")  passed to "
              +:+ cls_name cls +:+ " constructor.")
  end.

Definition missing_attributes (cls : pclass) (data : list (string * value)) : list string :=
  filter (λ n, n ∉ od_keys data) (attr_names (_get_required_parameter_attributes cls)).

Definition join (sep : string) (xs : list string) : string :=
  match xs with
  | [] => ""
  | x :: xs => foldl (λ acc y, acc +:+ sep +:+ y) x xs
  end.

(** [__init__(self, allow_cosmetic_attributes, **kwargs)] *)
Definition __init__ (cls : pclass) (allow_cosmetic_attributes : bool) (kwargs : list (string * value)) : outcome instance :=
  let self := Instance ∅ [] in
  let smirnoff_data := kwargs in
  '(smirnoff_data, indexed_attr_lengths) ←
    foldM stack_indexed_attribute
          (attr_names (_get_indexed_parameter_attributes cls)) (smirnoff_data, []);
  if decide (1 < length (remove_dups (indexed_attr_lengths.*2))) then
    raise TypeError "The following indexed attributes have different lengths"
  else
    match missing_attributes cls smirnoff_data with
    | _ :: _ as missing =>
        raise SMIRNOFFSpecError
          (cls_name cls +:+ " require the following missing parameters: "
           +:+ join ", " missing)
    | [] => foldM (init_attribute cls allow_cosmetic_attributes) smirnoff_data self
    end.

(** [_get_defined_parameter_attributes] *)
Definition _get_defined_parameter_attributes (cls : pclass) (self : instance) : list descriptor :=
  _get_required_parameter_attributes cls ++
  filter (λ d, ¬ (default_value (info d) = Some VNone ∧ __get__ d self = Ok VNone))
         (_get_optional_parameter_attributes cls).

(** [enumerate(values)], written into the dict under [name1], [name2], ... *)
Definition expand_indexed (attrib_name : string) (values : list value) (d : list (string * value)) : list (string * value) :=
  foldl (λ acc iv, od_set (attrib_name +:+ pretty (S iv.1)) iv.2 acc) d (imap pair values).

Definition to_dict_attribute (cls : pclass) (self : instance) (smirnoff_dict : list (string * value)) (d : descriptor) : outcome (list (string * value)) :=
  attrib_value ← __get__ d self;
  if indexed d then
    values ← py_iter attrib_value;
    Ok (expand_indexed (name (info d)) values smirnoff_dict)
  else Ok (od_set (name (info d)) attrib_value smirnoff_dict).

Definition to_dict_cosmetic (self : instance) (smirnoff_dict : list (string * value)) (cosmetic_attrib : string) : outcome (list (string * value)) :=
  match inst_dict self !! private cosmetic_attrib with
  | Some v => Ok (od_set cosmetic_attrib v smirnoff_dict)
  | None => raise AttributeError (private cosmetic_attrib)
  end.

(** [to_dict(self, discard_cosmetic_attributes)] *)
Definition to_dict (cls : pclass) (discard_cosmetic_attributes : bool) (self : instance) : outcome (list (string * value)) :=
  let attribs_to_return := _get_defined_parameter_attributes cls self in
  smirnoff_dict ← foldM (to_dict_attribute cls self) attribs_to_return [];
  if negb discard_cosmetic_attributes then
    foldM (to_dict_cosmetic self) (_cosmetic_attribs self) smirnoff_dict
  else Ok smirnoff_dict.

End with_external.
End _ParameterAttributeInitializer.

(** ** [ParameterType] and the parameter types of the handlers *)
Module ParameterType.
Import ParameterAttribute _ParameterAttributeInitializer.
Section with_external.
Context `{External}.

Definition attribute (n : string) (dflt : option value) (u : option unit_t) (c : option callable) : descriptor :=
  Descriptor (AttrInfo n dflt u) c false.

Definition indexed_attribute (n : string) (dflt : option value) (u : option unit_t) (c : option callable) : descriptor :=
  Descriptor (AttrInfo n dflt u) c true.

(** The converter attached to [smirks]: validate the pattern against the
    class's [_VALENCE_TYPE] and return it unchanged. *)
Definition smirks_converter (_VALENCE_TYPE : string) : callable :=
  bound_function (λ self attr smirks,
    _ ← validate_smirks _VALENCE_TYPE smirks; Ok smirks).

(** [smirks.converter] builds the new descriptor from the default alone. *)
Definition base_attributes (_VALENCE_TYPE : string) : list descriptor :=
  [ attribute "smirks" None None (Some (smirks_converter _VALENCE_TYPE));
    attribute "id" (Some VNone) None None;
    attribute "parent_id" (Some VNone) None None ].

(** [ParameterType.__init__(self, smirks, allow_cosmetic_attributes, **kwargs)] *)
Definition __init__ (cls : pclass) (smirks : value) (allow_cosmetic_attributes : bool) (kwargs : list (string * value)) : outcome instance :=
  _ParameterAttributeInitializer.__init__ cls allow_cosmetic_attributes
    (od_set "smirks" smirks kwargs).

Definition BondType : pclass :=
  PClass "BondType"
    (base_attributes "Bond" ++
     [ attribute "length" None (Some angstrom) None;
       attribute "k" None (Some kilocalorie_per_mole_per_angstrom2) None ]).

Definition torsion_attributes : list descriptor :=
  [ indexed_attribute "periodicity" None None (Some (free_function py_int));
    indexed_attribute "phase" None (Some degree) None;
    indexed_attribute "k" None (Some kilocalorie_per_mole) None;
    indexed_attribute "idivf" (Some VNone) None (Some (free_function py_float)) ].

Definition ProperTorsionType : pclass :=
  PClass "ProperTorsionType" (base_attributes "ProperTorsion" ++ torsion_attributes).

Definition ImproperTorsionType : pclass :=
  PClass "ImproperTorsionType" (base_attributes "ImproperTorsion" ++ torsion_attributes).

End with_external.
End ParameterType.

(** ** [ParameterList] *)
Module ParameterList.
Import ParameterAttribute _ParameterAttributeInitializer.
Section with_external.
Context `{External}.

(** [parameter.smirks], for a parameter object of the class [pcls] *)
Definition smirks (pcls : pclass) (parameter : instance) : outcome value :=
  match find_descriptor pcls "smirks" with
  | Some d => __get__ d parameter
  | None => raise AttributeError "smirks"
  end.

(** The loop of [index(item)] for an [item] that is no parameter object;
    [pos] is the position of the first element of [l] in the whole list.
    The parameter found is looked up again by [list.index], which gives the
    position the loop has reached. *)
Fixpoint index_from (pcls : pclass) (l : list instance) (item : value) (pos : nat) : outcome nat :=
  match l with
  | [] => raise IndexError ("SMIRKS " +:+ py_str item +:+ " not found in ParameterList")
  | parameter :: l =>
      s ← smirks pcls parameter;
      if decide (s = item) then Ok pos else index_from pcls l item (S pos)
  end.

(** [index(item)], [item] a SMIRKS *)
Definition index (pcls : pclass) (self : list instance) (item : value) : outcome nat :=
  index_from pcls self item 0.

(** [self[item]], [item] a SMIRKS *)
Definition __getitem__ (pcls : pclass) (self : list instance) (item : value) : outcome instance :=
  index ← index pcls self item;
  match self !! index with
  | Some parameter => Ok parameter
  | None => raise IndexError "list index out of range"
  end.

(** [del self[item]], [item] a SMIRKS *)
Definition __delitem__ (pcls : pclass) (self : list instance) (item : value) : outcome (list instance) :=
  index ← index pcls self item;
  match self !! index with
  | Some _ => Ok (delete index self)
  | None => raise IndexError "list assignment index out of range"
  end.

(** [item in self], [item] a string: a string equals no parameter object,
    so the fall-back to [list.__contains__] gives [False]. *)
Definition __contains__ (pcls : pclass) (self : list instance) (item : string) : outcome bool :=
  all_smirks ← mapM_outcome (smirks pcls) self;
  Ok (bool_decide (VStr item ∈ all_smirks)).

(** [to_list(discard_cosmetic_attributes)] *)
Definition to_list (pcls : pclass) (discard_cosmetic_attributes : bool) (self : list instance) : outcome (list (list (string * value))) :=
  mapM_outcome (to_dict pcls discard_cosmetic_attributes) self.

End with_external.
End ParameterList.

(** ** The topology, the system and the state of an assignment *)

(** A bond of a reference molecule; [fractional_bond_order] is [VNone] or a
    number. *)
Record bond : Type := Bond { fractional_bond_order : value }.

(** A reference molecule, by its method [get_bond_between], which raises when
    the two atoms are not bonded. *)
Record molecule : Type := Molecule {
  get_bond_between : nat → nat → outcome bond;
}.

(** [Topology._ChemicalEnvironmentMatch] *)
Record environment_match_t : Type := EnvironmentMatch {
  reference_atom_indices : list nat;
  reference_molecule : molecule;
  topology_atom_indices : list nat;
}.

(** The read-only part of a topology: the pattern-matching capability and the
    valence terms the topology contains, as tuples of particle indices. *)
Record topology : Type := Topology {
  chemical_environment_matches : value → list environment_match_t;
  topology_bonds : list (list nat);
  angles : list (list nat);
  propers : list (list nat);
  impropers : list (list nat);
}.

(** What [topology.is_constrained(i, j)] returns besides [False]: [True] for
    a constraint whose distance is still to be set, or the distance (which
    [create_force] tests for truth: a distance of zero counts as no
    constraint). *)
Inductive constraint : Type :=
| ConstrainedTrue
| ConstrainedAt (distance : value).

Inductive force_kind : Type :=
| HarmonicBondForce | HarmonicAngleForce | PeriodicTorsionForce.

#[global] Instance force_kind_eq_dec : EqDecision force_kind.
Proof. solve_decision. Defined.

(** The terms added to an OpenMM force. *)
Inductive term : Type :=
| BondTerm (i j : nat) (length k : value)
| AngleTerm (i j l : nat) (angle k : value)
| TorsionTerm (a b c d : nat) (periodicity phase k : value).

#[global] Instance term_eq_dec : EqDecision term.
Proof. solve_decision. Defined.

Record force : Type := Force { kind : force_kind; terms : list term }.

#[global] Instance instance_eq_dec : EqDecision instance.
Proof. solve_decision. Defined.

(** Everything [create_force] can change: the parameter objects of the
    handler's [ParameterList] (a reference to one of them is its position in
    the list), the forces and constraints of the OpenMM system, and the
    constraint table of the topology. *)
Record world : Type := World {
  parameters : list instance;
  forces : list force;
  system_constraints : list (nat * nat * value);
  constrained_atom_pairs : list ((nat * nat) * constraint);
}.

(** Computations that change the world and may raise; what was changed
    before an exception stays changed. *)
Definition M (A : Type) : Type := world → world * outcome A.

#[global] Instance M_ret : MRet M := λ A a w, (w, Ok a).
#[global] Instance M_bind : MBind M := λ A B f m w,
  match m w with
  | (w', Ok a) => f a w'
  | (w', Raise e) => (w', Raise e)
  end.

Definition lift {A} (o : outcome A) : M A := λ w, (w, o).
Definition get_world : M world := λ w, (w, Ok w).
Definition modify (f : world → world) : M unit := λ w, (f w, Ok ()).

(** [for x in xs: body] *)
Fixpoint forM {A} (xs : list A) (body : A → M unit) : M unit :=
  match xs with
  | [] => mret ()
  | x :: xs => _ ← body x; forM xs body
  end.

(** [v[i]] *)
Definition py_getitem (v : value) (i : nat) : outcome value :=
  match v with
  | VList l =>
      match l !! i with
      | Some x => Ok x
      | None => raise IndexError "list index out of range"
      end
  | VStr s =>
      match string_chars s !! i with
      | Some x => Ok x
      | None => raise IndexError "string index out of range"
      end
  | _ => raise TypeError "object is not subscriptable"
  end.

(** [t[i]] on a tuple of indices *)
Definition tuple_get (t : list nat) (i : nat) : outcome nat :=
  match t !! i with
  | Some x => Ok x
  | None => raise IndexError "tuple index out of range"
  end.

(** [zip(a, b, c, d)] on lists *)
Fixpoint zip4 {A} (a b c d : list A) : list (A * A * A * A) :=
  match a, b, c, d with
  | x :: a, y :: b, z :: c, w :: d => (x, y, z, w) :: zip4 a b c d
  | _, _, _, _ => []
  end.

(** Modelled from the spec: [Topology.is_constrained] and
    [Topology.add_constraint] are not part of this module.  The topology
    keeps a table of constrained atom pairs, holding either a concrete
    distance or the flag [True]; a pair is recorded in both orders. *)
Definition is_constrained (i j : nat) (w : world) : option constraint :=
  od_get (i, j) (constrained_atom_pairs w).

Definition add_constraint (i j : nat) (c : constraint) : M unit :=
  modify (λ w, World (parameters w) (forces w) (system_constraints w)
                 (od_set (j, i) c (od_set (i, j) c (constrained_atom_pairs w)))).

(** [system.addConstraint(i, j, distance)] *)
Definition addConstraint (i j : nat) (distance : value) : M unit :=
  modify (λ w, World (parameters w) (forces w)
                 (system_constraints w ++ [(i, j, distance)])
                 (constrained_atom_pairs w)).

(** The search for an existing force of the handler's kind, creating and
    adding one when there is none; the result is the position of the force
    in the system. *)
Definition get_or_create_force (k : force_kind) : M nat := λ w,
  match list_find (λ f, kind f = k) (forces w) with
  | Some (i, _) => (w, Ok i)
  | None =>
      (World (parameters w) (forces w ++ [Force k []])
             (system_constraints w) (constrained_atom_pairs w),
       Ok (length (forces w)))
  end.

(** [force.addBond], [force.addAngle], [force.addTorsion] *)
Definition add_term (f : nat) (t : term) : M unit :=
  modify (λ w, World (parameters w)
                 (alter (λ fc, Force (kind fc) (terms fc ++ [t])) f (forces w))
                 (system_constraints w) (constrained_atom_pairs w)).

(** Assignment to the parameter object at position [i]. *)
Definition set_parameter (i : nat) (x : instance) : M unit :=
  modify (λ w, World (<[i := x]> (parameters w)) (forces w)
                 (system_constraints w) (constrained_atom_pairs w)).

Definition get_parameter (i : nat) : M instance := λ w,
  match parameters w !! i with
  | Some x => (w, Ok x)
  | None => (w, raise IndexError "no such parameter object")
  end.

(** ** [ParameterHandler] *)
Module ParameterHandler.
Import ParameterAttribute _ParameterAttributeInitializer.
Section with_external.
Context `{External}.

(** The class-level constants of a handler class. *)
Record hclass : Type := HClass {
  handler_name : string;
  _TAGNAME : string;
  (** the parameter type and its [_ELEMENT_NAME] *)
  _INFOTYPE : option (pclass * string);
  _REQUIRED_SPEC_ATTRIBS : list string;
  _DEFAULT_SPEC_ATTRIBS : list (string * value);
  _OPTIONAL_SPEC_ATTRIBS : list string;
  _INDEXED_ATTRIBS : list string;
  _REQUIRE_UNITS : list (string * unit_t);
  _ATTRIBS_TO_TYPE : list (string * (value → outcome value));
  _MIN_SUPPORTED_SECTION_VERSION : value;
  _MAX_SUPPORTED_SECTION_VERSION : value;
}.

(** A handler object: its [__dict__] apart from [_cosmetic_attribs] and
    [_parameters]; the parameter objects themselves live in the [world]. *)
Record handler : Type := Handler {
  handler_dict : gmap string value;
  handler_cosmetic_attribs : list string;
}.

(** [self.name], for a name that is neither a property nor a method of the
    class: the instance dictionary decides. *)
Definition handler_getattr (cls : hclass) (self : handler) (n : string) : outcome value :=
  match handler_dict self !! n with
  | Some v => Ok v
  | None =>
      raise AttributeError
        ("'" +:+ handler_name cls +:+ "' object has no attribute '" +:+ n +:+ "'")
  end.

(** A handler whose dictionary hides nothing of its class, and whose
    header and cosmetic attributes have names clear of the class's own. *)
Definition plain_handler (cls : hclass) (self : handler) : Prop :=
  Forall (λ n, handler_dict self !! private n = None) handler_own_names
  ∧ Forall (clear_of handler_own_names)
      (_REQUIRED_SPEC_ATTRIBS cls ++ od_keys (_DEFAULT_SPEC_ATTRIBS cls)
       ++ _OPTIONAL_SPEC_ATTRIBS cls ++ handler_cosmetic_attribs self).

#[global] Instance plain_handler_dec (cls : hclass) (self : handler) : Decision (plain_handler cls self).
Proof. unfold plain_handler. apply _. Defined.

Definition _check_section_version_compatibility (cls : hclass) (version : value) : outcome unit :=
  if version_lt (_MAX_SUPPORTED_SECTION_VERSION cls) version
     || version_lt version (_MIN_SUPPORTED_SECTION_VERSION cls)
  then raise SMIRNOFFVersionError
         ("SMIRNOFF offxml file was written with version " +:+ py_str version)
  else Ok ().

(** The [while attrib_w_index in kwargs] loop of [__init__]: neither
    [kwargs] nor [attrib_w_index] changes in its body.  [None] when the fuel
    does not suffice. *)
Fixpoint header_indexed_loop (fuel : nat) (attrib_w_index : string) (kwargs : list (string * value)) (st : list string * list (string * unit_t) * list (string * (value → outcome value))) (base : string) : option (list string * list (string * unit_t) * list (string * (value → outcome value))) :=
  if decide (attrib_w_index ∈ od_keys kwargs) then
    match fuel with
    | 0 => None
    | S fuel =>
        let '(allowed_header_attribs, require_units, attribs_to_type) := st in
        let require_units :=
          match od_get base require_units with
          | Some u => od_set attrib_w_index u require_units
          | None => require_units
          end in
        let attribs_to_type :=
          match od_get base attribs_to_type with
          | Some t => od_set attrib_w_index t attribs_to_type
          | None => attribs_to_type
          end in
        header_indexed_loop fuel attrib_w_index kwargs
          (allowed_header_attribs ++ [attrib_w_index], require_units, attribs_to_type) base
    end
  else Some st.

Fixpoint header_indexed (fuel : nat) (bases : list string) (kwargs : list (string * value)) (st : list string * list (string * unit_t) * list (string * (value → outcome value))) : option (list string * list (string * unit_t) * list (string * (value → outcome value))) :=
  match bases with
  | [] => Some st
  | base :: bases =>
      st ← header_indexed_loop fuel (base +:+ pretty 1) kwargs st base;
      header_indexed fuel bases kwargs st
  end.

(** Modelled from the spec: [check_units_are_compatible] of
    [openforcefield.utils] is not part of this module.  It fails with an
    incompatible-unit error unless the value is a quantity of a compatible
    unit. *)
Definition check_units_are_compatible (key : string) (v : value) (u : unit_t) : outcome unit :=
  match quantity_unit v with
  | Some u' =>
      if is_compatible u u' then Ok ()
      else raise IncompatibleUnitError (key +:+ " should have units of " +:+ unit_str u)
  | None => raise IncompatibleUnitError (key +:+ " should have units of " +:+ unit_str u)
  end.

(** [add_cosmetic_attribute], for a name clear of the handler's own (the
    names [cosmetic_attribs] and [parameters] would replace the list of the
    cosmetic attributes and the parameter list). *)
Definition add_cosmetic_attribute (self : handler) (attr_name : string) (attr_value : value) : handler :=
  Handler (<[private attr_name := attr_value]> (handler_dict self))
          (handler_cosmetic_attribs self ++ [attr_name]).

(** The body of the last loop of [__init__]. *)
Definition init_header_attribute (cls : hclass) (allow_cosmetic_attributes : bool) (allowed_header_attribs : list string) (self : handler) (kv : string * value) : outcome handler :=
  if decide (Some kv.1 = snd <$> _INFOTYPE cls) then Ok self
  else if decide (kv.1 ∈ allowed_header_attribs) then
    Ok (Handler (<[private kv.1 := kv.2]> (handler_dict self)) (handler_cosmetic_attribs self))
  else if allow_cosmetic_attributes then Ok (add_cosmetic_attribute self kv.1 kv.2)
  else raise SMIRNOFFSpecError
         ("Unexpected kwarg " +:+ kv.1 +:+ " passed to " +:+ handler_name cls +:+ " constructor.").

(** [ParameterHandler.__init__]; the parameter list starts empty.  [None]
    when the fuel does not suffice for the loop over indexed attributes. *)
Definition __init__ (fuel : nat) (cls : hclass) (allow_cosmetic_attributes skip_version_check : bool) (kwargs : list (string * value)) : option (outcome handler) :=
  let checked_version : outcome (list (string * value)) :=
    if decide ("version" ∈ _REQUIRED_SPEC_ATTRIBS cls) then
      kwargs ← (if decide ("version" ∈ od_keys kwargs) then Ok kwargs
                else if skip_version_check then
                  Ok (od_set "version" (_MAX_SUPPORTED_SECTION_VERSION cls) kwargs)
                else raise SMIRNOFFSpecError
                       ("Missing version while trying to construct " +:+ handler_name cls));
      match od_get "version" kwargs with
      | Some version => _ ← _check_section_version_compatibility cls version; Ok kwargs
      | None => raise KeyError "version"
      end
    else Ok kwargs in
  match checked_version with
  | Raise e => Some (Raise e)
  | Ok kwargs =>
      match list_find (λ a, a ∉ od_keys kwargs) (_REQUIRED_SPEC_ATTRIBS cls) with
      | Some (_, reqd_attrib) =>
          Some (raise SMIRNOFFSpecError
                  (handler_name cls +:+ " requires " +:+ reqd_attrib
                   +:+ " as a parameter during initialization"))
      | None =>
          let allowed_header_attribs :=
            _REQUIRED_SPEC_ATTRIBS cls ++ od_keys (_DEFAULT_SPEC_ATTRIBS cls)
            ++ _OPTIONAL_SPEC_ATTRIBS cls in
          '(allowed_header_attribs, require_units, attribs_to_type) ←
            header_indexed fuel (_INDEXED_ATTRIBS cls) kwargs
              (allowed_header_attribs, _REQUIRE_UNITS cls, _ATTRIBS_TO_TYPE cls);
          Some (
            kwargs ← foldM (λ kw at_,
                      match od_get at_.1 kw with
                      | Some v => v' ← at_.2 v; Ok (od_set at_.1 v' kw)
                      | None => Ok kw
                      end) attribs_to_type kwargs;
            let smirnoff_data :=
              foldl (λ d kv, if decide (kv.1 ∈ od_keys d) then d else od_set kv.1 kv.2 d)
                    kwargs (_DEFAULT_SPEC_ATTRIBS cls) in
            _ ← foldM (λ _ kv,
                   match od_get kv.1 require_units with
                   | Some u => check_units_are_compatible kv.1 kv.2 u
                   | None => Ok ()
                   end) smirnoff_data ();
            foldM (init_header_attribute cls allow_cosmetic_attributes allowed_header_attribs)
                  smirnoff_data (Handler ∅ []))
      end
  end.

(** [ParameterHandler._Match], with the matched parameter type given by
    reference. *)
Record Match : Type := _Match {
  parameter_type : nat;
  environment_match : environment_match_t;
}.

(** Modelled from the spec: the dictionary classes [ValenceDict] and
    [ImproperDict] of [openforcefield.topology] are not part of this module.
    Such a dictionary stores every entry under the canonical form of its
    key. *)
Record dict_cls : Type := DictCls {
  __keytransform__ : list nat → list nat;
}.

(** Modelled from the spec: the canonical form of [ValenceDict] is
    undirected, a tuple and its reversal have the same key. *)
Definition ValenceDict : dict_cls :=
  DictCls (λ key,
    match key, last key with
    | first :: _, Some final => if decide (final < first) then reverse key else key
    | _, _ => key
    end).

(** Insertion of [x] into an ascending list. *)
Fixpoint insert_sorted (x : nat) (l : list nat) : list nat :=
  match l with
  | [] => [x]
  | y :: l' => if decide (x ≤ y) then x :: l else y :: insert_sorted x l'
  end.

(** Modelled from the spec: the canonical form of [ImproperDict] keeps the
    central atom (the second) in place and puts the other three in
    ascending order. *)
Definition ImproperDict : dict_cls :=
  DictCls (λ key,
    match key with
    | [a; b; c; d] =>
        match foldr insert_sorted [] [a; c; d] with
        | [x; y; z] => [x; b; y; z]
        | _ => key
        end
    | _ => key
    end).

(** [d[key] = v] and [d.update(e)] on such a dictionary *)
Definition tdict_set {V} (dc : dict_cls) (key : list nat) (v : V) (d : list (list nat * V)) : list (list nat * V) :=
  od_set (__keytransform__ dc key) v d.

Definition tdict_update {V} (dc : dict_cls) (e d : list (list nat * V)) : list (list nat * V) :=
  foldl (λ acc kv, tdict_set dc kv.1 kv.2 acc) d e.

Definition tdict_get {V} (dc : dict_cls) (key : list nat) (d : list (list nat * V)) : option V :=
  od_get (__keytransform__ dc key) d.

(** [parameter_type.smirks] *)
Definition get_smirks (cls : hclass) (x : instance) : outcome value :=
  match _INFOTYPE cls with
  | Some (pcls, _) =>
      match find_descriptor pcls "smirks" with
      | Some d => __get__ d x
      | None => raise AttributeError "smirks"
      end
  | None => raise AttributeError "smirks"
  end.

(** The matches of one parameter type, keyed by the atom indices as the
    pattern engine returns them. *)
Definition matches_for_type (entity : topology) (i : nat) (smirks : value) : list (list nat * Match) :=
  foldl (λ acc em, od_set (topology_atom_indices em) (_Match i em) acc) []
        (chemical_environment_matches entity smirks).

(** [_find_matches(self, entity, transformed_dict_cls)] *)
Definition _find_matches (cls : hclass) (_parameters : list instance) (entity : topology) (transformed_dict_cls : dict_cls) : outcome (list (list nat * Match)) :=
  foldM (λ matches ix,
           smirks ← get_smirks cls ix.2;
           Ok (tdict_update transformed_dict_cls
                 (matches_for_type entity ix.1 smirks) matches))
        (imap pair _parameters) [].

(** [find_matches(self, entity)] *)
Definition find_matches (cls : hclass) (_parameters : list instance) (entity : topology) : outcome (list (list nat * Match)) :=
  _find_matches cls _parameters entity ValenceDict.

(** [_assert_correct_connectivity(match, expected_connectivity)] *)
Definition _assert_correct_connectivity (m : Match) (expected_connectivity : option (list (nat * nat))) : outcome unit :=
  let expected_connectivity :=
    match expected_connectivity with
    | Some c => c
    | None =>
        (λ i, (i, i + 1)) <$>
          seq 0 (length (topology_atom_indices (environment_match m)) - 1)
    end in
  foldM (λ _ connectivity,
           atom_i ← tuple_get (reference_atom_indices (environment_match m)) connectivity.1;
           atom_j ← tuple_get (reference_atom_indices (environment_match m)) connectivity.2;
           _ ← get_bond_between (reference_molecule (environment_match m)) atom_i atom_j;
           Ok ())
        expected_connectivity ().

(** [str(x)] on a tuple of indices: [(0, 1)], and [(0,)] for one index. *)
Definition str_tuple (t : list nat) : string :=
  match t with
  | [x] => "(" +:+ pretty x +:+ ",)"
  | _ => "(" +:+ join ", " (pretty <$> t) +:+ ")"
  end.

Definition unassigned_msg (name : string) (unassigned_terms : list (list nat)) : string :=
  name +:+ " was not able to find parameters for the following valence terms:
- " +:+ join "
- " (str_tuple <$> unassigned_terms).

Definition not_found_msg (name : string) (not_found_terms : list (list nat)) : string :=
  name +:+ " assigned terms that were not found in the topology:
- " +:+ join "
- " (str_tuple <$> not_found_terms).

(** [_check_all_valence_terms_assigned(cls, assigned_terms, valence_terms,
    exception_cls)]; [assigned_terms] is a dictionary of class [dc].  The
    sets of keys are lists without repetition; the order of their elements
    stands for the unspecified iteration order of a Python set. *)
Definition _check_all_valence_terms_assigned {V} (cls : hclass) (dc : dict_cls) (assigned_terms : list (list nat * V)) (valence_terms : list (list nat)) (exception_cls : exn_class) : outcome unit :=
  if decide (length assigned_terms = length valence_terms) then Ok ()
  else
    let valence_terms_dict :=
      foldl (λ d atoms, tdict_set dc atoms atoms d) [] valence_terms in
    let assigned_terms_set := remove_dups (od_keys assigned_terms) in
    let valence_terms_set := remove_dups (od_keys valence_terms_dict) in
    let unassigned_terms := list_difference valence_terms_set assigned_terms_set in
    let not_found_terms := list_difference assigned_terms_set valence_terms_set in
    let err_msg := "" in
    let err_msg :=
      if decide (0 < length unassigned_terms)
      then err_msg +:+ unassigned_msg (handler_name cls) unassigned_terms
      else err_msg in
    let err_msg :=
      if decide (0 < length not_found_terms)
      then (if decide (err_msg ≠ "") then err_msg +:+ "
" else err_msg) +:+ not_found_msg (handler_name cls) not_found_terms
      else err_msg in
    if decide (err_msg ≠ "") then raise exception_cls (err_msg +:+ "
")
    else Ok ().

(** [hasattr(self, name)], for a name that is no attribute of the class *)
Definition handler_hasattr (self : handler) (n : string) : bool :=
  bool_decide (is_Some (handler_dict self !! n)).

(** The names of the header attributes [to_dict] writes. *)
Definition header_attribs_to_return (cls : hclass) (discard_cosmetic_attributes : bool) (self : handler) : list string :=
  let header_attribs_to_return :=
    _REQUIRED_SPEC_ATTRIBS cls ++ od_keys (_DEFAULT_SPEC_ATTRIBS cls) in
  let header_attribs_to_return :=
    header_attribs_to_return
    ++ filter (λ key, handler_hasattr self (private key) = true) (_OPTIONAL_SPEC_ATTRIBS cls) in
  if negb discard_cosmetic_attributes
  then header_attribs_to_return ++ handler_cosmetic_attribs self
  else header_attribs_to_return.

(** The dictionary [header_attribute_dict] of [to_dict]. *)
Definition header_attribute_dict (cls : hclass) (discard_cosmetic_attributes : bool) (self : handler) : outcome (list (string * value)) :=
  foldM (λ header_attribute_dict header_attribute,
           value ← handler_getattr cls self (private header_attribute);
           Ok (od_set header_attribute value header_attribute_dict))
        (header_attribs_to_return cls discard_cosmetic_attributes self) [].

(** A value of the dictionary [to_dict] returns: the serialized parameter
    list, or a header attribute. *)
Inductive section_value : Type :=
| ParameterDicts (parameter_list : list (list (string * value)))
| HeaderValue (v : value).

(** [to_dict(self, discard_cosmetic_attributes)]; the parameter objects are
    those of the handler's [ParameterList], instances of [_INFOTYPE] (a
    handler class without [_INFOTYPE] creates none, its list is empty). *)
Definition to_dict (cls : hclass) (discard_cosmetic_attributes : bool) (self : handler) (_parameters : list instance) : outcome (list (string * section_value)) :=
  let smirnoff_data := [] in
  parameter_list ← match _INFOTYPE cls with
                   | Some (pcls, _) =>
                       ParameterList.to_list pcls discard_cosmetic_attributes _parameters
                   | None => Ok []
                   end;
  let smirnoff_data :=
    match _INFOTYPE cls with
    | Some (_, _ELEMENT_NAME) =>
        od_set _ELEMENT_NAME (ParameterDicts parameter_list) smirnoff_data
    | None => smirnoff_data
    end in
  header_attribute_dict ← header_attribute_dict cls discard_cosmetic_attributes self;
  Ok (od_update ((λ kv, (kv.1, HeaderValue kv.2)) <$> header_attribute_dict) smirnoff_data).

End with_external.
End ParameterHandler.

(** ** The bond and torsion handlers *)

(** [x.name] on a parameter object of class [pcls] *)
Definition record_getattr `{External} (pcls : _ParameterAttributeInitializer.pclass) (x : instance) (n : string) : outcome value :=
  match _ParameterAttributeInitializer.find_descriptor pcls n with
  | Some d => ParameterAttribute.__get__ d x
  | None => raise AttributeError n
  end.

(** [x.name = v] on a parameter object of class [pcls] *)
Definition record_setattr `{External} (pcls : _ParameterAttributeInitializer.pclass) (x : instance) (n : string) (v : value) : outcome instance :=
  match _ParameterAttributeInitializer.find_descriptor pcls n with
  | Some d => ParameterAttribute.__set__ d x v
  | None => Ok (Instance (<[n := v]> (inst_dict x)) (_cosmetic_attribs x))
  end.

Module BondHandler.
Import ParameterHandler.
Section with_external.
Context `{External}.

Definition cls : hclass :=
  HClass "BondHandler" "Bonds" (Some (ParameterType.BondType, "Bond"))
    ["version"]
    [("potential", VStr "harmonic");
     ("fractional_bondorder_method", VNone);
     ("fractional_bondorder_interpolation", VStr "linear")]
    [] ["k"] [] [] (num (3 # 10)) (num (3 # 10)).

(** The computation of the spring constant and the equilibrium length of
    one matched bond. *)
Definition bond_k_length (self : handler) (bond_params : instance) (b : bond) : outcome (value * value) :=
  if decide (fractional_bond_order b = VNone) then
    k ← record_getattr ParameterType.BondType bond_params "k";
    length ← record_getattr ParameterType.BondType bond_params "length";
    Ok (k, length)
  else
    let order := fractional_bond_order b in
    mode ← handler_getattr cls self "fractional_bondorder_interpolation";
    if decide (mode = VStr "interpolate-linear") then
      k0 ← record_getattr ParameterType.BondType bond_params "k" ≫= λ v, py_getitem v 0;
      k1 ← record_getattr ParameterType.BondType bond_params "k" ≫= λ v, py_getitem v 1;
      k0' ← record_getattr ParameterType.BondType bond_params "k" ≫= λ v, py_getitem v 0;
      dk ← py_sub k1 k0';
      o ← py_sub order (num 1);
      p ← py_mul dk o;
      k ← py_add k0 p;
      l0 ← record_getattr ParameterType.BondType bond_params "length" ≫= λ v, py_getitem v 0;
      l1 ← record_getattr ParameterType.BondType bond_params "length" ≫= λ v, py_getitem v 1;
      l0' ← record_getattr ParameterType.BondType bond_params "length" ≫= λ v, py_getitem v 0;
      dl ← py_sub l1 l0';
      o ← py_sub order (num 1);
      p ← py_mul dl o;
      length ← py_add l0 p;
      Ok (k, length)
    else
      method ← handler_getattr cls self "fractional_bondorder_method";
      raise PyException
        ("Partial bondorder treatment " +:+ py_str method +:+ " is not implemented.").

(** The body of the loop over the bond matches. *)
Definition create_bond (self : handler) (force : nat) (item : list nat * Match) : M unit :=
  let '(topology_atom_indices, bond_match) := item in
  _ ← lift (_assert_correct_connectivity bond_match None);
  bond_params ← get_parameter (parameter_type bond_match);
  let m := environment_match bond_match in
  b ← lift (match reference_atom_indices m with
            | [i; j] => get_bond_between (reference_molecule m) i j
            | _ => raise TypeError "get_bond_between() takes 2 positional arguments"
            end);
  '(k, length) ← lift (bond_k_length self bond_params b);
  match topology_atom_indices with
  | [i; j] =>
      w ← get_world;
      match is_constrained i j w with
      | Some ConstrainedTrue =>
          _ ← add_constraint i j (ConstrainedAt length);
          addConstraint i j length
      | Some (ConstrainedAt distance) =>
          (* [if is_constrained:] tests the distance itself *)
          if py_bool distance then mret ()
          else add_term force (BondTerm i j length k)
      | None => add_term force (BondTerm i j length k)
      end
  | _ => lift (raise TypeError "is_constrained() takes 2 positional arguments")
  end.

Definition create_force (self : handler) (topo : topology) : M unit :=
  force ← get_or_create_force HarmonicBondForce;
  w ← get_world;
  bond_matches ← lift (find_matches cls (parameters w) topo);
  _ ← forM bond_matches (create_bond self force);
  lift (_check_all_valence_terms_assigned cls ValenceDict bond_matches
          (topology_bonds topo) UnassignedBondParameterException).

(** [check_handler_compatibility(self, other_handler)] *)
Definition check_handler_compatibility (self other_handler : handler) : outcome unit :=
  let string_attrs_to_compare :=
    ["potential"; "fractional_bondorder_method"; "fractional_bondorder_interpolation"] in
  foldM (λ _ string_attr,
           this_val ← handler_getattr cls self (private string_attr);
           other_val ← handler_getattr cls other_handler (private string_attr);
           if decide (this_val ≠ other_val) then
             raise IncompatibleParameterError
               (string_attr +:+ " values are not identical. (handler value: "
                +:+ py_str this_val +:+ ", incompatible value: " +:+ py_str other_val)
           else Ok ())
        string_attrs_to_compare ().

End with_external.
End BondHandler.

Module ProperTorsionHandler.
Import ParameterHandler.
Section with_external.
Context `{External}.

Definition cls : hclass :=
  HClass "ProperTorsionHandler" "ProperTorsions"
    (Some (ParameterType.ProperTorsionType, "Proper"))
    ["version"]
    [("potential", VStr "k*(1+cos(periodicity*theta-phase))");
     ("default_idivf", VStr "auto")]
    [] ["k"; "phase"; "periodicity"; "idivf"] [] [] (num (3 # 10)) (num (3 # 10)).

Definition validate_parameters (self : handler) : outcome unit :=
  potential ← handler_getattr cls self "_potential";
  if decide (potential ∈ [VStr "k*(1+cos(periodicity*theta-phase))"]) then Ok ()
  else raise SMIRNOFFSpecError
         ("ProperTorsionHandler given 'potential' value of '" +:+ py_str potential +:+ "'.").

(** The body of the loop over the zipped terms of one torsion. *)
Definition add_torsion_term (force : nat) (atom_indices : list nat) (t : value * value * value * value) : M unit :=
  let '(periodicity, phase, k, idivf) := t in
  if decide (idivf = VStr "auto") then
    lift (raise NotImplementedError
            "The OpenForceField toolkit hasn't implemented support for the torsion `idivf` value of 'auto'")
  else
    a0 ← lift (tuple_get atom_indices 0);
    a1 ← lift (tuple_get atom_indices 1);
    a2 ← lift (tuple_get atom_indices 2);
    a3 ← lift (tuple_get atom_indices 3);
    kd ← lift (py_truediv k idivf);
    add_term force (TorsionTerm a0 a1 a2 a3 periodicity phase kd).

(** [zip(x.periodicity, x.phase, x.k, x.idivf)] *)
Definition zipped_terms (pcls : _ParameterAttributeInitializer.pclass) (x : instance) : outcome (list (value * value * value * value)) :=
  periodicity ← record_getattr pcls x "periodicity";
  phase ← record_getattr pcls x "phase";
  k ← record_getattr pcls x "k";
  idivf ← record_getattr pcls x "idivf";
  periodicity ← py_iter periodicity;
  phase ← py_iter phase;
  k ← py_iter k;
  idivf ← py_iter idivf;
  Ok (zip4 periodicity phase k idivf).

(** The body of the loop over the torsion matches. *)
Definition create_torsion (force : nat) (item : list nat * Match) : M unit :=
  let '(atom_indices, torsion_match) := item in
  _ ← lift (_assert_correct_connectivity torsion_match None);
  torsion ← get_parameter (parameter_type torsion_match);
  zipped ← lift (zipped_terms ParameterType.ProperTorsionType torsion);
  forM zipped (add_torsion_term force atom_indices).

Definition create_force (self : handler) (topo : topology) : M unit :=
  _ ← lift (validate_parameters self);
  force ← get_or_create_force PeriodicTorsionForce;
  w ← get_world;
  torsion_matches ← lift (find_matches cls (parameters w) topo);
  _ ← forM torsion_matches (create_torsion force);
  lift (_check_all_valence_terms_assigned cls ValenceDict torsion_matches
          (propers topo) UnassignedProperTorsionParameterException).

(** [check_handler_compatibility(self, other_handler)]; the class has no
    attribute [_SCALETOL], so that the message of the first exception reads
    it from the object. *)
Definition check_handler_compatibility `{!Comparison} (self other_handler : handler) : outcome unit :=
  default_idivf ← handler_getattr cls self "_default_idivf";
  let '(float_attrs_to_compare, string_attrs_to_compare) :=
    if decide (default_idivf = VStr "auto")
    then ([], ["potential"; "default_idivf"])
    else (["default_idivf"], ["potential"]) in
  _ ← foldM (λ _ float_attr,
               this_val ← handler_getattr cls self (private float_attr);
               other_val ← handler_getattr cls other_handler (private float_attr);
               difference ← py_sub this_val other_val;
               distance ← py_abs difference;
               beyond ← py_gt distance (num (1 # 1000000));
               if (beyond : bool) then
                 _SCALETOL ← handler_getattr cls self "_SCALETOL";
                 raise IncompatibleParameterError
                   ("Difference between '" +:+ float_attr
                    +:+ "' values is beyond allowed tolerance " +:+ py_str _SCALETOL
                    +:+ ". (handler value: " +:+ py_str this_val
                    +:+ ", incompatible value: " +:+ py_str other_val)
               else Ok ())
            float_attrs_to_compare ();
  foldM (λ _ string_attr,
           this_val ← handler_getattr cls self (private string_attr);
           other_val ← handler_getattr cls other_handler (private string_attr);
           if decide (this_val ≠ other_val) then
             raise IncompatibleParameterError
               (string_attr +:+ " values are not identical. (handler value: "
                +:+ py_str this_val +:+ ", incompatible value: " +:+ py_str other_val)
           else Ok ())
        string_attrs_to_compare ().

End with_external.
End ProperTorsionHandler.

Module ImproperTorsionHandler.
Import ParameterHandler.
Section with_external.
Context `{External}.

Definition cls : hclass :=
  HClass "ImproperTorsionHandler" "ImproperTorsions"
    (Some (ParameterType.ImproperTorsionType, "Improper"))
    ["version"]
    [("potential", VStr "k*(1+cos(periodicity*theta-phase))");
     ("default_idivf", VStr "auto")]
    ["potential"; "default_idivf"]
    ["k"; "phase"; "periodicity"; "idivf"] [] [] (num (3 # 10)) (num (3 # 10)).

Definition validate_parameters (self : handler) : outcome unit :=
  potential ← handler_getattr cls self "_potential";
  if decide (potential ∈ [VStr "k*(1+cos(periodicity*theta-phase))"]) then Ok ()
  else raise SMIRNOFFSpecError
         ("ImproperTorsionHandler given 'potential' value of '" +:+ py_str potential +:+ "'.").

(** [find_matches(self, entity)], overridden to use [ImproperDict]. *)
Definition find_matches (_parameters : list instance) (entity : topology) : outcome (list (list nat * Match)) :=
  _find_matches cls _parameters entity ImproperDict.

(** The three paths around the trefoil of one term. *)
Definition add_trefoil (force : nat) (atom_indices : list nat) (t : value * value * value * value) : M unit :=
  let '(improper_periodicity, improper_phase, improper_k, improper_idivf) := t in
  let improper_idivf :=
    if decide (improper_idivf = VStr "auto") then num 3 else improper_idivf in
  o0 ← lift (tuple_get atom_indices 0);
  o1 ← lift (tuple_get atom_indices 2);
  o2 ← lift (tuple_get atom_indices 3);
  forM [(o0, o1, o2); (o1, o2, o0); (o2, o0, o1)] (λ p,
    c ← lift (tuple_get atom_indices 1);
    kd ← lift (py_truediv improper_k improper_idivf);
    add_term force (TorsionTerm c p.1.1 p.1.2 p.2 improper_periodicity improper_phase kd)).

(** [if improper.idivf is None: improper.idivf = [3 for item in improper.k]],
    on the parameter object at position [i]. *)
Definition default_idivf (i : nat) : M unit :=
  improper ← get_parameter i;
  idivf ← lift (record_getattr ParameterType.ImproperTorsionType improper "idivf");
  if decide (idivf = VNone) then
    k ← lift (record_getattr ParameterType.ImproperTorsionType improper "k");
    items ← lift (py_iter k);
    improper ← lift (record_setattr ParameterType.ImproperTorsionType improper "idivf"
                       (VList ((λ _, num 3) <$> items)));
    set_parameter i improper
  else mret ().

(** The body of the loop over the improper matches. *)
Definition create_improper (force : nat) (item : list nat * Match) : M unit :=
  let '(atom_indices, improper_match) := item in
  _ ← lift (_assert_correct_connectivity improper_match (Some [(0, 1); (1, 2); (1, 3)]));
  _ ← default_idivf (parameter_type improper_match);
  improper ← get_parameter (parameter_type improper_match);
  zipped ← lift (ProperTorsionHandler.zipped_terms ParameterType.ImproperTorsionType improper);
  forM zipped (add_trefoil force atom_indices).

Definition create_force (self : handler) (topo : topology) : M unit :=
  _ ← lift (validate_parameters self);
  force ← get_or_create_force PeriodicTorsionForce;
  w ← get_world;
  improper_matches ← lift (find_matches (parameters w) topo);
  forM improper_matches (create_improper force).

End with_external.
End ImproperTorsionHandler.

(** ** An instance of the external interface

    Exact rational arithmetic, one unit for every number, and conversions
    that keep numbers and reject everything else.  It serves to run the
    definitions on concrete inputs. *)
Module Exact.

Definition qop (f : Q → Q → Q) (a b : value) : outcome value :=
  match a, b with
  | VNum x, VNum y => Ok (num (f (this x) (this y)))
  | _, _ => raise TypeError "unsupported operand type(s)"
  end.

Definition truediv (a b : value) : outcome value :=
  match a, b with
  | VNum x, VNum y =>
      if decide (y = Q2Qc 0) then raise ZeroDivisionError "float division by zero"
      else Ok (num (Qdiv (this x) (this y)))
  | _, _ => raise TypeError "unsupported operand type(s)"
  end.

Definition to_number (v : value) : outcome value :=
  match v with
  | VNum q => Ok (VNum q)
  | VStr _ => raise ValueError "could not convert string"
  | _ => raise TypeError "argument must be a string or a number"
  end.

Definition number_unit (v : value) : option string :=
  match v with VNum _ => Some "unit" | _ => None end.

Definition show (v : value) : string :=
  match v with
  | VNone => "None"
  | VStr s => s
  | VNum _ => "<number>"
  | VList _ => "<list>"
  end.

#[global] Instance external : External := {|
  unit_t := string;
  unit_str := id;
  object_to_quantity := Ok;
  quantity_unit := number_unit;
  is_compatible := λ _ _, true;
  py_str := show;
  py_add := qop Qplus;
  py_sub := qop Qminus;
  py_mul := qop Qmult;
  py_truediv := truediv;
  py_int := to_number;
  py_float := to_number;
  validate_smirks := λ _ v,
    match v with VStr _ => Ok () | _ => raise TypeError "smirks must be a string" end;
  version_lt := λ a b,
    match a, b with VNum x, VNum y => bool_decide (Qclt x y) | _, _ => false end;
  angstrom := "angstrom";
  degree := "degree";
  kilocalorie_per_mole := "kilocalorie_per_mole";
  kilocalorie_per_mole_per_angstrom2 := "kilocalorie_per_mole/angstrom**2";
|}.

End Exact.

(** * Properties *)

(** ** Dictionaries *)
Section odict_facts.
Context {K V : Type} `{EqDecision K}.
Implicit Types (k : K) (v : V) (d e : list (K * V)).

Lemma od_get_od_set k k' v d :
  od_get k (od_set k' v d) = if decide (k = k') then Some v else od_get k d.
Proof.
  induction d as [|[k0 v0] d IH]; simpl.
  - by destruct (decide (k = k')).
  - destruct (decide (k' = k0)) as [->|Hne]; simpl.
    + by destruct (decide (k = k0)).
    + destruct (decide (k = k0)) as [->|]; [by rewrite decide_False|done].
Qed.

Lemma od_get_Some_elem_of k v d : od_get k d = Some v → (k, v) ∈ d.
Proof.
  induction d as [|[k0 v0] d IH]; simpl; [done|].
  case_decide; [intros [= ->]; subst; left | intros; right; auto].
Qed.

Lemma od_get_None k d : od_get k d = None ↔ k ∉ od_keys d.
Proof.
  unfold od_keys. induction d as [|[k0 v0] d IH]; simpl.
  - split; [intros _; apply not_elem_of_nil | done].
  - rewrite not_elem_of_cons. case_decide as Hk.
    + split; [done|]. by intros [? _].
    + rewrite IH. split; [by intros ?; split | by intros [_ ?]].
Qed.

Lemma od_get_is_Some k d : is_Some (od_get k d) ↔ k ∈ od_keys d.
Proof.
  rewrite <-not_eq_None_Some, od_get_None.
  destruct (decide (k ∈ od_keys d)); naive_solver.
Qed.

(** The keys of a dictionary after an assignment. *)
Lemma od_keys_od_set k v d :
  od_keys (od_set k v d) = if decide (k ∈ od_keys d) then od_keys d else od_keys d ++ [k].
Proof.
  unfold od_keys. induction d as [|[k0 v0] d IH]; [done|].
  cbn [od_set]. destruct (decide (k = k0)) as [->|Hne].
  - rewrite !fmap_cons. cbn [fst]. rewrite decide_True by left. done.
  - rewrite !fmap_cons, IH. cbn [fst]. destruct (decide (k ∈ d.*1)).
    + rewrite decide_True by (by right). done.
    + rewrite decide_False; [done|]. rewrite not_elem_of_cons. done.
Qed.

Lemma od_set_NoDup k v d : NoDup (od_keys d) → NoDup (od_keys (od_set k v d)).
Proof.
  intros Hnd. rewrite od_keys_od_set. case_decide; [done|].
  apply NoDup_app. split_and!; [done| |apply NoDup_singleton].
  intros x Hx ->%list_elem_of_singleton. done.
Qed.

(** A sequence of assignments under transformed keys: the last assignment
    to a key decides, and keys not assigned keep their entry. *)
Lemma od_get_foldl_set_None (f : K → K) e d k :
  (∀ kv, kv ∈ e → f kv.1 ≠ k) →
  od_get k (foldl (λ acc kv, od_set (f kv.1) kv.2 acc) d e) = od_get k d.
Proof.
  revert d. induction e as [|[k0 v0] e IH]; intros d Hne; simpl; [done|].
  rewrite IH by (intros kv Hkv; apply Hne; by right).
  rewrite od_get_od_set, decide_False; [done|].
  intros ->. by apply (Hne (k0, v0)); [left|].
Qed.

Lemma od_get_foldl_set_Some (f : K → K) e d k v :
  od_get k (foldl (λ acc kv, od_set (f kv.1) kv.2 acc) d e) = Some v →
  od_get k d = Some v ∨ ∃ k0, (k0, v) ∈ e ∧ f k0 = k.
Proof.
  revert d. induction e as [|[k0 v0] e IH]; intros d; simpl; [by left|].
  intros [Hd|(k1 & Hin & Hk1)]%IH.
  - rewrite od_get_od_set in Hd. case_decide as Hk; [|by left].
    injection Hd as ->. right. exists k0. split; [left|done].
  - right. exists k1. split; [by right|done].
Qed.

Lemma od_get_foldl_set_hit (f : K → K) e d k :
  (∃ kv, kv ∈ e ∧ f kv.1 = k) →
  ∃ k0 v, od_get k (foldl (λ acc kv, od_set (f kv.1) kv.2 acc) d e) = Some v
          ∧ (k0, v) ∈ e ∧ f k0 = k.
Proof.
  revert d. induction e as [|[k0 v0] e IH]; intros d [kv [Hin Hk]]; simpl.
  - by apply elem_of_nil in Hin.
  - destruct (decide (Exists (λ kv', f kv'.1 = k) e)) as [Hlater|Hnone];
      rewrite Exists_exists in *.
    + destruct (IH (od_set (f k0) v0 d) Hlater) as (k1 & v1 & Hget & Hin1 & Hk1).
      exists k1, v1. split_and!; [done|by right|done].
    + apply elem_of_cons in Hin as [->|Hin]; [|destruct Hnone; eauto].
      exists k0, v0. split_and!; [|left|done].
      rewrite od_get_foldl_set_None.
      * simpl in Hk. by rewrite od_get_od_set, decide_True.
      * intros kv' Hkv' Hf. apply Hnone. eauto.
Qed.

Lemma elem_of_od_set (kv : K * V) k v d :
  kv ∈ od_set k v d → kv = (k, v) ∨ kv ∈ d.
Proof.
  induction d as [|[k0 v0] d IH]; simpl.
  - intros ->%list_elem_of_singleton. by left.
  - case_decide.
    + intros [->|?]%elem_of_cons; [by left|right; by right].
    + intros [->|[->|?]%IH]%elem_of_cons; [right; left|by left|right; by right].
Qed.

Lemma foldl_od_set_Forall {A} (key : A → K) (val : A → V) (Q : K * V → Prop) (xs : list A) d :
  Forall Q d → Forall (λ x, Q (key x, val x)) xs →
  Forall Q (foldl (λ acc x, od_set (key x) (val x) acc) d xs).
Proof.
  revert d. induction xs as [|x xs IH]; intros d Hd Hxs; simpl; [done|].
  inversion_clear Hxs as [|? ? Hx Hxs']. apply IH; [|done].
  apply Forall_forall. intros kv [->|Hin]%elem_of_od_set; [done|].
  by eapply Forall_forall in Hd.
Qed.

Lemma foldl_od_set_keys {A} (key : A → K) (val : A → V) (xs : list A) d k :
  k ∈ od_keys d ∨ k ∈ key <$> xs →
  k ∈ od_keys (foldl (λ acc x, od_set (key x) (val x) acc) d xs).
Proof.
  revert d. induction xs as [|x xs IH]; intros d; simpl.
  - intros [?|[]%elem_of_nil]. done.
  - intros Hk. apply IH. rewrite od_keys_od_set.
    destruct Hk as [Hk|[->|Hk]%elem_of_cons].
    + left. case_decide; [done|]. apply elem_of_app. by left.
    + left. case_decide; [done|]. apply elem_of_app. right. left.
    + by right.
Qed.

End odict_facts.

(** ** Loops that may raise *)
Section foldM_facts.
Context {A B : Type}.

Lemma foldM_app (f : B → A → outcome B) (xs ys : list A) (b : B) :
  foldM f (xs ++ ys) b = foldM f xs b ≫= foldM f ys.
Proof.
  revert b. induction xs as [|x xs IH]; intros b; simpl; [done|].
  destruct (f b x); simpl; [apply IH|done].
Qed.

Lemma foldM_invariant (P : B → Prop) (f : B → A → outcome B) (xs : list A) (b : B) :
  P b →
  (∀ b x, x ∈ xs → P b → ∃ b', f b x = Ok b' ∧ P b') →
  ∃ b', foldM f xs b = Ok b' ∧ P b'.
Proof.
  revert b. induction xs as [|x xs IH]; intros b Hb Hstep; simpl; [eauto|].
  destruct (Hstep b x) as (b' & -> & Hb'); [left|done|]. simpl.
  apply IH; [done|]. intros b0 x0 Hx0. apply Hstep. by right.
Qed.

End foldM_facts.

(** ** C8: the dispatch to a custom converter *)
Section converter.
Import ParameterAttribute.
Context `{External}.

(** C8 (as the code has it).  [_call_converter] first calls the converter
    with the value alone.  For a free function [f] the caller gets the result
    of [f], or its failure unchanged unless that failure is a [TypeError]; a
    [TypeError] raised by [f] itself sets off the retry with three arguments
    and the caller gets the arity error of the retry.  For a bound function
    [g] the one-argument call fails on its arity and the caller gets exactly
    what [g(instance, descriptor, value)] returns or raises.  Without a
    converter the value is returned as it is. *)
Theorem call_converter_dispatch (i : attr_info) (ix : bool) (f : value → outcome value) (g : instance → attr_info → value → outcome value) (v : value) (inst : instance) :
  _call_converter (Descriptor i (Some (free_function f)) ix) v inst
    = match f v with
      | Ok w => Ok w
      | Raise e =>
          if issubclass (exn_cls e) TypeError
          then raise TypeError "takes 1 positional argument but 3 were given"
          else Raise e
      end
  ∧ _call_converter (Descriptor i (Some (bound_function g)) ix) v inst = g inst i v
  ∧ _call_converter (Descriptor i None ix) v inst = Ok v.
Proof.
  split_and!; [|done..].
  unfold _call_converter; simpl. by destruct (f v).
Qed.

End converter.

(** C8, as stated, fails: the converter [float] of
    [ParameterAttribute(converter=float)] raises a [TypeError] on [None];
    the framework retries with three arguments and the caller sees the
    arity error instead of the converter's own failure. *)
Lemma call_converter_masks_TypeError :
  let attr_all_to_float :=
    ParameterAttribute.Descriptor (ParameterAttribute.AttrInfo "attr_all_to_float" None None)
      (Some (ParameterAttribute.free_function py_float)) false in
  ∃ e e',
    py_float VNone = Raise e
    ∧ ParameterAttribute._call_converter attr_all_to_float VNone (Instance ∅ []) = Raise e'
    ∧ e ≠ e'.
Proof. do 2 eexists. split_and!; [reflexivity|reflexivity|]. by intros [=]. Qed.

(** ** C1: matching in declaration order *)
Section find_matches.
Import ParameterAttribute _ParameterAttributeInitializer ParameterHandler.
Context `{External}.
Context (cls : hclass) (entity : topology) (dc : dict_cls).

(** The pattern of the parameter object [x] matches the atoms of [em], whose
    canonical tuple is [t]. *)
Definition record_matches (x : instance) (t : list nat) (em : environment_match_t) : Prop :=
  ∃ smirks, get_smirks cls x = Ok smirks
    ∧ em ∈ chemical_environment_matches entity smirks
    ∧ __keytransform__ dc (topology_atom_indices em) = t.

Lemma matches_for_type_elem_of (i : nat) (smirks : value) (k : list nat) (m : Match) :
  (k, m) ∈ matches_for_type entity i smirks →
  parameter_type m = i
  ∧ environment_match m ∈ chemical_environment_matches entity smirks
  ∧ topology_atom_indices (environment_match m) = k.
Proof.
  intros Hin. unfold matches_for_type in Hin.
  eapply (Forall_forall (λ kv : list nat * Match,
    parameter_type kv.2 = i
    ∧ environment_match kv.2 ∈ chemical_environment_matches entity smirks
    ∧ topology_atom_indices (environment_match kv.2) = kv.1)) in Hin; [exact Hin|].
  apply (foldl_od_set_Forall topology_atom_indices (_Match i)); [done|].
  apply Forall_forall. intros em Hem. done.
Qed.

Lemma matches_for_type_key (i : nat) (smirks : value) (em : environment_match_t) :
  em ∈ chemical_environment_matches entity smirks →
  ∃ m, (topology_atom_indices em, m) ∈ matches_for_type entity i smirks.
Proof.
  intros Hem.
  assert (is_Some (od_get (topology_atom_indices em) (matches_for_type entity i smirks)))
    as [m Hm].
  { apply od_get_is_Some. unfold matches_for_type.
    apply (foldl_od_set_keys topology_atom_indices (_Match i)). right.
    by apply list_elem_of_fmap_2. }
  exists m. by apply od_get_Some_elem_of.
Qed.

(** What holds of the matches once the first [n] parameter objects are
    processed: every entry comes from one of them and is a match of its
    pattern for the key, and a tuple matched by one of them has an entry that
    is not older. *)
Definition matches_invariant (params : list instance) (n : nat) (matches : list (list nat * Match)) : Prop :=
  (∀ t m, od_get t matches = Some m →
     parameter_type m < n
     ∧ ∃ x, params !! parameter_type m = Some x ∧ record_matches x t (environment_match m))
  ∧ (∀ l x em t, l < n → params !! l = Some x → record_matches x t em →
       ∃ m, od_get t matches = Some m ∧ l ≤ parameter_type m).

Definition find_matches_step (matches : list (list nat * Match)) (ix : nat * instance) : outcome (list (list nat * Match)) :=
  smirks ← get_smirks cls ix.2;
  Ok (tdict_update dc (matches_for_type entity ix.1 smirks) matches).

Lemma find_matches_step_invariant (params : list instance) (n : nat) (x : instance) (smirks : value) (matches : list (list nat * Match)) :
  params !! n = Some x → get_smirks cls x = Ok smirks →
  matches_invariant params n matches →
  matches_invariant params (S n)
    (tdict_update dc (matches_for_type entity n smirks) matches).
Proof.
  intros Hx Hs [I1 I2]. unfold tdict_update, tdict_set. split.
  - intros t m [Hold|(k0 & Hin & Hk0)]%od_get_foldl_set_Some.
    + destruct (I1 _ _ Hold) as [? ?]. split; [lia|done].
    + apply matches_for_type_elem_of in Hin as (Hpt & Hem & Htai).
      rewrite Hpt. split; [lia|]. exists x. split; [done|].
      exists smirks. rewrite Htai. done.
  - intros l x' em t Hl Hx' Hm.
    destruct (decide (Exists (λ kv : list nat * Match, __keytransform__ dc kv.1 = t)
                        (matches_for_type entity n smirks))) as [Hhit|Hmiss].
    + apply Exists_exists in Hhit.
      destruct (od_get_foldl_set_hit (__keytransform__ dc) _ matches t Hhit)
        as (k0 & m & Hget & Hin & _).
      exists m. split; [done|].
      apply matches_for_type_elem_of in Hin as (-> & _ & _). lia.
    + rewrite od_get_foldl_set_None.
      * destruct (decide (l = n)) as [->|]; [|apply (I2 l x' em); [lia|done..]].
        exfalso. apply Hmiss, Exists_exists.
        rewrite Hx in Hx'. injection Hx' as <-.
        destruct Hm as (s' & Hs' & Hem & Hkt).
        rewrite Hs in Hs'. injection Hs' as <-.
        destruct (matches_for_type_key n smirks em Hem) as [m Hin]. eauto.
      * intros kv Hkv Hk. apply Hmiss, Exists_exists. eauto.
Qed.

Lemma find_matches_prefix (params : list instance) (n : nat) :
  Forall (λ x, is_ok (get_smirks cls x) = true) params →
  n ≤ length params →
  ∃ matches, foldM find_matches_step (imap pair (take n params)) [] = Ok matches
             ∧ matches_invariant params n matches.
Proof.
  intros Hall. induction n as [|n IH]; intros Hn.
  - exists []. rewrite take_0. split; [done|]. split; [done|]. intros; lia.
  - destruct IH as (matches & Hfold & Hinv); [lia|].
    destruct (lookup_lt_is_Some_2 params n) as [x Hx]; [lia|].
    rewrite (take_S_r _ _ _ Hx), imap_app, foldM_app, Hfold. simpl.
    rewrite length_take_le by lia. rewrite Nat.add_0_r.
    unfold find_matches_step at 1. simpl.
    assert (is_ok (get_smirks cls x) = true) as Hok.
    { rewrite Forall_forall in Hall. apply Hall. by eapply list_elem_of_lookup_2. }
    destruct (get_smirks cls x) as [smirks|] eqn:Hs; [|done]. simpl.
    eexists. split; [done|]. by apply (find_matches_step_invariant params n x).
Qed.

(** C1.  The parameter objects at positions [i < j] of the handler's
    [ParameterList] both have a match whose canonical atom-index tuple is
    [t], and no object declared after [j] has one.  Then [_find_matches]
    returns, under [t], a match of the object at [j], the later-declared of
    the two: entries are inserted in declaration order and a later object's
    entry overwrites the entry of an earlier one. *)
Theorem find_matches_later_record_wins (params : list instance) (i j : nat) (x_i x_j : instance) (em_i em_j : environment_match_t) (t : list nat) :
  Forall (λ x, is_ok (get_smirks cls x) = true) params →
  i < j →
  params !! i = Some x_i → params !! j = Some x_j →
  record_matches x_i t em_i → record_matches x_j t em_j →
  (∀ l x em, j < l → params !! l = Some x → ¬ record_matches x t em) →
  ∃ matches m,
    _find_matches cls params entity dc = Ok matches
    ∧ od_get t matches = Some m
    ∧ parameter_type m = j
    ∧ record_matches x_j t (environment_match m).
Proof.
  intros Hall Hij Hi Hj Hmi Hmj Hlast.
  destruct (find_matches_prefix params (length params) Hall) as (matches & Hfold & I1 & I2);
    [done|].
  rewrite firstn_all in Hfold.
  destruct (I2 j x_j em_j t) as (m & Hget & Hle); [by eapply lookup_lt_Some|done..|].
  destruct (I1 t m Hget) as (_ & x & Hx & Hmx).
  assert (parameter_type m = j) as Hpt.
  { destruct (decide (parameter_type m = j)); [done|].
    exfalso. apply (Hlast (parameter_type m) x (environment_match m)); [lia|done..]. }
  exists matches, m. split_and!; [exact Hfold|done..|].
  rewrite Hpt, Hj in Hx. by injection Hx as <-.
Qed.

End find_matches.

(** ** Concrete inputs *)
Module Examples.
Import ParameterAttribute _ParameterAttributeInitializer ParameterHandler Exact.

(** A parameter object holding the given attributes. *)
Definition object (attrs : list (string * value)) : instance :=
  Instance (list_to_map ((λ kv, (private kv.1, kv.2)) <$> attrs)) [].

(** A reference molecule in which all atoms are bonded, with the given
    fractional bond order on every bond. *)
Definition bonded (order : value) : molecule := Molecule (λ _ _, Ok (Bond order)).

(** Two bond types, the general [[*:1]~[*:2]] and the later, more specific
    [[#6:1]-[#6:2]]. *)
Definition generic_bond : instance :=
  object [("smirks", VStr "[*:1]~[*:2]"); ("length", num 1); ("k", num 10)].

Definition carbon_bond : instance :=
  object [("smirks", VStr "[#6:1]-[#6:2]"); ("length", num 2); ("k", num 20)].

(** A topology of two atoms joined by one bond; the generic pattern matches
    it in both directions, the specific one as [(1, 0)]. *)
Definition ethane_like (order : value) : topology :=
  Topology
    (λ smirks,
       if decide (smirks = VStr "[*:1]~[*:2]") then
         [EnvironmentMatch [0; 1] (bonded order) [0; 1];
          EnvironmentMatch [1; 0] (bonded order) [1; 0]]
       else if decide (smirks = VStr "[#6:1]-[#6:2]") then
         [EnvironmentMatch [1; 0] (bonded order) [1; 0]]
       else [])
    [[0; 1]] [] [] [].

End Examples.

Lemma find_matches_later_record_wins_witness :
  ∃ matches m,
    ParameterHandler._find_matches BondHandler.cls
      [Examples.generic_bond; Examples.carbon_bond] (Examples.ethane_like VNone)
      ParameterHandler.ValenceDict = Ok matches
    ∧ od_get [0; 1] matches = Some m
    ∧ ParameterHandler.parameter_type m = 1
    ∧ record_matches BondHandler.cls (Examples.ethane_like VNone) ParameterHandler.ValenceDict
        Examples.carbon_bond [0; 1] (ParameterHandler.environment_match m).
Proof.
  apply (find_matches_later_record_wins BondHandler.cls (Examples.ethane_like VNone)
           ParameterHandler.ValenceDict
           [Examples.generic_bond; Examples.carbon_bond] 0 1
           Examples.generic_bond Examples.carbon_bond
           (EnvironmentMatch [0; 1] (Examples.bonded VNone) [0; 1])
           (EnvironmentMatch [1; 0] (Examples.bonded VNone) [1; 0]) [0; 1]).
  - repeat constructor.
  - lia.
  - reflexivity.
  - reflexivity.
  - exists (VStr "[*:1]~[*:2]"). split_and!; [reflexivity|left|reflexivity].
  - exists (VStr "[#6:1]-[#6:2]"). split_and!; [reflexivity|left|reflexivity].
  - intros [|[|l]] x em Hl Hx; [lia|lia|]. simpl in Hx. discriminate.
Defined.

(** ** C2: the completeness audit *)
Section substrings.

(** [sub] occurs in [s]. *)
Definition contains (sub s : string) : Prop := ∃ pre post, s = pre +:+ sub +:+ post.

Lemma string_app_nil_r (s : string) : s +:+ "" = s.
Proof.
  induction s as [|c s IH]; [done|].
  change (String c (s +:+ "") = String c s). by rewrite IH.
Qed.

Lemma contains_refl (s : string) : contains s s.
Proof. exists "", "". by rewrite string_app_nil_r. Qed.

Lemma contains_app_l (sub a b : string) : contains sub a → contains sub (a +:+ b).
Proof.
  intros (pre & post & ->). exists pre, (post +:+ b).
  by rewrite !string_app_assoc.
Qed.

Lemma contains_app_r (sub a b : string) : contains sub b → contains sub (a +:+ b).
Proof.
  intros (pre & post & ->). exists (a +:+ pre), post.
  by rewrite !string_app_assoc.
Qed.

Lemma contains_foldl_join (sub sep acc : string) (ys : list string) :
  contains sub acc ∨ sub ∈ ys →
  contains sub (foldl (λ acc y, acc +:+ sep +:+ y) acc ys).
Proof.
  revert acc. induction ys as [|y ys IH]; intros acc; simpl.
  - intros [?|[]%elem_of_nil]. done.
  - intros [Hacc|[->|Hin]%elem_of_cons]; apply IH.
    + left. by apply contains_app_l.
    + left. apply contains_app_r, contains_app_r, contains_refl.
    + by right.
Qed.

Lemma contains_join (sub sep : string) (xs : list string) :
  sub ∈ xs → contains sub (_ParameterAttributeInitializer.join sep xs).
Proof.
  destruct xs as [|x xs]; simpl; [by intros []%elem_of_nil|].
  intros [->|Hin]%elem_of_cons; apply contains_foldl_join;
    [left; apply contains_refl | by right].
Qed.

Lemma string_app_ne_nil_r (a b : string) : b ≠ "" → a +:+ b ≠ "".
Proof.
  intros Hb Heq. apply (f_equal String.length) in Heq.
  rewrite string_length_app in Heq. destruct b; [done|]. simpl in Heq. lia.
Qed.

End substrings.

Section audit.
Import ParameterHandler.
Context `{External} {V : Type}.
Context (cls : hclass) (dc : dict_cls).
Context (assigned_terms : list (list nat * V)) (valence_terms : list (list nat)).

(** A valence term of the topology, in canonical form, that has no match. *)
Definition unassigned (t : list nat) : Prop :=
  (∃ atoms, atoms ∈ valence_terms ∧ __keytransform__ dc atoms = t)
  ∧ t ∉ od_keys assigned_terms.

(** A matched term that is no valence term of the topology. *)
Definition not_found (t : list nat) : Prop :=
  t ∈ od_keys assigned_terms
  ∧ ∀ atoms, atoms ∈ valence_terms → __keytransform__ dc atoms ≠ t.

Lemma foldl_od_set_keys_inv {A K W} `{EqDecision K} (key : A → K) (val : A → W) (xs : list A) (d : list (K * W)) (k : K) :
  k ∈ od_keys (foldl (λ acc x, od_set (key x) (val x) acc) d xs) →
  k ∈ od_keys d ∨ k ∈ key <$> xs.
Proof.
  revert d. induction xs as [|x xs IH]; intros d; simpl; [by left|].
  intros [Hk|Hk]%IH; [|right; by right].
  rewrite od_keys_od_set in Hk. case_decide; [by left|].
  apply elem_of_app in Hk as [?| ->%list_elem_of_singleton]; [by left|right; left].
Qed.

Lemma valence_terms_dict_keys (t : list nat) :
  t ∈ od_keys (foldl (λ d atoms, tdict_set dc atoms atoms d) [] valence_terms)
  ↔ ∃ atoms, atoms ∈ valence_terms ∧ __keytransform__ dc atoms = t.
Proof.
  unfold tdict_set. split.
  - intros [ []%elem_of_nil | Hk ]%(foldl_od_set_keys_inv (__keytransform__ dc) id).
    apply list_elem_of_fmap in Hk as (atoms & -> & ?). eauto.
  - intros (atoms & Hin & <-).
    apply (foldl_od_set_keys (__keytransform__ dc) id). right.
    by apply list_elem_of_fmap_2.
Qed.

Lemma unassigned_terms_spec (t : list nat) :
  t ∈ list_difference
        (remove_dups (od_keys (foldl (λ d atoms, tdict_set dc atoms atoms d) [] valence_terms)))
        (remove_dups (od_keys assigned_terms))
  ↔ unassigned t.
Proof.
  rewrite list_elem_of_difference, !elem_of_remove_dups, valence_terms_dict_keys. done.
Qed.

Lemma not_found_terms_spec (t : list nat) :
  t ∈ list_difference
        (remove_dups (od_keys assigned_terms))
        (remove_dups (od_keys (foldl (λ d atoms, tdict_set dc atoms atoms d) [] valence_terms)))
  ↔ not_found t.
Proof.
  rewrite list_elem_of_difference, !elem_of_remove_dups, valence_terms_dict_keys.
  unfold not_found. split; intros [? Hno]; (split; [done|]).
  - intros atoms ? ?. apply Hno. eauto.
  - intros (atoms & ? & ?). by eapply Hno.
Qed.

Lemma unassigned_msg_contains (name : string) (ts : list (list nat)) :
  contains name (unassigned_msg name ts)
  ∧ ∀ t, t ∈ ts → contains (str_tuple t) (unassigned_msg name ts).
Proof.
  split.
  - apply contains_app_l, contains_refl.
  - intros t Ht. apply contains_app_r, contains_app_r, contains_join.
    by apply list_elem_of_fmap_2.
Qed.

Lemma not_found_msg_contains (name : string) (ts : list (list nat)) :
  contains name (not_found_msg name ts)
  ∧ ∀ t, t ∈ ts → contains (str_tuple t) (not_found_msg name ts).
Proof.
  split.
  - apply contains_app_l, contains_refl.
  - intros t Ht. apply contains_app_r, contains_app_r, contains_join.
    by apply list_elem_of_fmap_2.
Qed.

Lemma unassigned_msg_ne_nil (name : string) (ts : list (list nat)) :
  unassigned_msg name ts ≠ "".
Proof.
  unfold unassigned_msg. apply string_app_ne_nil_r.
  intros Heq. apply (f_equal String.length) in Heq.
  rewrite string_length_app in Heq. simpl in Heq. lia.
Qed.

Lemma not_found_msg_ne_nil (name : string) (ts : list (list nat)) :
  not_found_msg name ts ≠ "".
Proof.
  unfold not_found_msg. apply string_app_ne_nil_r.
  intros Heq. apply (f_equal String.length) in Heq.
  rewrite string_length_app in Heq. simpl in Heq. lia.
Qed.

(** C2 (as the code has it).  When the number of assigned terms equals the
    number of valence terms of the topology the audit returns at once,
    whatever the terms are.  When the two numbers differ, the audit raises
    one exception of the class asked for as soon as a valence term of the
    topology has no match or a matched term is no valence term of the
    topology; its message names the handler class and lists every
    unassigned and every extraneous term.  When they differ and there is no
    such term, the audit returns. *)
Theorem check_all_valence_terms_assigned_aggregates (exception_cls : exn_class) :
  (length assigned_terms = length valence_terms →
     _check_all_valence_terms_assigned cls dc assigned_terms valence_terms exception_cls
       = Ok ())
  ∧ (length assigned_terms ≠ length valence_terms →
     ((∃ t, unassigned t) ∨ (∃ t, not_found t)) →
     ∃ msg,
       _check_all_valence_terms_assigned cls dc assigned_terms valence_terms exception_cls
         = Raise (Exn exception_cls msg)
       ∧ contains (handler_name cls) msg
       ∧ (∀ t, unassigned t → contains (str_tuple t) msg)
       ∧ (∀ t, not_found t → contains (str_tuple t) msg))
  ∧ (length assigned_terms ≠ length valence_terms →
     (∀ t, ¬ unassigned t) → (∀ t, ¬ not_found t) →
     _check_all_valence_terms_assigned cls dc assigned_terms valence_terms exception_cls
       = Ok ()).
Proof.
  unfold _check_all_valence_terms_assigned.
  split_and!; intros Hlen; [by rewrite decide_True| |].
  - intros Hsome. rewrite decide_False by done.
    set (U := list_difference (remove_dups (od_keys (foldl _ _ _))) _).
    set (N := list_difference _ _).
    assert (∀ t, unassigned t ↔ t ∈ U) as HU by (intros t; symmetry; apply unassigned_terms_spec).
    assert (∀ t, not_found t ↔ t ∈ N) as HN by (intros t; symmetry; apply not_found_terms_spec).
    destruct (unassigned_msg_contains (handler_name cls) U) as [Hun Hut].
    destruct (not_found_msg_contains (handler_name cls) N) as [Hnn Hnt].
    pose proof (unassigned_msg_ne_nil (handler_name cls) U) as HUne.
    pose proof (not_found_msg_ne_nil (handler_name cls) N) as HNne.
    change ("" +:+ unassigned_msg (handler_name cls) U)
      with (unassigned_msg (handler_name cls) U).
    destruct (decide (0 < length U)) as [HUlen|HUlen];
      destruct (decide (0 < length N)) as [HNlen|HNlen].
    + rewrite (decide_True (P := unassigned_msg _ _ ≠ "")) by done.
      rewrite decide_True by (apply string_app_ne_nil_r; done).
      eexists. split; [reflexivity|]. split_and!.
      * by do 3 apply contains_app_l.
      * intros t Ht%HU. do 3 apply contains_app_l. by apply Hut.
      * intros t Ht%HN. apply contains_app_l, contains_app_r. by apply Hnt.
    + rewrite decide_True by done.
      eexists. split; [reflexivity|]. split_and!.
      * by apply contains_app_l.
      * intros t Ht%HU. apply contains_app_l. by apply Hut.
      * intros t Ht%HN. destruct N; [by apply elem_of_nil in Ht|simpl in HNlen; lia].
    + rewrite (decide_False (P := "" ≠ "")) by (by intros ?).
      change ("" +:+ not_found_msg (handler_name cls) N)
        with (not_found_msg (handler_name cls) N).
      rewrite decide_True by done.
      eexists. split; [reflexivity|]. split_and!.
      * by apply contains_app_l.
      * intros t Ht%HU. destruct U; [by apply elem_of_nil in Ht|simpl in HUlen; lia].
      * intros t Ht%HN. apply contains_app_l. by apply Hnt.
    + exfalso. destruct Hsome as [[t Ht%HU]|[t Ht%HN]].
      * destruct U; [by apply elem_of_nil in Ht|simpl in HUlen; lia].
      * destruct N; [by apply elem_of_nil in Ht|simpl in HNlen; lia].
  - intros HnoU HnoN. rewrite decide_False by done.
    set (U := list_difference (remove_dups (od_keys (foldl _ _ _))) _).
    set (N := list_difference _ _).
    assert (U = []) as ->.
    { destruct U as [|t U'] eqn:HU; [done|]. exfalso. apply (HnoU t).
      apply unassigned_terms_spec. fold U. rewrite HU. left. }
    assert (N = []) as ->.
    { destruct N as [|t N'] eqn:HN; [done|]. exfalso. apply (HnoN t).
      apply not_found_terms_spec. fold N. rewrite HN. left. }
    done.
Qed.

End audit.

(** C2, as stated, fails: the topology has the bond [(1, 2)], the matches
    cover [(0, 1)]; one term is unassigned and one is extraneous, yet the
    audit returns, because the two counts are equal. *)
Lemma check_all_valence_terms_assigned_equal_counts :
  unassigned ParameterHandler.ValenceDict [([0; 1], ())] [[1; 2]] [1; 2]
  ∧ not_found ParameterHandler.ValenceDict [([0; 1], ())] [[1; 2]] [0; 1]
  ∧ ParameterHandler._check_all_valence_terms_assigned BondHandler.cls
      ParameterHandler.ValenceDict [([0; 1], ())] [[1; 2]]
      UnassignedBondParameterException = Ok ().
Proof.
  split_and!; [| |reflexivity].
  - split; [exists [1; 2]; split; [left|reflexivity]|].
    intros ?%list_elem_of_singleton. done.
  - split; [left|]. intros atoms ->%list_elem_of_singleton. done.
Qed.

Lemma check_all_valence_terms_assigned_aggregates_witness :
  ∃ msg,
    ParameterHandler._check_all_valence_terms_assigned BondHandler.cls
      ParameterHandler.ValenceDict [([0; 1], ())] [[1; 0]; [2; 1]]
      UnassignedBondParameterException
      = Raise (Exn UnassignedBondParameterException msg)
    ∧ contains "BondHandler" msg
    ∧ contains "(1, 2)" msg.
Proof.
  destruct (check_all_valence_terms_assigned_aggregates BondHandler.cls
              ParameterHandler.ValenceDict [([0; 1], ())] [[1; 0]; [2; 1]]
              UnassignedBondParameterException) as (_ & Hraise & _).
  destruct Hraise as (msg & Hmsg & Hname & Hun & _).
  - simpl. lia.
  - left. exists [1; 2]. split.
    + exists [2; 1]. split; [right; left|reflexivity].
    + intros Hin%list_elem_of_singleton. discriminate.
  - exists msg. split_and!; [exact Hmsg|exact Hname|].
    apply (Hun [1; 2]). split.
    + exists [2; 1]. split; [right; left|reflexivity].
    + intros Hin%list_elem_of_singleton. discriminate.
Defined.

(** ** C5: the terms of a proper torsion *)
Section proper_torsions.
Import ParameterHandler.
Context `{External}.

(** The world after [new] was added, term by term, to the force at position
    [f]. *)
Definition with_terms (f : nat) (new : list term) (w : world) : world :=
  World (parameters w)
        (alter (λ fc, Force (kind fc) (terms fc ++ new)) f (forces w))
        (system_constraints w) (constrained_atom_pairs w).

Lemma with_terms_nil (f : nat) (w : world) : with_terms f [] w = w.
Proof.
  destruct w as [ps fs cs cp]. unfold with_terms. simpl. f_equal.
  apply list_alter_id. intros [k ts]. simpl. by rewrite app_nil_r.
Qed.

Lemma with_terms_app (f : nat) (new new' : list term) (w : world) :
  with_terms f new' (with_terms f new w) = with_terms f (new ++ new') w.
Proof.
  unfold with_terms. simpl. f_equal.
  rewrite list_alter_alter_eq. apply list_alter_ext; [|done].
  intros [k ts] _. simpl. by rewrite app_assoc.
Qed.

Lemma bind_lift_Ok {A B} (o : outcome A) (a : A) (k : A → M B) (w : world) :
  o = Ok a → (lift o ≫= k) w = k a w.
Proof. by intros ->. Qed.

Lemma bind_lift_Raise {A B} (o : outcome A) (e : exn) (k : A → M B) (w : world) :
  o = Raise e → (lift o ≫= k) w = (w, Raise e).
Proof. by intros ->. Qed.

Lemma add_torsion_term_ok (f a0 a1 a2 a3 : nat) (t : value * value * value * value) (kd : value) (w : world) :
  t.2 ≠ VStr "auto" → py_truediv t.1.2 t.2 = Ok kd →
  ProperTorsionHandler.add_torsion_term f [a0; a1; a2; a3] t w
  = (with_terms f [TorsionTerm a0 a1 a2 a3 t.1.1.1 t.1.1.2 kd] w, Ok ()).
Proof.
  destruct t as [[[p ph] k] d]. simpl. intros Hd Hdiv.
  unfold ProperTorsionHandler.add_torsion_term. rewrite decide_False by done.
  unfold mbind, M_bind, lift, tuple_get. simpl. by rewrite Hdiv.
Qed.

Lemma add_torsion_terms_ok (f a0 a1 a2 a3 : nat) (ts : list (value * value * value * value)) (kds : list value) (w : world) :
  Forall2 (λ t kd, t.2 ≠ VStr "auto" ∧ py_truediv t.1.2 t.2 = Ok kd) ts kds →
  forM ts (ProperTorsionHandler.add_torsion_term f [a0; a1; a2; a3]) w
  = (with_terms f
       (zip_with (λ t kd, TorsionTerm a0 a1 a2 a3 t.1.1.1 t.1.1.2 kd) ts kds) w,
     Ok ()).
Proof.
  intros Hall. revert w. induction Hall as [|t kd ts kds [Hd Hdiv] _ IH]; intros w.
  - simpl. by rewrite with_terms_nil.
  - cbn [forM zip_with]. unfold mbind at 1, M_bind at 1.
    rewrite (add_torsion_term_ok f a0 a1 a2 a3 t kd w Hd Hdiv).
    rewrite IH, with_terms_app. done.
Qed.

Lemma add_torsion_terms_auto (f a0 a1 a2 a3 : nat) (ts : list (value * value * value * value)) (w : world) :
  Exists (λ t, t.2 = VStr "auto") ts →
  (∀ t, t ∈ ts → t.2 ≠ VStr "auto" → is_ok (py_truediv t.1.2 t.2) = true) →
  ∃ w' msg,
    forM ts (ProperTorsionHandler.add_torsion_term f [a0; a1; a2; a3]) w
    = (w', Raise (Exn NotImplementedError msg)).
Proof.
  intros Hex. revert w. induction Hex as [[[[p ph] k] d] ts Hauto|[[[p ph] k] d] ts _ IH];
    intros w Hok; cbn [forM]; unfold mbind at 1, M_bind at 1.
  - simpl in Hauto. subst d. unfold ProperTorsionHandler.add_torsion_term.
    rewrite decide_True by done. simpl. eauto.
  - destruct (decide (d = VStr "auto")) as [->|Hd].
    + unfold ProperTorsionHandler.add_torsion_term.
      rewrite decide_True by done. simpl. eauto.
    + pose proof (Hok (p, ph, k, d) ltac:(left) Hd) as Hdiv. simpl in Hdiv.
      destruct (py_truediv k d) as [kd|] eqn:Hkd; [|done].
      rewrite (add_torsion_term_ok f a0 a1 a2 a3 (p, ph, k, d) kd w Hd Hkd).
      apply IH. intros t Ht. apply Hok. by right.
Qed.

Lemma zip4_snd_elem_of {A} (ps phs ks ds : list A) (d : A) :
  length phs = length ps → length ks = length ps → length ds = length ps →
  d ∈ ds → Exists (λ t, t.2 = d) (zip4 ps phs ks ds).
Proof.
  revert phs ks ds. induction ps as [|p ps IH]; intros [|ph phs] [|k ks] [|d' ds];
    simpl; try done.
  - by intros _ _ _ ?%elem_of_nil.
  - intros [= Hphs] [= Hks] [= Hds] [->|Hin]%elem_of_cons.
    + by left.
    + right. by apply IH.
Qed.

Lemma zip4_elem_of {A} (ps phs ks ds : list A) (t : A * A * A * A) :
  t ∈ zip4 ps phs ks ds → t.1.2 ∈ ks ∧ t.2 ∈ ds.
Proof.
  revert phs ks ds. induction ps as [|p ps IH]; intros [|ph phs] [|k ks] [|d ds];
    simpl; try by intros ?%elem_of_nil.
  intros [->|Hin]%elem_of_cons.
  - split; left.
  - destruct (IH _ _ _ Hin). split; by right.
Qed.

(** The force constants of the terms: each [k] divided by its [idivf]. *)
Definition divided (ks ds kds : list value) : Prop :=
  Forall2 (λ kd kdv, py_truediv kdv.1 kdv.2 = Ok kd) kds (zip ks ds).

Definition emitted_terms (a0 a1 a2 a3 : nat) (ps phs kds : list value) : list term :=
  zip_with (λ pph kd, TorsionTerm a0 a1 a2 a3 pph.1 pph.2 kd) (zip ps phs) kds.

Lemma zip4_zip_with (a0 a1 a2 a3 : nat) (ps phs ks ds kds : list value) :
  length phs = length ps → length ks = length ps → length ds = length ps →
  length kds = length ps →
  zip_with (λ (t : value * value * value * value) kd,
              TorsionTerm a0 a1 a2 a3 t.1.1.1 t.1.1.2 kd) (zip4 ps phs ks ds) kds
  = emitted_terms a0 a1 a2 a3 ps phs kds.
Proof.
  unfold emitted_terms.
  revert phs ks ds kds. induction ps as [|p ps IH];
    intros [|ph phs] [|k ks] [|d ds] [|kd kds]; simpl; try done.
  intros [= ?] [= ?] [= ?] [= ?]. f_equal. by apply IH.
Qed.

Lemma divided_Forall2 (ps phs ks ds kds : list value) :
  length phs = length ps → length ks = length ps → length ds = length ps →
  VStr "auto" ∉ ds → divided ks ds kds →
  Forall2 (λ (t : value * value * value * value) kd,
             t.2 ≠ VStr "auto" ∧ py_truediv t.1.2 t.2 = Ok kd)
          (zip4 ps phs ks ds) kds
  ∧ length kds = length ps.
Proof.
  unfold divided.
  revert phs ks ds kds. induction ps as [|p ps IH];
    intros [|ph phs] [|k ks] [|d ds] kds; simpl; try done.
  - intros _ _ _ _ ->%Forall2_nil_inv_r. done.
  - intros [= Hphs] [= Hks] [= Hds] Hauto Hdiv.
    inversion Hdiv as [|kd ? kds' ? Hkd Hrest]; subst. simpl in Hkd.
    apply not_elem_of_cons in Hauto as [Hd Hauto].
    destruct (IH phs ks ds kds' Hphs Hks Hds Hauto Hrest) as [Hall Hlen].
    split; [|simpl; by rewrite Hlen]. constructor; [|done]. split; [simpl; congruence|done].
Qed.

(** One pass of the loop over the matches, for a matched proper torsion
    with atoms [(a0, a1, a2, a3)] whose parameter object holds the parallel
    sequences [periodicity], [phase], [k] and [idivf] of one length: when no
    divisor is ['auto'] and every quotient [k / idivf] is defined, it adds
    one torsion term per index; when some divisor is ['auto'], it raises
    [NotImplementedError] (given that the other quotients are defined). *)
Lemma create_torsion_one_term_per_index (force a0 a1 a2 a3 : nat) (m : Match) (x : instance) (ps phs ks ds : list value) (w : world) :
  _assert_correct_connectivity m None = Ok () →
  parameters w !! parameter_type m = Some x →
  record_getattr ParameterType.ProperTorsionType x "periodicity" = Ok (VList ps) →
  record_getattr ParameterType.ProperTorsionType x "phase" = Ok (VList phs) →
  record_getattr ParameterType.ProperTorsionType x "k" = Ok (VList ks) →
  record_getattr ParameterType.ProperTorsionType x "idivf" = Ok (VList ds) →
  length phs = length ps → length ks = length ps → length ds = length ps →
  (VStr "auto" ∉ ds →
   ∀ kds, divided ks ds kds →
     ProperTorsionHandler.create_torsion force ([a0; a1; a2; a3], m) w
       = (with_terms force (emitted_terms a0 a1 a2 a3 ps phs kds) w, Ok ())
     ∧ length (emitted_terms a0 a1 a2 a3 ps phs kds) = length ps)
  ∧ (VStr "auto" ∈ ds →
     (∀ k d, k ∈ ks → d ∈ ds → d ≠ VStr "auto" → is_ok (py_truediv k d) = true) →
     ∃ w' msg,
       ProperTorsionHandler.create_torsion force ([a0; a1; a2; a3], m) w
         = (w', Raise (Exn NotImplementedError msg))).
Proof.
  intros Hconn Hx Hps Hphs Hks Hds Lphs Lks Lds.
  assert (ProperTorsionHandler.create_torsion force ([a0; a1; a2; a3], m) w
    = forM (zip4 ps phs ks ds)
           (ProperTorsionHandler.add_torsion_term force [a0; a1; a2; a3]) w) as Hrun.
  { unfold ProperTorsionHandler.create_torsion.
    rewrite (bind_lift_Ok _ () _ _ Hconn).
    unfold mbind at 1, M_bind at 1, get_parameter. rewrite Hx.
    erewrite bind_lift_Ok; [done|].
    unfold ProperTorsionHandler.zipped_terms. rewrite Hps, Hphs, Hks, Hds. done. }
  split.
  - intros Hauto kds Hdiv.
    destruct (divided_Forall2 ps phs ks ds kds Lphs Lks Lds Hauto Hdiv) as [Hall Hlen].
    rewrite Hrun, (add_torsion_terms_ok _ _ _ _ _ _ kds w Hall).
    rewrite zip4_zip_with by done. split; [done|].
    unfold emitted_terms. rewrite length_zip_with, length_zip. lia.
  - intros Hauto Hdiv. rewrite Hrun. apply add_torsion_terms_auto.
    + by apply zip4_snd_elem_of.
    + intros t [Hk Hd]%zip4_elem_of Hne. by apply Hdiv.
Qed.

End proper_torsions.

Module TorsionExamples.
Import ParameterHandler Exact.

(** The torsion of the specification's example: [periodicity1=2, phase1=0,
    k1=1, idivf1=1] and [periodicity2=3, phase2=180, k2=2, idivf2=2]. *)
Definition two_term_kwargs : list (string * value) :=
  [("periodicity1", num 2); ("phase1", num 0); ("k1", num 1); ("idivf1", num 1);
   ("periodicity2", num 3); ("phase2", num 180); ("k2", num 2); ("idivf2", num 2)].

Definition two_term_torsion : instance :=
  Examples.object
    [("smirks", VStr "[*:1]-[*:2]-[*:3]-[*:4]");
     ("periodicity", VList [num 2; num 3]);
     ("phase", VList [num 0; num 180]);
     ("k", VList [num 1; num 2]);
     ("idivf", VList [num 1; num 2])].

(** A torsion without [idivf]. *)
Definition improper_kwargs : list (string * value) :=
  [("periodicity1", num 2); ("phase1", num 180); ("k1", num 3)].

Definition one_term_improper : instance :=
  Examples.object
    [("smirks", VStr "[*:1]~[#6:2](~[*:3])~[*:4]");
     ("periodicity", VList [num 2]);
     ("phase", VList [num 180]);
     ("k", VList [num 3])].

Definition quartet : environment_match_t :=
  EnvironmentMatch [0; 1; 2; 3] (Examples.bonded VNone) [0; 1; 2; 3].

(** A topology with one proper torsion and two impropers, in which every
    pattern matches the atoms [(0, 1, 2, 3)] only. *)
Definition butane_like : topology :=
  Topology (λ _, [quartet]) [] [] [[0; 1; 2; 3]] [[0; 1; 2; 3]; [4; 5; 6; 7]].

Definition handler_of (cls : hclass) : handler :=
  Handler (list_to_map
             ((λ kv, (private kv.1, kv.2)) <$>
                (("version", num (3 # 10)) :: _DEFAULT_SPEC_ATTRIBS cls))) [].

End TorsionExamples.

Example two_term_torsion_init :
  ParameterType.__init__ ParameterType.ProperTorsionType
    (VStr "[*:1]-[*:2]-[*:3]-[*:4]") false TorsionExamples.two_term_kwargs
  = Ok TorsionExamples.two_term_torsion.
Proof. vm_compute. reflexivity. Qed.

Example proper_handler_init :
  ParameterHandler.__init__ 0 ProperTorsionHandler.cls false false
    [("version", num (3 # 10))]
  = Some (Ok (TorsionExamples.handler_of ProperTorsionHandler.cls)).
Proof. vm_compute. reflexivity. Qed.

(** The example of the specification, run through [create_force]: two terms,
    with force constants [1 = 1/1] and [1 = 2/2]. *)
Example proper_create_force_two_terms :
  ProperTorsionHandler.create_force
    (TorsionExamples.handler_of ProperTorsionHandler.cls) TorsionExamples.butane_like
    (World [TorsionExamples.two_term_torsion] [] [] [])
  = (World [TorsionExamples.two_term_torsion]
       [Force PeriodicTorsionForce
          [TorsionTerm 0 1 2 3 (num 2) (num 0) (num 1);
           TorsionTerm 0 1 2 3 (num 3) (num 180) (num 1)]] [] [],
     Ok ()).
Proof. vm_compute. reflexivity. Qed.

(** ** C9 and C10: the improper torsions *)
Section impropers.
Import ParameterHandler.
Context `{External}.

(** A computation that leaves the parameter objects as they are. *)
Definition keeps_parameters {A} (m : M A) : Prop :=
  ∀ w, parameters (m w).1 = parameters w.

Lemma keeps_parameters_ret {A} (a : A) : keeps_parameters (mret a).
Proof. done. Qed.

Lemma keeps_parameters_lift {A} (o : outcome A) : keeps_parameters (lift o).
Proof. done. Qed.

Lemma keeps_parameters_bind {A B} (m : M A) (k : A → M B) :
  keeps_parameters m → (∀ a, keeps_parameters (k a)) → keeps_parameters (m ≫= k).
Proof.
  intros Hm Hk w. unfold mbind, M_bind. specialize (Hm w).
  destruct (m w) as [w' [a|e]]; simpl in *; [|done]. by rewrite Hk.
Qed.

Lemma keeps_parameters_add_term (f : nat) (t : term) : keeps_parameters (add_term f t).
Proof. done. Qed.

Lemma keeps_parameters_forM {A} (xs : list A) (body : A → M unit) :
  (∀ x, keeps_parameters (body x)) → keeps_parameters (forM xs body).
Proof.
  intros Hbody. induction xs as [|x xs IH]; simpl; [done|].
  apply keeps_parameters_bind; [done|]. by intros _.
Qed.

Lemma keeps_parameters_add_trefoil (f : nat) (atom_indices : list nat) (t : value * value * value * value) :
  keeps_parameters (ImproperTorsionHandler.add_trefoil f atom_indices t).
Proof.
  destruct t as [[[p ph] k] d]. unfold ImproperTorsionHandler.add_trefoil.
  repeat (apply keeps_parameters_bind; [apply keeps_parameters_lift|intros ?]).
  apply keeps_parameters_forM. intros [[? ?] ?].
  repeat (apply keeps_parameters_bind; [apply keeps_parameters_lift|intros ?]).
  apply keeps_parameters_add_term.
Qed.

(** C9.  [ImproperTorsionHandler.create_force] does not look at the improper
    torsions of the topology (nor at any other of its valence terms): its
    result and the state it leaves are the same whatever they are.  In
    particular, when no parameter object matches, it adds no term and returns
    without an error, however many impropers the topology has. *)
Theorem improper_create_force_no_audit (self : handler) (cem : value → list environment_match_t) (bs bs' ans ans' prs prs' ims ims' : list (list nat)) (w : world) :
  ImproperTorsionHandler.create_force self (Topology cem bs ans prs ims) w
  = ImproperTorsionHandler.create_force self (Topology cem bs' ans' prs' ims') w
  ∧ (ImproperTorsionHandler.validate_parameters self = Ok () →
     ImproperTorsionHandler.find_matches (parameters w) (Topology cem bs ans prs ims) = Ok [] →
     ∃ w', ImproperTorsionHandler.create_force self (Topology cem bs ans prs ims) w = (w', Ok ())
           ∧ parameters w' = parameters w
           ∧ concat (terms <$> forces w') = concat (terms <$> forces w)).
Proof.
  split; [done|]. intros Hvalid Hfind.
  unfold ImproperTorsionHandler.create_force.
  rewrite (bind_lift_Ok _ () _ _ Hvalid).
  unfold mbind at 1, M_bind at 1, get_or_create_force.
  destruct (list_find _ (forces w)) as [[i fc]|] eqn:Hforce.
  - unfold mbind at 1, M_bind at 1, get_world.
    rewrite (bind_lift_Ok _ [] _ _ Hfind). simpl. eauto.
  - unfold mbind at 1, M_bind at 1, get_world.
    cbn [parameters]. rewrite (bind_lift_Ok _ [] _ _ Hfind).
    eexists. split_and!; [reflexivity|reflexivity|].
    cbn [forces]. rewrite fmap_app, concat_app. simpl. by rewrite app_nil_r.
Qed.

(** The parameter object [x] after [x.idivf = [v3, ...]], one entry per
    force constant. *)
Definition with_idivf (x : instance) (n : nat) (v3 : value) : instance :=
  Instance (<["_idivf" := VList (replicate n v3)]> (inst_dict x)) (_cosmetic_attribs x).

Lemma mapM_outcome_const {A B} (f : A → outcome B) (b : B) (xs : list A) :
  (∀ x, x ∈ xs → f x = Ok b) → mapM_outcome f xs = Ok (replicate (length xs) b).
Proof.
  induction xs as [|x xs IH]; intros Hf; simpl; [done|].
  rewrite Hf by left. simpl. rewrite IH by (intros; apply Hf; by right). done.
Qed.

Lemma improper_set_idivf (x : instance) (ks : list value) (v3 : value) :
  py_float (num 3) = Ok v3 →
  record_setattr ParameterType.ImproperTorsionType x "idivf"
    (VList ((λ _, num 3) <$> ks))
  = Ok (with_idivf x (length ks) v3).
Proof.
  intros Hfloat. unfold record_setattr. simpl.
  unfold ParameterAttribute.__set__, ParameterAttribute._convert_and_validate. simpl.
  unfold ParameterAttribute.indexed_convert_and_validate.
  unfold ParameterAttribute._is_valid_default. simpl.
  unfold ParameterAttribute.ValidatedList. simpl.
  rewrite (mapM_outcome_const _ v3).
  - simpl. by rewrite length_fmap.
  - intros v [_ [-> _]]%list_elem_of_fmap. simpl.
    unfold ParameterAttribute._call_converter. simpl. by rewrite Hfloat.
Qed.

Lemma default_idivf_mutates (i : nat) (x : instance) (ks : list value) (v3 : value) (w : world) :
  parameters w !! i = Some x →
  record_getattr ParameterType.ImproperTorsionType x "idivf" = Ok VNone →
  record_getattr ParameterType.ImproperTorsionType x "k" = Ok (VList ks) →
  py_float (num 3) = Ok v3 →
  ImproperTorsionHandler.default_idivf i w
  = (World (<[i := with_idivf x (length ks) v3]> (parameters w)) (forces w)
           (system_constraints w) (constrained_atom_pairs w), Ok ()).
Proof.
  intros Hx Hidivf Hk Hfloat. unfold ImproperTorsionHandler.default_idivf.
  unfold mbind at 1, M_bind at 1, get_parameter. rewrite Hx.
  rewrite (bind_lift_Ok _ VNone _ _ Hidivf). rewrite decide_True by done.
  rewrite (bind_lift_Ok _ (VList ks) _ _ Hk).
  rewrite (bind_lift_Ok _ ks) by done.
  rewrite (bind_lift_Ok _ _ _ _ (improper_set_idivf x ks v3 Hfloat)). done.
Qed.

(** One pass of the loop over the matches, for a matched improper
    parameter object without [idivf]: the list [[3, 3, ...]], one entry per
    force constant and each converted by [float], is assigned to the [idivf]
    of that very object of the handler's [ParameterList]. *)
Lemma create_improper_sets_idivf (force : nat) (atom_indices : list nat) (m : Match) (x : instance) (ks : list value) (v3 : value) (w : world) :
  _assert_correct_connectivity m (Some [(0, 1); (1, 2); (1, 3)]) = Ok () →
  parameters w !! parameter_type m = Some x →
  record_getattr ParameterType.ImproperTorsionType x "idivf" = Ok VNone →
  record_getattr ParameterType.ImproperTorsionType x "k" = Ok (VList ks) →
  py_float (num 3) = Ok v3 →
  parameters (ImproperTorsionHandler.create_improper force (atom_indices, m) w).1
    = <[parameter_type m := with_idivf x (length ks) v3]> (parameters w)
  ∧ record_getattr ParameterType.ImproperTorsionType (with_idivf x (length ks) v3) "idivf"
    = Ok (VList (replicate (length ks) v3)).
Proof.
  intros Hconn Hx Hidivf Hk Hfloat. split.
  - unfold ImproperTorsionHandler.create_improper.
    rewrite (bind_lift_Ok _ () _ _ Hconn).
    unfold mbind at 1, M_bind at 1.
    rewrite (default_idivf_mutates _ x ks v3 w Hx Hidivf Hk Hfloat).
    set (w1 := World _ _ _ _).
    change (<[parameter_type m:=with_idivf x (length ks) v3]> (parameters w))
      with (parameters w1).
    generalize w1. apply keeps_parameters_bind.
    { intros w0. unfold get_parameter. by destruct (parameters w0 !! _). }
    intros x'. apply keeps_parameters_bind; [apply keeps_parameters_lift|].
    intros zipped. apply keeps_parameters_forM. intros t.
    apply keeps_parameters_add_trefoil.
  - unfold record_getattr, with_idivf, ParameterAttribute.__get__. simpl.
    by rewrite lookup_insert_eq.
Qed.

End impropers.

(** The improper [(4, 5, 6, 7)] of the topology is matched by no parameter
    object: [create_force] adds the three terms of the matched improper and
    returns. *)
Example improper_create_force_unmatched :
  ImproperTorsionHandler.create_force
    (TorsionExamples.handler_of ImproperTorsionHandler.cls) TorsionExamples.butane_like
    (World [TorsionExamples.one_term_improper] [] [] [])
  = (World [with_idivf TorsionExamples.one_term_improper 1 (num 3)]
       [Force PeriodicTorsionForce
          [TorsionTerm 1 0 2 3 (num 2) (num 180) (num 1);
           TorsionTerm 1 2 3 0 (num 2) (num 180) (num 1);
           TorsionTerm 1 3 0 2 (num 2) (num 180) (num 1)]] [] [],
     Ok ()).
Proof. vm_compute. reflexivity. Qed.

(** The proper-torsion handler, on a topology with a proper torsion that no
    parameter object matches, raises the error of the audit. *)
Example proper_create_force_unmatched :
  ∃ w msg,
    ProperTorsionHandler.create_force
      (TorsionExamples.handler_of ProperTorsionHandler.cls)
      (Topology (λ _, []) [] [] [[0; 1; 2; 3]] [])
      (World [TorsionExamples.two_term_torsion] [] [] [])
    = (w, Raise (Exn UnassignedProperTorsionParameterException msg)).
Proof. do 2 eexists. vm_compute. reflexivity. Qed.

Lemma improper_create_force_no_audit_witness :
  ∃ w',
    ImproperTorsionHandler.create_force
      (TorsionExamples.handler_of ImproperTorsionHandler.cls)
      (Topology (λ _, []) [] [] [] [[0; 1; 2; 3]; [4; 5; 6; 7]])
      (World [TorsionExamples.one_term_improper] [] [] [])
    = (w', Ok ())
    ∧ parameters w' = [TorsionExamples.one_term_improper]
    ∧ concat (terms <$> forces w') = [].
Proof.
  apply (improper_create_force_no_audit
           (TorsionExamples.handler_of ImproperTorsionHandler.cls)
           (λ _, []) [] [] [] [] [] []
           [[0; 1; 2; 3]; [4; 5; 6; 7]] []
           (World [TorsionExamples.one_term_improper] [] [] [])).
  - reflexivity.
  - reflexivity.
Defined.

(** ** C4: fractional bond orders *)
Section bonds.
Import ParameterHandler.
Context `{External}.

(** [v0 + (v1 - v0) * (order - 1.)], with the operations of the external
    interface, in the order Python evaluates them. *)
Definition interpolate (v0 v1 order : value) : outcome value :=
  d ← py_sub v1 v0;
  o ← py_sub order (num 1);
  p ← py_mul d o;
  py_add v0 p.

(** What [BondHandler.create_force] computes for a bond with a fractional
    bond order, by the attribute [fractional_bondorder_interpolation] of the
    handler object: without such an attribute the read fails; for the value
    ['interpolate-linear'] both [k] and [length] are interpolated between
    their two tabulated values; for any other value, ['linear'] included,
    nothing is interpolated and an exception is raised. *)
Lemma bond_k_length_fractional (self : handler) (bond_params : instance) (b : bond) :
  fractional_bond_order b ≠ VNone →
  (handler_dict self !! "fractional_bondorder_interpolation" = None →
   ∃ msg, BondHandler.bond_k_length self bond_params b = Raise (Exn AttributeError msg))
  ∧ (∀ mode, handler_dict self !! "fractional_bondorder_interpolation" = Some mode →
     mode ≠ VStr "interpolate-linear" →
     ∃ e, BondHandler.bond_k_length self bond_params b = Raise e)
  ∧ (∀ k0 k1 l0 l1,
     handler_dict self !! "fractional_bondorder_interpolation"
       = Some (VStr "interpolate-linear") →
     record_getattr ParameterType.BondType bond_params "k" = Ok (VList [k0; k1]) →
     record_getattr ParameterType.BondType bond_params "length" = Ok (VList [l0; l1]) →
     BondHandler.bond_k_length self bond_params b
     = (k ← interpolate k0 k1 (fractional_bond_order b);
        length ← interpolate l0 l1 (fractional_bond_order b);
        Ok (k, length))).
Proof.
  intros Horder. unfold BondHandler.bond_k_length.
  rewrite decide_False by done. unfold handler_getattr. split_and!.
  - intros ->. simpl. eauto.
  - intros mode -> Hmode. simpl. rewrite decide_False by done.
    destruct (handler_dict self !! "fractional_bondorder_method"); simpl; eauto.
  - intros k0 k1 l0 l1 -> Hk Hl. simpl. rewrite Hk, Hl. simpl.
    unfold interpolate.
    destruct (py_sub k1 k0) as [dk|]; simpl; [|done].
    destruct (py_sub (fractional_bond_order b) (num 1)) as [o|]; simpl; [|done].
    destruct (py_mul dk o) as [p|]; simpl; [|done].
    destruct (py_add k0 p) as [k|]; simpl; [|done].
    destruct (py_sub l1 l0) as [dl|]; simpl; [|done].
    destruct (py_mul dl o) as [q|]; simpl; [|done].
    done.
Qed.

End bonds.

Module BondExamples.
Import ParameterHandler.

(** A bond type with two tabulated values of [k] and of [length], for the
    bond orders 1 and 2. *)
Definition tabulated_bond : instance :=
  Examples.object
    [("smirks", VStr "[*:1]~[*:2]");
     ("length", VList [num 2; num 1]);
     ("k", VList [num 10; num 20])].

(** The handler [BondHandler(version=0.3)]: the interpolation mode is the
    default, ['linear']. *)
Definition default_handler : handler :=
  Handler (list_to_map
             [("_version", num (3 # 10));
              ("_potential", VStr "harmonic");
              ("_fractional_bondorder_method", VNone);
              ("_fractional_bondorder_interpolation", VStr "linear")]) [].

(** One bond [(0, 1)] whose reference bond has the fractional order 3/2. *)
Definition fractional_topology : topology :=
  Topology
    (λ _, [EnvironmentMatch [0; 1] (Examples.bonded (num (3 # 2))) [0; 1]])
    [[0; 1]] [] [] [].

End BondExamples.

(** C4, on a concrete input.  The handler is built with the default mode
    ['linear']; the one bond of the topology has the fractional order 3/2
    and its bond type tabulates [k = (10, 20)] and [length = (2, 1)].  The
    claim asks for the term [k = 15], [length = 3/2].  The code reads the
    attribute [fractional_bondorder_interpolation], which no handler object
    has (the constructor stores the mode as
    [_fractional_bondorder_interpolation]), so [create_force] raises an
    [AttributeError] and adds no bond; and the mode it compares with is
    ['interpolate-linear'], not the ['linear'] of the defaults. *)
Theorem bond_create_force_linear_mode_fails :
  ParameterHandler.__init__ 0 BondHandler.cls false false [("version", num (3 # 10))]
    = Some (Ok BondExamples.default_handler)
  ∧ ParameterHandler.handler_dict BondExamples.default_handler
      !! "_fractional_bondorder_interpolation"
    = Some (VStr "linear")
  ∧ interpolate (num 10) (num 20) (num (3 # 2)) = Ok (num 15)
  ∧ interpolate (num 2) (num 1) (num (3 # 2)) = Ok (num (3 # 2))
  ∧ BondHandler.create_force BondExamples.default_handler BondExamples.fractional_topology
      (World [BondExamples.tabulated_bond] [] [] [])
    = (World [BondExamples.tabulated_bond] [Force HarmonicBondForce []] [] [],
       Raise (Exn AttributeError
                "'BondHandler' object has no attribute 'fractional_bondorder_interpolation'")).
Proof. split_and!; vm_compute; reflexivity. Qed.

(** ** C7: what [to_dict] emits *)
Section more_odict_facts.
Context {K V : Type} `{EqDecision K}.
Implicit Types (k : K) (v : V) (d e : list (K * V)).

Lemma od_set_app_new k v d : k ∉ od_keys d → od_set k v d = d ++ [(k, v)].
Proof.
  unfold od_keys. induction d as [|[k0 v0] d IH]; simpl; [done|].
  intros [Hne Hd]%not_elem_of_cons. rewrite decide_False by done. by rewrite IH.
Qed.

Lemma od_set_app_last k v v0 d :
  k ∉ od_keys d → od_set k v (d ++ [(k, v0)]) = d ++ [(k, v)].
Proof.
  unfold od_keys. induction d as [|[k1 v1] d IH]; simpl.
  - intros _. by rewrite decide_True.
  - intros [Hne Hd]%not_elem_of_cons. rewrite decide_False by done. by rewrite IH.
Qed.

Lemma od_get_app k d e :
  od_get k (d ++ e) = match od_get k d with Some v => Some v | None => od_get k e end.
Proof.
  induction d as [|[k0 v0] d IH]; simpl; [done|]. by case_decide.
Qed.

Lemma od_del_filter k d : od_del k d = filter (λ kv, kv.1 ≠ k) d.
Proof.
  induction d as [|[k0 v0] d IH]; simpl; [done|].
  rewrite filter_cons. simpl. destruct (decide (k = k0)) as [->|Hne].
  - by rewrite decide_False by (by intros ?).
  - rewrite decide_True by done. by rewrite IH.
Qed.

Lemma od_keys_filter (P : K → Prop) `{∀ k, Decision (P k)} d :
  od_keys (filter (λ kv, P kv.1) d) = filter P (od_keys d).
Proof.
  unfold od_keys. induction d as [|[k0 v0] d IH]; [done|].
  rewrite filter_cons, fmap_cons, filter_cons. simpl.
  destruct (decide (P k0)); [rewrite fmap_cons; f_equal|]; exact IH.
Qed.

Lemma od_get_filter (P : K → Prop) `{∀ k, Decision (P k)} k d :
  od_get k (filter (λ kv, P kv.1) d) = if decide (P k) then od_get k d else None.
Proof.
  induction d as [|[k0 v0] d IH]; simpl; [by case_decide|].
  rewrite filter_cons. simpl. destruct (decide (P k0)) as [HP0|HP0]; simpl.
  - rewrite IH. destruct (decide (k = k0)) as [->|]; [by rewrite decide_True by done|done].
  - rewrite IH. destruct (decide (k = k0)) as [->|]; [by rewrite !decide_False by done|done].
Qed.

Lemma od_get_elem_of_NoDup k v d : NoDup (od_keys d) → (k, v) ∈ d → od_get k d = Some v.
Proof.
  unfold od_keys. induction d as [|[k0 v0] d IH]; simpl.
  - by intros _ ?%elem_of_nil.
  - intros [Hk0 Hnd]%NoDup_cons [[= -> ->]|Hin]%elem_of_cons.
    + by rewrite decide_True.
    + rewrite decide_False; [by apply IH|].
      intros ->. apply Hk0. by apply (list_elem_of_fmap_2 fst) in Hin.
Qed.

(** Assignments of pairwise distinct keys, none of them present, append to
    the dictionary. *)
Lemma foldl_od_set_fresh d e :
  NoDup (od_keys (d ++ e)) →
  foldl (λ acc kv, od_set kv.1 kv.2 acc) d e = d ++ e.
Proof.
  revert d. induction e as [|[k v] e IH]; intros d Hnd; simpl.
  - by rewrite app_nil_r.
  - assert (k ∉ od_keys d) as Hk.
    { unfold od_keys in *. rewrite fmap_app, fmap_cons in Hnd. simpl in Hnd.
      apply NoDup_app in Hnd as (_ & Hdisj & _). intros Hin.
      apply (Hdisj _ Hin). left. }
    rewrite (od_set_app_new _ _ _ Hk), IH; rewrite <-app_assoc; done.
Qed.

End more_odict_facts.

Section serialization.
Import ParameterAttribute _ParameterAttributeInitializer.
Context `{External}.

(** The entries of one attribute: the attribute itself, or one key
    [name1], [name2], ... per element of an indexed attribute. *)
Definition indexed_items (attrib_name : string) (values : list value) : list (string * value) :=
  imap (λ i v, (attrib_name +:+ pretty (S i), v)) values.

Definition attribute_items (self : instance) (d : descriptor) : outcome (list (string * value)) :=
  attrib_value ← __get__ d self;
  if indexed d then
    values ← py_iter attrib_value;
    Ok (indexed_items (name (info d)) values)
  else Ok [(name (info d), attrib_value)].

Definition cosmetic_item (self : instance) (cosmetic_attrib : string) : outcome (string * value) :=
  match inst_dict self !! private cosmetic_attrib with
  | Some v => Ok (cosmetic_attrib, v)
  | None => raise AttributeError (private cosmetic_attrib)
  end.

(** An optional attribute is left out when its default is [None] and its
    value is [None]; every other attribute is emitted. *)
Definition emitted (self : instance) (d : descriptor) : Prop :=
  ¬ (default_value (info d) = Some VNone ∧ __get__ d self = Ok VNone).

(** The serialization as a list of entries: the required attributes, then
    the emitted optional ones, then the cosmetic attributes unless they are
    discarded. *)
Definition serialized_items (cls : pclass) (discard_cosmetic_attributes : bool) (self : instance) : outcome (list (string * value)) :=
  required ← mapM_outcome (attribute_items self) (_get_required_parameter_attributes cls);
  optional ← mapM_outcome (attribute_items self)
               (filter (emitted self) (_get_optional_parameter_attributes cls));
  cosmetic ← (if discard_cosmetic_attributes then Ok []
              else mapM_outcome (cosmetic_item self) (_cosmetic_attribs self));
  Ok (concat required ++ concat optional ++ cosmetic).

Lemma expand_indexed_items (attrib_name : string) (values : list value) (d : list (string * value)) :
  expand_indexed attrib_name values d
  = foldl (λ acc kv, od_set kv.1 kv.2 acc) d (indexed_items attrib_name values).
Proof.
  unfold expand_indexed, indexed_items.
  replace (imap (λ i v, (attrib_name +:+ pretty (S i), v)) values)
    with ((λ iv : nat * value, (attrib_name +:+ pretty (S iv.1), iv.2)) <$> imap pair values)
    by (by rewrite fmap_imap).
  by rewrite foldl_fmap.
Qed.

Lemma to_dict_attribute_items (cls : pclass) (self : instance) (acc : list (string * value)) (d : descriptor) (items : list (string * value)) :
  attribute_items self d = Ok items →
  NoDup (od_keys (acc ++ items)) →
  to_dict_attribute cls self acc d = Ok (acc ++ items).
Proof.
  unfold attribute_items, to_dict_attribute.
  destruct (__get__ d self) as [v|]; simpl; [|done].
  destruct (indexed d).
  - destruct (py_iter v) as [vs|]; simpl; [|done]. intros [= <-] Hnd.
    by rewrite expand_indexed_items, foldl_od_set_fresh.
  - intros [= <-] Hnd. rewrite od_set_app_new; [done|].
    unfold od_keys in *. rewrite fmap_app in Hnd.
    apply NoDup_app in Hnd as (_ & Hdisj & _). intros Hin.
    apply (Hdisj _ Hin). left.
Qed.

Lemma NoDup_od_keys_app_l {V} (a b : list (string * V)) :
  NoDup (od_keys (a ++ b)) → NoDup (od_keys a).
Proof. unfold od_keys. rewrite fmap_app. by intros (? & _)%NoDup_app. Qed.

Lemma to_dict_attributes_items (cls : pclass) (self : instance) (ds : list descriptor) (acc : list (string * value)) (items : list (list (string * value))) :
  mapM_outcome (attribute_items self) ds = Ok items →
  NoDup (od_keys (acc ++ concat items)) →
  foldM (to_dict_attribute cls self) ds acc = Ok (acc ++ concat items).
Proof.
  revert acc items. induction ds as [|d ds IH]; intros acc items; simpl.
  - intros [= <-] _. simpl. by rewrite app_nil_r.
  - destruct (attribute_items self d) as [it|] eqn:Hit; simpl; [|done].
    destruct (mapM_outcome (attribute_items self) ds) as [its|] eqn:Hits; simpl; [|done].
    intros [= <-] Hnd. simpl in Hnd. rewrite app_assoc in Hnd.
    rewrite (to_dict_attribute_items cls self acc d it Hit)
      by (by apply NoDup_od_keys_app_l in Hnd).
    simpl. rewrite (IH (acc ++ it) its eq_refl Hnd). by rewrite <-app_assoc.
Qed.

Lemma to_dict_cosmetics_items (self : instance) (cs : list string) (acc items : list (string * value)) :
  mapM_outcome (cosmetic_item self) cs = Ok items →
  NoDup (od_keys (acc ++ items)) →
  foldM (to_dict_cosmetic self) cs acc = Ok (acc ++ items).
Proof.
  unfold cosmetic_item, to_dict_cosmetic.
  revert acc items. induction cs as [|c cs IH]; intros acc items; simpl.
  - intros [= <-] _. by rewrite app_nil_r.
  - destruct (inst_dict self !! private c) as [v|]; simpl; [|by unfold raise].
    destruct (mapM_outcome _ cs) as [its|] eqn:Hits; simpl; [|done].
    intros [= <-] Hnd.
    assert (c ∉ od_keys acc) as Hc.
    { unfold od_keys in *. rewrite fmap_app, fmap_cons in Hnd.
      apply NoDup_app in Hnd as (_ & Hdisj & _). intros Hin.
      apply (Hdisj _ Hin). left. }
    rewrite (od_set_app_new _ _ _ Hc).
    rewrite (IH (acc ++ [(c, v)]) its eq_refl); rewrite <-app_assoc; done.
Qed.

Lemma mapM_outcome_app {A B} (f : A → outcome B) (xs ys : list A) :
  mapM_outcome f (xs ++ ys)
  = (a ← mapM_outcome f xs; b ← mapM_outcome f ys; Ok (a ++ b)).
Proof.
  induction xs as [|x xs IH]; simpl.
  - by destruct (mapM_outcome f ys).
  - destruct (f x); simpl; [|done]. rewrite IH.
    destruct (mapM_outcome f xs); simpl; [|done].
    by destruct (mapM_outcome f ys).
Qed.

Lemma defined_parameter_attributes_emitted (cls : pclass) (self : instance) :
  _get_defined_parameter_attributes cls self
  = _get_required_parameter_attributes cls
    ++ filter (emitted self) (_get_optional_parameter_attributes cls).
Proof. done. Qed.

(** When the keys to be written are pairwise distinct, [to_dict] returns
    the entries of [serialized_items], in their order. *)
Lemma to_dict_distinct_keys (cls : pclass) (discard_cosmetic_attributes : bool) (self : instance) (items : list (string * value)) :
  serialized_items cls discard_cosmetic_attributes self = Ok items →
  NoDup (od_keys items) →
  to_dict cls discard_cosmetic_attributes self = Ok items.
Proof.
  unfold serialized_items, to_dict.
  rewrite defined_parameter_attributes_emitted.
  destruct (mapM_outcome _ (_get_required_parameter_attributes cls)) as [req|] eqn:Hreq;
    simpl; [|done].
  destruct (mapM_outcome _ (filter _ _)) as [opt|] eqn:Hopt; simpl; [|done].
  assert (mapM_outcome (attribute_items self)
            (_get_required_parameter_attributes cls
             ++ filter (emitted self) (_get_optional_parameter_attributes cls))
          = Ok (req ++ opt)) as Hall.
  { by rewrite mapM_outcome_app, Hreq, Hopt. }
  destruct discard_cosmetic_attributes; simpl.
  - intros [= <-] Hnd. rewrite app_nil_r in *. rewrite <-concat_app in *.
    by rewrite (to_dict_attributes_items cls self _ [] _ Hall).
  - destruct (mapM_outcome (cosmetic_item self) _) as [cos|] eqn:Hcos; simpl; [|done].
    intros [= <-] Hnd. rewrite app_assoc, <-concat_app in *.
    rewrite (to_dict_attributes_items cls self _ [] _ Hall)
      by (by apply NoDup_od_keys_app_l in Hnd).
    simpl. by apply to_dict_cosmetics_items.
Qed.

End serialization.

Module AttributeExamples.
Import ParameterAttribute _ParameterAttributeInitializer ParameterType Exact.

(** The converter of [attr_int_to_float] in the docstring of
    [ParameterType]: numbers pass, anything else is refused. *)
Definition int_to_float (self : instance) (attr : attr_info) (v : value) : outcome value :=
  match v with
  | VNum q => Ok (VNum q)
  | _ => raise TypeError ("Cannot convert '" +:+ py_str v +:+ "' to float")
  end.

(** The class [MyParameterType] of that docstring. *)
Definition MyParameterType : pclass :=
  PClass "MyParameterType"
    (base_attributes "Atom" ++
     [ attribute "attr_optional" (Some (num 2)) None None;
       attribute "attr_all_to_float" None None (Some (free_function py_float));
       attribute "attr_int_to_float" None None (Some (bound_function int_to_float)) ]).

(** [MyParameterType(smirks='[*:1]', attr_all_to_float=3.0, attr_int_to_float=1)] *)
Definition my_par : instance :=
  Examples.object
    [("smirks", VStr "[*:1]"); ("attr_all_to_float", num 3); ("attr_int_to_float", num 1)].

End AttributeExamples.

Example my_par_init :
  ParameterType.__init__ AttributeExamples.MyParameterType (VStr "[*:1]") false
    [("attr_all_to_float", num 3); ("attr_int_to_float", num 1)]
  = Ok AttributeExamples.my_par.
Proof. vm_compute. reflexivity. Qed.

(** C7, as stated, fails: [attr_optional] is declared with the default [2]
    and was never set, so its value is the default; [to_dict] emits it all
    the same, since only defaults that are [None] are left out. *)
Lemma to_dict_emits_non_None_default :
  ParameterAttribute.__get__
    (ParameterType.attribute "attr_optional" (Some (num 2)) None None)
    AttributeExamples.my_par = Ok (num 2)
  ∧ _ParameterAttributeInitializer.to_dict AttributeExamples.MyParameterType false
      AttributeExamples.my_par
    = Ok [("smirks", VStr "[*:1]"); ("attr_all_to_float", num 3);
          ("attr_int_to_float", num 1); ("attr_optional", num 2)].
Proof. split; vm_compute; reflexivity. Qed.

(** ** C10: the parameter object after [create_force] *)
Section improper_serialization.
Import ParameterAttribute _ParameterAttributeInitializer ParameterHandler.
Context `{External}.


End improper_serialization.

(** The matched improper of the example serializes without [idivf] before
    [create_force] and with [idivf1 = 3] after it. *)
Example improper_to_dict_before_after :
  _ParameterAttributeInitializer.to_dict ParameterType.ImproperTorsionType false
    TorsionExamples.one_term_improper
  = Ok [("smirks", VStr "[*:1]~[#6:2](~[*:3])~[*:4]");
        ("periodicity1", num 2); ("phase1", num 180); ("k1", num 3)]
  ∧ ∃ x,
      parameters
        (ImproperTorsionHandler.create_force
           (TorsionExamples.handler_of ImproperTorsionHandler.cls)
           TorsionExamples.butane_like
           (World [TorsionExamples.one_term_improper] [] [] [])).1 = [x]
      ∧ _ParameterAttributeInitializer.to_dict ParameterType.ImproperTorsionType false x
        = Ok [("smirks", VStr "[*:1]~[#6:2](~[*:3])~[*:4]");
              ("periodicity1", num 2); ("phase1", num 180); ("k1", num 3);
              ("idivf1", num 3)].
Proof.
  split; [vm_compute; reflexivity|].
  eexists. split; vm_compute; reflexivity.
Qed.

(** ** The stacking of indexed keys in [__init__] *)
Section stacking.
Import ParameterAttribute _ParameterAttributeInitializer.

(** The key [base{i}], the keys [base1 .. base{n}], and a dictionary
    without them. *)
Definition indexed_key (base : string) (i : nat) : string := base +:+ pretty i.

Definition indexed_keys (base : string) (n : nat) : list string :=
  indexed_key base <$> seq 1 n.

Definition strip (base : string) (n : nat) (d : list (string * value)) : list (string * value) :=
  filter (λ kv, kv.1 ∉ indexed_keys base n) d.

Lemma indexed_key_inj (base : string) (i j : nat) :
  indexed_key base i = indexed_key base j → i = j.
Proof.
  unfold indexed_key. intros Heq%(inj (String.append base)). by apply (inj pretty).
Qed.

Lemma elem_of_indexed_keys (base : string) (n : nat) (k : string) :
  k ∈ indexed_keys base n ↔ ∃ i, 1 ≤ i ≤ n ∧ k = indexed_key base i.
Proof.
  unfold indexed_keys. rewrite list_elem_of_fmap. split.
  - intros (i & -> & Hi%elem_of_seq). exists i. split; [lia|done].
  - intros (i & Hi & ->). exists i. split; [done|]. apply elem_of_seq. lia.
Qed.

Lemma indexed_key_not_elem_of (base : string) (n i : nat) :
  n < i → indexed_key base i ∉ indexed_keys base n.
Proof.
  intros Hlt (j & Hj & Heq%indexed_key_inj)%elem_of_indexed_keys. lia.
Qed.

Lemma base_not_elem_of_indexed_keys (base : string) (n : nat) :
  base ∉ indexed_keys base n.
Proof.
  intros (j & _ & Heq)%elem_of_indexed_keys. symmetry in Heq.
  by apply indexed_key_ne_base in Heq.
Qed.

Lemma indexed_keys_S (base : string) (n : nat) :
  indexed_keys base (S n) = indexed_keys base n ++ [indexed_key base (S n)].
Proof. unfold indexed_keys. by rewrite seq_S, fmap_app. Qed.

Lemma strip_0 (base : string) (d : list (string * value)) : strip base 0 d = d.
Proof.
  unfold strip, indexed_keys. simpl. induction d as [|kv d IH]; [done|].
  rewrite filter_cons, decide_True by apply not_elem_of_nil. by rewrite IH.
Qed.

Lemma strip_S (base : string) (n : nat) (d : list (string * value)) :
  od_del (indexed_key base (S n)) (strip base n d) = strip base (S n) d.
Proof.
  unfold strip. rewrite od_del_filter, list_filter_filter.
  apply list_filter_iff. intros kv. rewrite indexed_keys_S, not_elem_of_app.
  rewrite list_elem_of_singleton. tauto.
Qed.

Lemma od_del_app {V} (k : string) (a b : list (string * V)) :
  od_del k (a ++ b) = od_del k a ++ od_del k b.
Proof. by rewrite !od_del_filter, filter_app. Qed.

Lemma od_keys_strip (base : string) (n : nat) (d : list (string * value)) :
  od_keys (strip base n d) = filter (λ k, k ∉ indexed_keys base n) (od_keys d).
Proof. unfold strip. exact (od_keys_filter (λ k, k ∉ indexed_keys base n) d). Qed.

Lemma od_get_strip (base : string) (n : nat) (k : string) (d : list (string * value)) :
  od_get k (strip base n d)
  = if decide (k ∉ indexed_keys base n) then od_get k d else None.
Proof. unfold strip. exact (od_get_filter (λ k, k ∉ indexed_keys base n) k d). Qed.

Lemma base_not_in_strip (base : string) (n : nat) (d : list (string * value)) :
  base ∉ od_keys d → base ∉ od_keys (strip base n d).
Proof. rewrite od_keys_strip, list_elem_of_filter. tauto. Qed.

(** One iteration of the loop, on the data the earlier iterations left. *)
Lemma stack_step_first (base : string) (v : value) (d : list (string * value)) :
  base ∉ od_keys d →
  stack_step base 1 v d = Ok (strip base 1 d ++ [(base, VList [v])]).
Proof.
  intros Hb. unfold stack_step. rewrite decide_True by done.
  rewrite decide_False by done. simpl.
  rewrite (od_set_app_new _ _ _ Hb). unfold data_append.
  rewrite od_get_app. apply od_get_None in Hb. rewrite Hb. simpl.
  rewrite decide_True by done. simpl. apply od_get_None in Hb.
  rewrite (od_set_app_last _ _ _ _ Hb). simpl.
  rewrite od_del_app. f_equal. f_equal.
  - change (base +:+ pretty 1) with (indexed_key base 1).
    by rewrite <-(strip_S base 0), strip_0.
  - simpl. rewrite decide_False; [done|]. apply indexed_key_ne_base.
Qed.

Lemma stack_step_next (base : string) (j : nat) (v : value) (l : list value) (d : list (string * value)) :
  base ∉ od_keys d → 1 ≤ j →
  stack_step base (S j) v (strip base j d ++ [(base, VList l)])
  = Ok (strip base (S j) d ++ [(base, VList (l ++ [v]))]).
Proof.
  intros Hb Hj. unfold stack_step. rewrite decide_False by lia. simpl.
  pose proof (base_not_in_strip base j d Hb) as Hb'.
  unfold data_append. rewrite od_get_app.
  pose proof Hb' as Hnone. apply od_get_None in Hnone. rewrite Hnone. simpl.
  rewrite decide_True by done. simpl.
  rewrite (od_set_app_last _ _ _ _ Hb'). simpl.
  rewrite od_del_app. f_equal. f_equal.
  - apply strip_S.
  - simpl. rewrite decide_False; [done|]. apply indexed_key_ne_base.
Qed.

(** The values under the keys [base1], [base2], ... of a dictionary. *)
Definition holds_indexed (base : string) (vs : list value) (d : list (string * value)) : Prop :=
  (∀ i, i < length vs → od_get (indexed_key base (S i)) d = vs !! i)
  ∧ od_get (indexed_key base (S (length vs))) d = None.

Lemma od_get_stripped_next (base : string) (j i : nat) (l : list value) (d : list (string * value)) :
  j < i →
  od_get (indexed_key base i) (strip base j d ++ [(base, VList l)])
  = od_get (indexed_key base i) d.
Proof.
  intros Hlt. rewrite od_get_app, od_get_strip.
  rewrite decide_True by (by apply indexed_key_not_elem_of).
  destruct (od_get (indexed_key base i) d); [done|]. simpl.
  rewrite decide_False; [done|]. apply indexed_key_ne_base.
Qed.

Lemma stack_loop_rest (base : string) (vs : list value) (d : list (string * value)) (m j : nat) :
  base ∉ od_keys d → holds_indexed base vs d →
  1 ≤ j → j + m = length vs →
  stack_loop m base (S j) (strip base j d ++ [(base, VList (take j vs))])
  = Some (Ok (strip base (length vs) d ++ [(base, VList vs)], S (length vs))).
Proof.
  intros Hb [Hvs Hend]. revert j. induction m as [|m IH]; intros j Hj Hlen.
  - assert (j = length vs) as -> by lia. simpl.
    change (base +:+ pretty (S (length vs))) with (indexed_key base (S (length vs))).
    rewrite od_get_stripped_next by lia. rewrite Hend. by rewrite firstn_all.
  - simpl. change (base +:+ pretty (S j)) with (indexed_key base (S j)).
    rewrite od_get_stripped_next by lia. rewrite Hvs by lia.
    destruct (vs !! j) as [v|] eqn:Hv; [|apply lookup_ge_None in Hv; lia].
    rewrite (stack_step_next base j v _ d Hb Hj).
    rewrite <-(take_S_r _ _ _ Hv). apply IH; lia.
Qed.

Lemma stack_loop_fuel_irrelevant (f1 f2 : nat) (base : string) (i : nat) (d : list (string * value)) (r1 r2 : outcome (list (string * value) * nat)) :
  stack_loop f1 base i d = Some r1 → stack_loop f2 base i d = Some r2 → r1 = r2.
Proof.
  revert f2 i d. induction f1 as [|f1 IH]; intros f2 i d; destruct f2 as [|f2]; simpl;
    destruct (od_get (base +:+ pretty i) d) as [v|]; try congruence.
  destruct (stack_step base i v d) as [d'|e]; [apply IH|congruence].
Qed.

Lemma stack_indexed_eq (fuel : nat) (base : string) (d : list (string * value)) (r : outcome (list (string * value) * nat)) :
  stack_loop fuel base 1 d = Some r → stack_indexed base d = r.
Proof.
  intros Hr. unfold stack_indexed.
  generalize (stack_loop_terminates base d). intros Hsome.
  destruct (stack_loop (length d) base 1 d) as [r'|] eqn:Hr'.
  - simpl. symmetry. eapply stack_loop_fuel_irrelevant; eauto.
  - by destruct Hsome.
Qed.

(** The three cases of the loop for one indexed attribute. *)
Lemma stack_indexed_absent (base : string) (d : list (string * value)) :
  od_get (indexed_key base 1) d = None → stack_indexed base d = Ok (d, 1).
Proof.
  intros Hnone. apply (stack_indexed_eq 0). simpl.
  change (base +:+ pretty 1) with (indexed_key base 1). by rewrite Hnone.
Qed.

Lemma stack_indexed_both (base : string) (d : list (string * value)) :
  is_Some (od_get (indexed_key base 1) d) → base ∈ od_keys d →
  ∃ msg, stack_indexed base d = Raise (Exn TypeError msg).
Proof.
  intros [v Hv] Hb. eexists. apply (stack_indexed_eq 1). simpl.
  change (base +:+ pretty 1) with (indexed_key base 1). rewrite Hv.
  unfold stack_step. rewrite decide_True by done. rewrite decide_True by done.
  reflexivity.
Qed.

Lemma stack_indexed_folds (base : string) (vs : list value) (d : list (string * value)) :
  base ∉ od_keys d → vs ≠ [] → holds_indexed base vs d →
  stack_indexed base d
  = Ok (strip base (length vs) d ++ [(base, VList vs)], S (length vs)).
Proof.
  intros Hb Hne Hholds. destruct vs as [|v0 vs'] eqn:Hvs; [done|]. rewrite <-Hvs in *.
  assert (0 < length vs) as Hlen by (rewrite Hvs; simpl; lia).
  apply (stack_indexed_eq (S (length vs - 1))). simpl.
  change (base +:+ pretty 1) with (indexed_key base 1).
  destruct Hholds as [Hget Hend]. rewrite (Hget 0 Hlen).
  assert (vs !! 0 = Some v0) as -> by (by rewrite Hvs).
  rewrite (stack_step_first base v0 d Hb).
  change [v0] with (take 1 (v0 :: vs')). rewrite <-Hvs.
  apply stack_loop_rest; [done|by split|lia|lia].
Qed.

End stacking.

(** ** The constructor [__init__] of the attribute-initialising base class *)
Section initializer.
Import ParameterAttribute _ParameterAttributeInitializer.
Context `{External}.

(** [s.startswith(p)] *)
Fixpoint starts_with (p s : string) : bool :=
  match p, s with
  | EmptyString, _ => true
  | String a p, String b s => bool_decide (a = b) && starts_with p s
  | String _ _, EmptyString => false
  end.

Lemma starts_with_app (p s : string) : starts_with p (p +:+ s) = true.
Proof.
  induction p as [|a p IH]; [done|].
  change (starts_with (String a p) (String a (p +:+ s)) = true). simpl.
  by rewrite bool_decide_eq_true_2.
Qed.

Lemma app_eq_starts_with (a b x y : string) :
  a +:+ x = b +:+ y → starts_with a b = true ∨ starts_with b a = true.
Proof.
  revert b. induction a as [|c a IH]; intros b; [by left|].
  destruct b as [|c' b]; [by right|].
  intros Heq. change (String c (a +:+ x) = String c' (b +:+ y)) in Heq.
  injection Heq as -> Heq.
  destruct (IH b Heq) as [Hs|Hs]; simpl; rewrite bool_decide_eq_true_2 by done; auto.
Qed.

(** A key that the loop for the indexed attribute [base] neither reads nor
    writes. *)
Definition untouched (base k : string) : Prop :=
  k ≠ base ∧ ∀ i, k ≠ indexed_key base i.

(** Neither of two attribute names starts with the other. *)
Definition prefix_free (b b' : string) : Prop :=
  starts_with b b' = false ∧ starts_with b' b = false.

Lemma prefix_free_base (b b' : string) : prefix_free b b' → untouched b' b.
Proof.
  intros [Hbb' Hb'b]. split.
  - intros ->. pose proof (starts_with_app b' "") as Hs.
    rewrite string_app_nil_r in Hs. congruence.
  - intros i Heq. unfold indexed_key in Heq. rewrite Heq, starts_with_app in Hb'b. done.
Qed.

Lemma prefix_free_indexed (b b' : string) (j : nat) :
  prefix_free b b' → untouched b' (indexed_key b j).
Proof.
  intros [Hbb' Hb'b]. split.
  - intros Heq. unfold indexed_key in Heq. rewrite <-Heq, starts_with_app in Hbb'. done.
  - intros i Heq. unfold indexed_key in Heq.
    apply app_eq_starts_with in Heq as [Hs|Hs]; congruence.
Qed.

(** What one iteration of the loop does to the data. *)
Lemma stack_step_get (base : string) (i : nat) (v : value) (d d' : list (string * value)) (k : string) :
  stack_step base i v d = Ok d' → untouched base k → od_get k d' = od_get k d.
Proof.
  unfold stack_step, data_append. intros Hstep [Hk Hki].
  assert (∀ d0 : list (string * value),
    (match od_get base d0 with
     | None => raise KeyError base
     | Some (VList l) => Ok (od_set base (VList (l ++ [v])) d0)
     | Some _ => raise AttributeError "append"
     end ≫= λ d1, Ok (od_del (base +:+ pretty i) d1)) = Ok d' →
    od_get k d' = od_get k d0) as Haux.
  { intros d0 Hd0. destruct (od_get base d0) as [[| | |l]|]; try done.
    simpl in Hd0. injection Hd0 as <-.
    rewrite od_get_od_del_ne by apply Hki. by rewrite od_get_od_set, decide_False. }
  destruct (decide (i = 1)) as [->|].
  - destruct (decide (base ∈ od_keys d)); [done|].
    simpl in Hstep. apply Haux in Hstep. by rewrite Hstep, od_get_od_set, decide_False.
  - simpl in Hstep. by apply Haux.
Qed.

Lemma od_keys_od_del {V} (k k' : string) (d : list (string * V)) :
  k ∈ od_keys (od_del k' d) → k ∈ od_keys d.
Proof.
  unfold od_keys. induction d as [|[k0 v0] d IH]; simpl; [done|].
  case_decide; simpl; rewrite ?elem_of_cons; tauto.
Qed.

Lemma od_keys_od_set_elem_of {V} (k k' : string) (v : V) (d : list (string * V)) :
  k ∈ od_keys (od_set k' v d) → k = k' ∨ k ∈ od_keys d.
Proof.
  rewrite od_keys_od_set. case_decide; [by right|].
  rewrite elem_of_app, list_elem_of_singleton. tauto.
Qed.

Lemma stack_step_keys (base : string) (i : nat) (v : value) (d d' : list (string * value)) (k : string) :
  stack_step base i v d = Ok d' → k ∈ od_keys d' → k = base ∨ k ∈ od_keys d.
Proof.
  unfold stack_step, data_append. intros Hstep Hk.
  assert (∀ d0 : list (string * value),
    (match od_get base d0 with
     | None => raise KeyError base
     | Some (VList l) => Ok (od_set base (VList (l ++ [v])) d0)
     | Some _ => raise AttributeError "append"
     end ≫= λ d1, Ok (od_del (base +:+ pretty i) d1)) = Ok d' →
    k = base ∨ k ∈ od_keys d0) as Haux.
  { intros d0 Hd0. destruct (od_get base d0) as [[| | |l]|]; try done.
    simpl in Hd0. injection Hd0 as <-.
    by apply od_keys_od_del, od_keys_od_set_elem_of in Hk. }
  destruct (decide (i = 1)) as [->|].
  - destruct (decide (base ∈ od_keys d)); [done|].
    simpl in Hstep. apply Haux in Hstep as [?|Hin]; [by left|].
    by apply od_keys_od_set_elem_of in Hin.
  - simpl in Hstep. by apply Haux.
Qed.

Lemma stack_step_base (base : string) (i : nat) (v : value) (d d' : list (string * value)) :
  stack_step base i v d = Ok d' → ∃ l, od_get base d' = Some (VList l).
Proof.
  unfold stack_step, data_append. intros Hstep.
  assert (∀ d0 : list (string * value),
    (match od_get base d0 with
     | None => raise KeyError base
     | Some (VList l) => Ok (od_set base (VList (l ++ [v])) d0)
     | Some _ => raise AttributeError "append"
     end ≫= λ d1, Ok (od_del (base +:+ pretty i) d1)) = Ok d' →
    ∃ l, od_get base d' = Some (VList l)) as Haux.
  { intros d0 Hd0. destruct (od_get base d0) as [[| | |l]|]; try done.
    simpl in Hd0. injection Hd0 as <-. exists (l ++ [v]).
    rewrite od_get_od_del_ne by (intros Heq; symmetry in Heq; by apply indexed_key_ne_base in Heq).
    by rewrite od_get_od_set, decide_True. }
  destruct (decide (i = 1)) as [->|].
  - destruct (decide (base ∈ od_keys d)); [done|]. simpl in Hstep. by eapply Haux.
  - simpl in Hstep. by eapply Haux.
Qed.

(** The loop raises nothing but the [TypeError] of its first iteration. *)
Lemma stack_step_raises (base : string) (i : nat) (v : value) (d : list (string * value)) (e : exn) :
  stack_step base i v d = Raise e →
  i = 1 ∨ (∃ l, od_get base d = Some (VList l)) →
  exn_cls e = TypeError.
Proof.
  unfold stack_step, data_append. intros Hstep Hi.
  destruct (decide (i = 1)) as [->|Hne].
  - destruct (decide (base ∈ od_keys d)); simpl in Hstep.
    + by injection Hstep as <-.
    + rewrite od_get_od_set, decide_True in Hstep by done. done.
  - destruct Hi as [?|[l Hl]]; [done|]. simpl in Hstep. rewrite Hl in Hstep. done.
Qed.

Lemma stack_loop_cases (fuel : nat) (base : string) (i : nat) (d : list (string * value)) (r : outcome (list (string * value) * nat)) :
  stack_loop fuel base i d = Some r →
  i = 1 ∨ (∃ l, od_get base d = Some (VList l)) →
  match r with
  | Raise e => exn_cls e = TypeError
  | Ok (d', i') =>
      i ≤ i'
      ∧ (i' = i → d' = d)
      ∧ (i < i' → ∃ l, od_get base d' = Some (VList l))
      ∧ (∀ k, untouched base k → od_get k d' = od_get k d)
      ∧ (∀ k, k ∈ od_keys d' → k = base ∨ k ∈ od_keys d)
  end.
Proof.
  revert i d. induction fuel as [|fuel IH]; intros i d; simpl.
  - destruct (od_get (base +:+ pretty i) d); [done|]. intros [= <-] _.
    split_and!; [lia|done|lia|done|auto].
  - destruct (od_get (base +:+ pretty i) d) as [v|].
    + destruct (stack_step base i v d) as [d1|e] eqn:Hstep.
      * intros Hloop _. apply IH in Hloop; [|right; by eapply stack_step_base].
        destruct r as [[d' i']|e]; [|done].
        destruct Hloop as (Hle & Hsame & Hbase & Hget & Hkeys).
        split_and!; [lia|intros ?; lia| | |].
        -- intros _. destruct (decide (i' = S i)) as [Hi'|Hi'].
           ++ rewrite (Hsame Hi'). by eapply stack_step_base.
           ++ apply Hbase. lia.
        -- intros k Hk. rewrite Hget by done. by eapply stack_step_get.
        -- intros k [->|Hk]%Hkeys; [by left|]. by eapply stack_step_keys.
      * intros [= <-] Hi. by eapply stack_step_raises.
    + intros [= <-] _. split_and!; [lia|done|lia|done|auto].
Qed.

Lemma stack_indexed_cases (base : string) (d : list (string * value)) :
  match stack_indexed base d with
  | Raise e => exn_cls e = TypeError
  | Ok (d', i') =>
      (i' = 1 → d' = d)
      ∧ (1 < i' → ∃ l, od_get base d' = Some (VList l))
      ∧ (∀ k, untouched base k → od_get k d' = od_get k d)
      ∧ (∀ k, k ∈ od_keys d' → k = base ∨ k ∈ od_keys d)
  end.
Proof.
  destruct (stack_loop_terminates base d) as [r Hr].
  rewrite (stack_indexed_eq _ _ _ _ Hr).
  apply stack_loop_cases in Hr; [|by left].
  destruct r as [[d' i']|e]; [|done]. tauto.
Qed.

(** The body of the loop over the indexed attributes. *)
Lemma stack_indexed_attribute_cases (st : list (string * value) * list (string * nat)) (base : string) :
  match stack_indexed_attribute st base with
  | Raise e => exn_cls e = TypeError
  | Ok st' =>
      (∀ k, untouched base k → od_get k st'.1 = od_get k st.1)
      ∧ (∀ k, k ∈ od_keys st'.1 → k = base ∨ k ∈ od_keys st.1)
      ∧ (∀ k, k ≠ base → od_get k st'.2 = od_get k st.2)
      ∧ (od_get (indexed_key base 1) st.1 = None → st' = st)
  end.
Proof.
  unfold stack_indexed_attribute. pose proof (stack_indexed_cases base st.1) as Hc.
  destruct (stack_indexed base st.1) as [[d' i']|e] eqn:Hs; simpl; [|done].
  destruct Hc as (Hsame & Hbase & Hget & Hkeys).
  destruct (decide (1 < i')) as [Hi|Hi].
  - destruct (Hbase Hi) as [l ->]. simpl. split_and!; [done..| |].
    + intros k Hk. by rewrite od_get_od_set, decide_False.
    + intros Hnone. rewrite (stack_indexed_absent _ _ Hnone) in Hs.
      injection Hs as <- <-. lia.
  - split_and!; [done..|]. intros Hnone.
    rewrite (stack_indexed_absent _ _ Hnone) in Hs. injection Hs as <- <-.
    by destruct st.
Qed.

(** A loop whose body keeps an invariant or raises an exception of a given
    sort. *)
Lemma foldM_cases {A B} (C : exn → Prop) (P : B → Prop) (f : B → A → outcome B) (xs : list A) (b : B) :
  P b →
  (∀ b x, x ∈ xs → P b → match f b x with Raise e => C e | Ok b' => P b' end) →
  match foldM f xs b with Raise e => C e | Ok b' => P b' end.
Proof.
  revert b. induction xs as [|x xs IH]; intros b Hb Hstep; simpl; [done|].
  pose proof (Hstep b x (list_elem_of_here _ _) Hb) as Hx.
  destruct (f b x) as [b'|e]; simpl; [|done].
  apply IH; [done|]. intros b0 x0 Hx0. apply Hstep. by right.
Qed.

Lemma foldM_stack_absent (names : list string) (st : list (string * value) * list (string * nat)) :
  (∀ b, b ∈ names → indexed_key b 1 ∉ od_keys st.1) →
  foldM stack_indexed_attribute names st = Ok st.
Proof.
  induction names as [|b names IH]; intros Habs; simpl; [done|].
  pose proof (stack_indexed_attribute_cases st b) as Hc.
  destruct (stack_indexed_attribute st b) as [st'|e] eqn:Hs.
  - destruct Hc as (_ & _ & _ & Hsame). rewrite Hsame.
    + simpl. apply IH. intros b' Hb'. apply Habs. by right.
    + apply od_get_None, Habs. left.
  - unfold stack_indexed_attribute in Hs.
    rewrite stack_indexed_absent in Hs by (apply od_get_None, Habs; left).
    simpl in Hs. done.
Qed.


#[global] Instance prefix_free_dec (b b' : string) : Decision (prefix_free b b').
Proof. unfold prefix_free. apply _. Defined.

(** No other name of the list starts with [base] or is the start of
    [base]. *)
Definition prefix_free_among (base : string) (names : list string) : Prop :=
  Forall (λ b, b = base ∨ prefix_free base b) names.

#[global] Instance prefix_free_among_dec (base : string) (names : list string) : Decision (prefix_free_among base names).
Proof. unfold prefix_free_among. apply _. Defined.

(** The keys [base], [base1], [base2], ... *)
Definition key_of (base k : string) : Prop :=
  k = base ∨ ∃ j, k = indexed_key base j.

Lemma key_of_untouched (base b k : string) :
  prefix_free base b → key_of base k → untouched b k.
Proof.
  intros Hpf [->|[j ->]]; [by apply prefix_free_base|by apply prefix_free_indexed].
Qed.

Lemma foldM_stack_raises (names : list string) (st : list (string * value) * list (string * nat)) (e : exn) :
  foldM stack_indexed_attribute names st = Raise e → exn_cls e = TypeError.
Proof.
  intros Hfold.
  pose proof (foldM_cases (λ e, exn_cls e = TypeError) (λ _, True)
                stack_indexed_attribute names st I) as Hc.
  rewrite Hfold in Hc. apply Hc. intros st0 b _ _.
  pose proof (stack_indexed_attribute_cases st0 b) as Hb.
  by destruct (stack_indexed_attribute st0 b).
Qed.

(** The loops for the other attributes leave the keys of [base] alone. *)
Lemma foldM_stack_others (base : string) (names : list string) (st0 : list (string * value) * list (string * nat)) :
  (∀ b, b ∈ names → prefix_free base b) →
  match foldM stack_indexed_attribute names st0 with
  | Raise e => exn_cls e = TypeError
  | Ok st =>
      (∀ k, key_of base k → od_get k st.1 = od_get k st0.1)
      ∧ od_get base st.2 = od_get base st0.2
  end.
Proof.
  intros Hpf.
  apply (foldM_cases (λ e, exn_cls e = TypeError)
           (λ st, (∀ k, key_of base k → od_get k st.1 = od_get k st0.1)
                  ∧ od_get base st.2 = od_get base st0.2)); [done|].
  intros st b Hb [Hget Hlen].
  pose proof (stack_indexed_attribute_cases st b) as Hc.
  destruct (stack_indexed_attribute st b) as [st'|e]; [|done].
  destruct Hc as (Hframe & _ & Hlens & _). split.
  - intros k Hk. rewrite Hframe by (eapply key_of_untouched; eauto). by apply Hget.
  - rewrite Hlens; [done|]. apply (prefix_free_base base b), Hpf, Hb.
Qed.

Lemma prefix_free_among_others (base : string) (l : list string) :
  prefix_free_among base l → base ∉ l → ∀ b, b ∈ l → prefix_free base b.
Proof.
  unfold prefix_free_among. rewrite Forall_forall. intros Hpf Hbase b Hb.
  destruct (Hpf b Hb) as [->|?]; done.
Qed.

Lemma holds_indexed_first (base : string) (vs : list value) (d : list (string * value)) :
  vs ≠ [] → holds_indexed base vs d → is_Some (od_get (indexed_key base 1) d).
Proof.
  intros Hne [Hget _]. destruct vs as [|v vs]; [done|].
  rewrite (Hget 0) by (simpl; lia). by eexists.
Qed.

Lemma holds_indexed_transfer (base : string) (vs : list value) (d d' : list (string * value)) :
  (∀ k, key_of base k → od_get k d' = od_get k d) →
  holds_indexed base vs d → holds_indexed base vs d'.
Proof.
  intros Hsame [Hget Hend]. split.
  - intros i Hi. rewrite Hsame by (right; eauto). by apply Hget.
  - rewrite Hsame by (right; eauto). done.
Qed.

Lemma stack_indexed_attribute_folds (st : list (string * value) * list (string * nat)) (base : string) (vs : list value) :
  base ∉ od_keys st.1 → vs ≠ [] → holds_indexed base vs st.1 →
  stack_indexed_attribute st base
  = Ok (strip base (length vs) st.1 ++ [(base, VList vs)], od_set base (length vs) st.2).
Proof.
  intros Hbase Hne Hholds. unfold stack_indexed_attribute.
  rewrite (stack_indexed_folds base vs st.1 Hbase Hne Hholds). simpl.
  rewrite decide_True by (destruct vs; [done|simpl; lia]).
  rewrite od_get_app.
  pose proof (base_not_in_strip base (length vs) st.1 Hbase) as Hnone.
  apply od_get_None in Hnone. rewrite Hnone. simpl. by rewrite decide_True.
Qed.

Lemma stack_indexed_attribute_both (st : list (string * value) * list (string * nat)) (base : string) :
  is_Some (od_get (indexed_key base 1) st.1) → base ∈ od_keys st.1 →
  ∃ msg, stack_indexed_attribute st base = Raise (Exn TypeError msg).
Proof.
  intros Hone Hbase. destruct (stack_indexed_both base st.1 Hone Hbase) as [msg Hmsg].
  exists msg. unfold stack_indexed_attribute. by rewrite Hmsg.
Qed.

Lemma foldM_cons {A B} (f : B → A → outcome B) (x : A) (xs : list A) (b : B) :
  foldM f (x :: xs) b = f b x ≫= foldM f xs.
Proof. done. Qed.

Lemma outcome_bind_Ok {A B} (a : A) (f : A → outcome B) : Ok a ≫= f = f a.
Proof. done. Qed.

Lemma outcome_bind_Raise {A B} (e : exn) (f : A → outcome B) : Raise e ≫= f = Raise e.
Proof. done. Qed.

(** The attribute [base], given as [base1 .. base{n}]: unless the loops
    raise a [TypeError], the length [n] is recorded for it. *)
Lemma foldM_stack_records_length (base : string) (vs : list value) (names : list string) (kwargs : list (string * value)) :
  NoDup names → base ∈ names → prefix_free_among base names →
  vs ≠ [] → holds_indexed base vs kwargs →
  match foldM stack_indexed_attribute names (kwargs, []) with
  | Raise e => exn_cls e = TypeError
  | Ok st => od_get base st.2 = Some (length vs)
  end.
Proof.
  intros Hnd Hin Hpf Hne Hholds.
  apply list_elem_of_split_l in Hin as (l1 & l2 & -> & Hl1).
  apply NoDup_app in Hnd as (_ & Hdisj & Hnd2). apply NoDup_cons in Hnd2 as [Hl2 _].
  apply Forall_app in Hpf as [Hpf1 Hpf2]. apply Forall_cons in Hpf2 as [_ Hpf2].
  rewrite foldM_app.
  pose proof (foldM_stack_others base l1 (kwargs, [])
                (prefix_free_among_others _ _ Hpf1 Hl1)) as H1.
  destruct (foldM stack_indexed_attribute l1 (kwargs, [])) as [[d1 L1]|e]; [|done].
  destruct H1 as [Hget1 _]. rewrite outcome_bind_Ok, foldM_cons.
  destruct (decide (base ∈ od_keys d1)) as [Hbase|Hbase].
  - destruct (stack_indexed_attribute_both (d1, L1) base) as [msg ->]; [|done|done].
    simpl. rewrite Hget1 by (right; eauto). by eapply holds_indexed_first.
  - rewrite (stack_indexed_attribute_folds (d1, L1) base vs Hbase Hne)
      by (eapply holds_indexed_transfer; eauto).
    rewrite outcome_bind_Ok.
    apply (foldM_cases (λ e, exn_cls e = TypeError)
             (λ st, od_get base st.2 = Some (length vs))).
    + simpl. by rewrite od_get_od_set, decide_True.
    + intros st b Hb Hlen.
      pose proof (stack_indexed_attribute_cases st b) as Hc.
      destruct (stack_indexed_attribute st b) as [st'|e]; [|done].
      destruct Hc as (_ & _ & Hlens & _). rewrite Hlens; [done|].
      intros ->. done.
Qed.

Lemma remove_dups_two {A} `{EqDecision A} (x y : A) (l : list A) :
  x ≠ y → x ∈ l → y ∈ l → 1 < length (remove_dups l).
Proof.
  intros Hne Hx Hy.
  assert ([x; y] ⊆+ remove_dups l) as Hsub.
  { apply NoDup_submseteq.
    - apply NoDup_cons. split; [by intros ->%list_elem_of_singleton|apply NoDup_singleton].
    - intros z [->|[->|[]%elem_of_nil]%elem_of_cons]%elem_of_cons;
        by apply elem_of_remove_dups. }
  apply submseteq_length in Hsub. simpl in Hsub. lia.
Qed.

(** X1.  One indexed attribute given by the suffix-numbered keys [base1],
    ..., [base{n}] (contiguous from 1, [n ≥ 1], [base] itself absent, no
    other indexed attribute given with suffixes): the constructor does
    exactly what it does when these keys are taken out and the sequence
    [[v1, ..., vn]] is passed as the last keyword [base].  The two calls
    return the same object or raise the same exception. *)
Theorem init_suffix_keys_equal_sequence (cls : pclass) (allow_cosmetic_attributes : bool) (kwargs : list (string * value)) (base : string) (vs : list value) :
  base ∈ attr_names (_get_indexed_parameter_attributes cls) →
  Forall (λ b, b = base ∨ ((indexed_key b 1 ∉ od_keys kwargs) ∧ indexed_key b 1 ≠ base))
         (attr_names (_get_indexed_parameter_attributes cls)) →
  base ∉ od_keys kwargs → vs ≠ [] → holds_indexed base vs kwargs →
  __init__ cls allow_cosmetic_attributes kwargs
  = __init__ cls allow_cosmetic_attributes
      (strip base (length vs) kwargs ++ [(base, VList vs)]).
Proof.
  intros Hin Hothers Hbase Hne Hholds. rewrite Forall_forall in Hothers.
  set (names := attr_names (_get_indexed_parameter_attributes cls)) in *.
  set (kwargs' := strip base (length vs) kwargs ++ [(base, VList vs)]).
  assert (0 < length vs) as Hlen by (destruct vs; [done|simpl; lia]).
  assert (∀ b, b ∈ names → indexed_key b 1 ∉ od_keys kwargs') as Hkeys'.
  { intros b Hb Hk. unfold kwargs', od_keys in Hk. rewrite fmap_app in Hk.
    apply elem_of_app in Hk as [Hk|Hk].
    - change (indexed_key b 1 ∈ od_keys (strip base (length vs) kwargs)) in Hk.
      rewrite od_keys_strip in Hk. apply list_elem_of_filter in Hk as [Hnot Hk].
      destruct (Hothers b Hb) as [->|[Hnk _]]; [|done].
      apply Hnot, elem_of_indexed_keys. exists 1. split; [lia|done].
    - simpl in Hk. apply list_elem_of_singleton in Hk.
      destruct (Hothers b Hb) as [->|[_ Hnb]]; [|done].
      by apply indexed_key_ne_base in Hk. }
  cbv beta zeta delta [__init__]. fold names.
  rewrite (foldM_stack_absent names (kwargs', [])) by done.
  pose proof Hin as Hsplit.
  apply list_elem_of_split_l in Hsplit as (l1 & l2 & Hnames & Hl1).
  assert (foldM stack_indexed_attribute names (kwargs, [])
          = Ok (kwargs', [(base, length vs)])) as ->.
  { rewrite Hnames, foldM_app. rewrite (foldM_stack_absent l1 (kwargs, [])).
    - rewrite outcome_bind_Ok, foldM_cons.
      rewrite (stack_indexed_attribute_folds (kwargs, []) base vs Hbase Hne Hholds).
      rewrite outcome_bind_Ok.
      apply (foldM_stack_absent l2 (kwargs', [(base, length vs)])).
      intros b Hb. apply Hkeys'. rewrite Hnames, elem_of_app, elem_of_cons. auto.
    - intros b Hb. simpl.
      destruct (Hothers b) as [->|[Hnk _]]; [|done|done].
      rewrite Hnames, elem_of_app. auto. }
  simpl. done.
Qed.

(** X2.  When an indexed attribute is given both without index ([base]) and
    with the index 1 ([base1]), the constructor raises a [TypeError],
    whatever else is passed; the names of the indexed attributes are
    supposed not to start with one another. *)
Theorem init_rejects_both_forms (cls : pclass) (allow_cosmetic_attributes : bool) (kwargs : list (string * value)) (base : string) :
  base ∈ attr_names (_get_indexed_parameter_attributes cls) →
  prefix_free_among base (attr_names (_get_indexed_parameter_attributes cls)) →
  base ∈ od_keys kwargs → indexed_key base 1 ∈ od_keys kwargs →
  ∃ msg, __init__ cls allow_cosmetic_attributes kwargs = Raise (Exn TypeError msg).
Proof.
  intros Hin Hpf Hbase Hbase1.
  assert (∃ e, foldM stack_indexed_attribute
                 (attr_names (_get_indexed_parameter_attributes cls)) (kwargs, [])
               = Raise e) as [e He].
  { apply list_elem_of_split_l in Hin as (l1 & l2 & Hnames & Hl1).
    rewrite Hnames in *. apply Forall_app in Hpf as [Hpf1 _].
    rewrite foldM_app.
    pose proof (foldM_stack_others base l1 (kwargs, [])
                  (prefix_free_among_others _ _ Hpf1 Hl1)) as H1.
    destruct (foldM stack_indexed_attribute l1 (kwargs, [])) as [[d1 L1]|e]; [|by eexists].
    destruct H1 as [Hget1 _]. rewrite outcome_bind_Ok, foldM_cons.
    destruct (stack_indexed_attribute_both (d1, L1) base) as [msg ->]; [| |by eexists].
    - simpl. rewrite Hget1 by (right; eauto). by apply od_get_is_Some.
    - simpl. apply od_get_is_Some. rewrite Hget1 by (by left). by apply od_get_is_Some. }
  pose proof (foldM_stack_raises _ _ _ He) as Hcls.
  destruct e as [c msg]. simpl in Hcls. subst c. exists msg.
  cbv beta zeta delta [__init__]. by rewrite He.
Qed.

(** X3.  When two indexed attributes are given by suffix-numbered keys,
    [b1 .. b{n}] and [c1 .. c{m}], with [n ≠ m], the constructor raises a
    [TypeError]; the names of the indexed attributes are supposed distinct
    and not to start with one another. *)
Theorem init_rejects_unequal_lengths (cls : pclass) (allow_cosmetic_attributes : bool) (kwargs : list (string * value)) (b c : string) (vs us : list value) :
  NoDup (attr_names (_get_indexed_parameter_attributes cls)) →
  b ∈ attr_names (_get_indexed_parameter_attributes cls) →
  c ∈ attr_names (_get_indexed_parameter_attributes cls) →
  prefix_free_among b (attr_names (_get_indexed_parameter_attributes cls)) →
  prefix_free_among c (attr_names (_get_indexed_parameter_attributes cls)) →
  vs ≠ [] → us ≠ [] → holds_indexed b vs kwargs → holds_indexed c us kwargs →
  length vs ≠ length us →
  ∃ msg, __init__ cls allow_cosmetic_attributes kwargs = Raise (Exn TypeError msg).
Proof.
  intros Hnd Hb Hc Hpfb Hpfc Hvs Hus Hholdsb Hholdsc Hlen.
  pose proof (foldM_stack_records_length b vs _ kwargs Hnd Hb Hpfb Hvs Hholdsb) as Hb'.
  pose proof (foldM_stack_records_length c us _ kwargs Hnd Hc Hpfc Hus Hholdsc) as Hc'.
  cbv beta zeta delta [__init__].
  destruct (foldM stack_indexed_attribute _ (kwargs, [])) as [[d L]|[cl msg]].
  - simpl in *. rewrite decide_True; [by eexists|].
    apply (remove_dups_two (length vs) (length us)); [done| |].
    + apply od_get_Some_elem_of in Hb'. by apply (list_elem_of_fmap_2 snd) in Hb'.
    + apply od_get_Some_elem_of in Hc'. by apply (list_elem_of_fmap_2 snd) in Hc'.
  - simpl in *. subst cl. by eexists.
Qed.

End initializer.

Module StackingExamples.
Import Exact.

(** A proper torsion whose force constants are given as [k1], [k2]. *)
Definition suffixed_k : list (string * value) :=
  [("smirks", VStr "[*:1]-[*:2]-[*:3]-[*:4]");
   ("periodicity", VList [num 2; num 3]);
   ("phase", VList [num 0; num 180]);
   ("k1", num 1); ("k2", num 2);
   ("idivf", VList [num 1; num 2])].

(** The same with [k] given as well. *)
Definition both_forms : list (string * value) :=
  suffixed_k ++ [("k", VList [num 1; num 2])].

(** Two force constants and one phase. *)
Definition unequal : list (string * value) :=
  [("smirks", VStr "[*:1]-[*:2]-[*:3]-[*:4]");
   ("periodicity", VList [num 2; num 3]);
   ("phase1", num 0);
   ("k1", num 1); ("k2", num 2)].

End StackingExamples.

Lemma init_suffix_keys_equal_sequence_witness :
  _ParameterAttributeInitializer.__init__ ParameterType.ProperTorsionType false
    StackingExamples.suffixed_k
  = _ParameterAttributeInitializer.__init__ ParameterType.ProperTorsionType false
      (strip "k" 2 StackingExamples.suffixed_k ++ [("k", VList [num 1; num 2])]).
Proof.
  apply (init_suffix_keys_equal_sequence ParameterType.ProperTorsionType false
           StackingExamples.suffixed_k "k" [num 1; num 2]).
  - apply (bool_decide_unpack _). vm_compute. reflexivity.
  - apply (bool_decide_unpack _). vm_compute. reflexivity.
  - apply (bool_decide_unpack _). vm_compute. reflexivity.
  - discriminate.
  - split; [intros [|[|i]] Hi; [reflexivity|reflexivity|simpl in Hi; lia]|reflexivity].
Defined.

Lemma init_rejects_both_forms_witness :
  ∃ msg,
    _ParameterAttributeInitializer.__init__ ParameterType.ProperTorsionType false
      StackingExamples.both_forms
    = Raise (Exn TypeError msg).
Proof.
  apply (init_rejects_both_forms ParameterType.ProperTorsionType false
           StackingExamples.both_forms "k").
  - apply (bool_decide_unpack _). vm_compute. reflexivity.
  - apply (bool_decide_unpack _). vm_compute. reflexivity.
  - apply (bool_decide_unpack _). vm_compute. reflexivity.
  - apply (bool_decide_unpack _). vm_compute. reflexivity.
Defined.

Lemma init_rejects_unequal_lengths_witness :
  ∃ msg,
    _ParameterAttributeInitializer.__init__ ParameterType.ProperTorsionType false
      StackingExamples.unequal
    = Raise (Exn TypeError msg).
Proof.
  apply (init_rejects_unequal_lengths ParameterType.ProperTorsionType false
           StackingExamples.unequal "k" "phase" [num 1; num 2] [num 0]).
  - apply (bool_decide_unpack _). vm_compute. reflexivity.
  - apply (bool_decide_unpack _). vm_compute. reflexivity.
  - apply (bool_decide_unpack _). vm_compute. reflexivity.
  - apply (bool_decide_unpack _). vm_compute. reflexivity.
  - apply (bool_decide_unpack _). vm_compute. reflexivity.
  - discriminate.
  - discriminate.
  - split; [intros [|[|i]] Hi; [reflexivity|reflexivity|simpl in Hi; lia]|reflexivity].
  - split; [intros [|i] Hi; [reflexivity|simpl in Hi; lia]|reflexivity].
  - simpl. lia.
Defined.

(** ** The last loop of [__init__]: attributes and cosmetic attributes *)
Section initializer_attributes.
Import ParameterAttribute _ParameterAttributeInitializer.
Context `{External}.

Lemma private_inj (a b : string) : private a = private b → a = b.
Proof. unfold private. apply (inj (String.append "_")). Qed.

Lemma find_descriptor_Some (cls : pclass) (k : string) (d : descriptor) :
  find_descriptor cls k = Some d → d ∈ cls_attrs cls ∧ name (info d) = k.
Proof.
  unfold find_descriptor.
  destruct (list_find _ (cls_attrs cls)) as [[i d']|] eqn:Hfind; simpl; [|done].
  intros [= <-]. apply list_find_Some in Hfind as (Hi & Hname & _).
  split; [by eapply list_elem_of_lookup_2|done].
Qed.

Lemma find_descriptor_None (cls : pclass) (k : string) :
  find_descriptor cls k = None ↔ k ∉ attr_names (cls_attrs cls).
Proof.
  unfold find_descriptor, attr_names.
  destruct (list_find _ (cls_attrs cls)) as [[i d']|] eqn:Hfind; simpl.
  - apply list_find_Some in Hfind as (Hi & Hname & _). split; [done|].
    intros Hk. destruct Hk. apply list_elem_of_fmap. exists d'.
    split; [done|by eapply list_elem_of_lookup_2].
  - apply list_find_None in Hfind. rewrite Forall_forall in Hfind. split; [|done].
    intros _ (d & -> & Hd)%list_elem_of_fmap. by apply (Hfind d).
Qed.

Lemma find_descriptor_is_Some (cls : pclass) (d : descriptor) :
  d ∈ cls_attrs cls → is_Some (find_descriptor cls (name (info d))).
Proof.
  intros Hd. apply not_eq_None_Some. rewrite find_descriptor_None.
  intros Hn. apply Hn. unfold attr_names. by apply (list_elem_of_fmap_2 (λ d, name (info d))).
Qed.

Lemma indexed_names_attr_names (cls : pclass) (b : string) :
  b ∈ attr_names (_get_indexed_parameter_attributes cls) → b ∈ attr_names (cls_attrs cls).
Proof.
  unfold attr_names, _get_indexed_parameter_attributes, _get_parameter_attributes.
  intros (d & -> & [_ Hd]%list_elem_of_filter)%list_elem_of_fmap.
  by apply (list_elem_of_fmap_2 (λ d, name (info d))).
Qed.

(** What the body of the last loop does to the object. *)
Lemma init_attribute_Ok (cls : pclass) (allow : bool) (s s' : instance) (kv : string * value) :
  init_attribute cls allow s kv = Ok s' →
  ∃ w, inst_dict s' = <[private kv.1 := w]> (inst_dict s)
       ∧ ((is_Some (find_descriptor cls kv.1) ∧ _cosmetic_attribs s' = _cosmetic_attribs s)
          ∨ (find_descriptor cls kv.1 = None ∧ allow = true ∧ w = kv.2
             ∧ _cosmetic_attribs s' = _cosmetic_attribs s ++ [kv.1])).
Proof.
  unfold init_attribute. destruct (find_descriptor cls kv.1) as [d|] eqn:Hfind.
  - apply find_descriptor_Some in Hfind as [_ Hname]. unfold __set__.
    destruct (_convert_and_validate d s kv.2) as [w|]; simpl; [|done].
    intros [= <-]. exists w. simpl. rewrite Hname. split; [done|]. left. eauto.
  - destruct allow; [|done]. intros [= <-]. exists kv.2. simpl. split; [done|].
    right. done.
Qed.

Lemma init_loop_keeps (cls : pclass) (allow : bool) (data : list (string * value)) (s x : instance) :
  foldM (init_attribute cls allow) data s = Ok x →
  (∀ k, is_Some (inst_dict s !! k) → is_Some (inst_dict x !! k))
  ∧ (∀ k, k ∈ _cosmetic_attribs s → k ∈ _cosmetic_attribs x)
  ∧ (∀ k, k ∉ od_keys data →
          inst_dict x !! private k = inst_dict s !! private k).
Proof.
  revert s. induction data as [|kv data IH]; intros s; simpl.
  - intros [= <-]. done.
  - destruct (init_attribute cls allow s kv) as [s'|] eqn:Hstep; simpl; [|done].
    intros Hrest. apply IH in Hrest as (Hdict & Hcos & Hother).
    apply init_attribute_Ok in Hstep as (w & Hs' & Hc). split_and!.
    + intros k Hk. apply Hdict. rewrite Hs'.
      destruct (decide (private kv.1 = k)) as [<-|Hne];
        [rewrite lookup_insert_eq; eauto|by rewrite lookup_insert_ne].
    + intros k Hk. apply Hcos.
      destruct Hc as [[_ ->]|(_ & _ & _ & ->)]; [done|]. apply elem_of_app. by left.
    + intros k Hk. unfold od_keys in Hk. rewrite ?fmap_cons in Hk.
      apply not_elem_of_cons in Hk as [Hne Hk]. rewrite (Hother k Hk), Hs'.
      rewrite lookup_insert_ne; [done|]. intros Heq%private_inj. done.
Qed.

Lemma init_loop_sets (cls : pclass) (allow : bool) (data : list (string * value)) (s x : instance) (k : string) :
  foldM (init_attribute cls allow) data s = Ok x →
  k ∈ od_keys data → is_Some (inst_dict x !! private k).
Proof.
  revert s. induction data as [|kv data IH]; intros s; simpl.
  - intros _ []%elem_of_nil.
  - destruct (init_attribute cls allow s kv) as [s'|] eqn:Hstep; simpl; [|done].
    intros Hrest Hk. unfold od_keys in Hk. rewrite ?fmap_cons in Hk.
    apply elem_of_cons in Hk as [->|Hk]; [|by eapply IH].
    apply init_loop_keeps in Hrest as (Hdict & _). apply Hdict.
    apply init_attribute_Ok in Hstep as (w & -> & _). rewrite lookup_insert_eq. eauto.
Qed.

Lemma init_loop_cosmetic (cls : pclass) (allow : bool) (data : list (string * value)) (s x : instance) (k : string) (v : value) :
  NoDup (od_keys data) → (k, v) ∈ data → find_descriptor cls k = None →
  foldM (init_attribute cls allow) data s = Ok x →
  allow = true ∧ k ∈ _cosmetic_attribs x ∧ inst_dict x !! private k = Some v.
Proof.
  revert s. induction data as [|kv data IH]; intros s Hnd Hin Hfind; simpl.
  - by apply elem_of_nil in Hin.
  - unfold od_keys in Hnd. rewrite ?fmap_cons in Hnd. apply NoDup_cons in Hnd as [Hfresh Hnd].
    destruct (init_attribute cls allow s kv) as [s'|] eqn:Hstep; simpl; [|done].
    intros Hrest. apply elem_of_cons in Hin as [<-|Hin]; [|by eapply IH].
    apply init_loop_keeps in Hrest as (_ & Hcos & Hother).
    apply init_attribute_Ok in Hstep as (w & Hs' & Hc). simpl in *.
    destruct Hc as [[[d Hd] _]|(_ & Hallow & -> & Hc)]; [congruence|].
    split_and!; [done| |].
    + apply Hcos. rewrite Hc. apply elem_of_app. right. left.
    + rewrite (Hother k Hfresh), Hs'. by rewrite lookup_insert_eq.
Qed.

Lemma foldM_raises_at {A B} (f : B → A → outcome B) (xs : list A) (x : A) (b : B) :
  x ∈ xs → (∀ b, ∃ e, f b x = Raise e) → ∃ e, foldM f xs b = Raise e.
Proof.
  intros Hx Hf. revert b. induction xs as [|y xs IH]; intros b; simpl.
  - by apply elem_of_nil in Hx.
  - destruct (f b y) as [b'|e] eqn:Hy; simpl; [|by eexists].
    apply elem_of_cons in Hx as [->|Hx]; [|by apply IH].
    destruct (Hf b) as [e He]. congruence.
Qed.

(** The stacking loops neither create nor remove a key that is no
    indexed attribute and starts with none. *)
Lemma foldM_stack_keeps (names : list string) (kwargs : list (string * value)) (k : string) :
  (∀ b, b ∈ names → untouched b k) →
  match foldM stack_indexed_attribute names (kwargs, []) with
  | Raise e => exn_cls e = TypeError
  | Ok st => od_get k st.1 = od_get k kwargs
  end.
Proof.
  intros Hk.
  apply (foldM_cases (λ e, exn_cls e = TypeError)
           (λ st, od_get k st.1 = od_get k kwargs)); [done|].
  intros st b Hb Hget.
  pose proof (stack_indexed_attribute_cases st b) as Hc.
  destruct (stack_indexed_attribute st b) as [st'|e]; [|done].
  destruct Hc as (Hframe & _). rewrite Hframe by auto. done.
Qed.

Lemma starts_with_refl (s : string) : starts_with s s = true.
Proof. induction s as [|a s IH]; simpl; [done|]. by rewrite bool_decide_eq_true_2. Qed.

Lemma not_starts_with_untouched (b k : string) : starts_with b k = false → untouched b k.
Proof.
  intros Hs. split.
  - intros ->. by rewrite starts_with_refl in Hs.
  - intros i ->. unfold indexed_key in Hs. by rewrite starts_with_app in Hs.
Qed.

Lemma od_del_NoDup {V} (k : string) (d : list (string * V)) :
  NoDup (od_keys d) → NoDup (od_keys (od_del k d)).
Proof.
  unfold od_keys. induction d as [|[k0 v0] d IH]; simpl; [done|].
  intros [Hfresh Hnd]%NoDup_cons. case_decide; [by apply IH|].
  simpl. apply NoDup_cons. split; [|by apply IH].
  intros Hin. apply Hfresh. by apply (od_keys_od_del k0 k d).
Qed.

Lemma stack_step_NoDup (base : string) (i : nat) (v : value) (d d' : list (string * value)) :
  stack_step base i v d = Ok d' → NoDup (od_keys d) → NoDup (od_keys d').
Proof.
  unfold stack_step, data_append. intros Hstep Hnd.
  assert (∀ d0 : list (string * value), NoDup (od_keys d0) →
    (match od_get base d0 with
     | None => raise KeyError base
     | Some (VList l) => Ok (od_set base (VList (l ++ [v])) d0)
     | Some _ => raise AttributeError "append"
     end ≫= λ d1, Ok (od_del (base +:+ pretty i) d1)) = Ok d' →
    NoDup (od_keys d')) as Haux.
  { intros d0 Hnd0 Hd0. destruct (od_get base d0) as [[| | |l]|]; try done.
    simpl in Hd0. injection Hd0 as <-. by apply od_del_NoDup, od_set_NoDup. }
  destruct (decide (i = 1)) as [->|].
  - destruct (decide (base ∈ od_keys d)); [done|]. simpl in Hstep.
    eapply Haux; [|done]. by apply od_set_NoDup.
  - simpl in Hstep. by eapply Haux.
Qed.

Lemma stack_loop_NoDup (fuel : nat) (base : string) (i : nat) (d d' : list (string * value)) (i' : nat) :
  stack_loop fuel base i d = Some (Ok (d', i')) → NoDup (od_keys d) → NoDup (od_keys d').
Proof.
  revert i d. induction fuel as [|fuel IH]; intros i d; simpl.
  - destruct (od_get (base +:+ pretty i) d); [done|]. by intros [= <- <-].
  - destruct (od_get (base +:+ pretty i) d) as [v|]; [|by intros [= <- <-]].
    destruct (stack_step base i v d) as [d1|e] eqn:Hstep; [|done].
    intros Hloop Hnd. eapply IH; [done|]. by eapply stack_step_NoDup.
Qed.

Lemma foldM_stack_NoDup (names : list string) (st st' : list (string * value) * list (string * nat)) :
  foldM stack_indexed_attribute names st = Ok st' →
  NoDup (od_keys st.1) → NoDup (od_keys st'.1).
Proof.
  revert st. induction names as [|b names IH]; intros st; simpl; [by intros [= <-]|].
  destruct (stack_indexed_attribute st b) as [st1|] eqn:Hstep; simpl; [|done].
  intros Hrest Hnd. eapply IH; [done|].
  unfold stack_indexed_attribute in Hstep.
  destruct (stack_loop_terminates b st.1) as [r Hr].
  rewrite (stack_indexed_eq _ _ _ _ Hr) in Hstep.
  destruct r as [[d1 i1]|]; simpl in Hstep; [|done].
  apply stack_loop_NoDup in Hr; [|done].
  destruct (decide (1 < i1)); [|by injection Hstep as <-].
  destruct (od_get b d1) as [w|]; [|done].
  destruct (py_len w); simpl in Hstep; [|done]. by injection Hstep as <-.
Qed.

(** X4.  When a required attribute is given neither under its name nor
    under its name followed by 1, the constructor fails: with the
    [SMIRNOFFSpecError] of the check for required attributes, unless the
    stacking of indexed keys has raised its [TypeError] before. *)
Theorem init_missing_required (cls : pclass) (allow_cosmetic_attributes : bool) (kwargs : list (string * value)) (r : string) :
  r ∈ attr_names (_get_required_parameter_attributes cls) →
  r ∉ od_keys kwargs →
  indexed_key r 1 ∉ od_keys kwargs →
  indexed_key r 1 ∉ attr_names (_get_indexed_parameter_attributes cls) →
  ∃ e, __init__ cls allow_cosmetic_attributes kwargs = Raise e
       ∧ exn_cls e ∈ [TypeError; SMIRNOFFSpecError].
Proof.
  intros Hreq Hr Hr1 Hnames. cbv beta zeta delta [__init__].
  pose proof (foldM_cases (λ e, exn_cls e = TypeError)
                (λ st, (r ∉ od_keys st.1) ∧ (indexed_key r 1 ∉ od_keys st.1))
                stack_indexed_attribute
                (attr_names (_get_indexed_parameter_attributes cls)) (kwargs, [])
                (conj Hr Hr1)) as Hfold.
  assert (∀ (st : list (string * value) * list (string * nat)) b,
            b ∈ attr_names (_get_indexed_parameter_attributes cls) →
            (r ∉ od_keys st.1) ∧ (indexed_key r 1 ∉ od_keys st.1) →
            match stack_indexed_attribute st b with
            | Raise e => exn_cls e = TypeError
            | Ok st' => (r ∉ od_keys st'.1) ∧ (indexed_key r 1 ∉ od_keys st'.1)
            end) as Hstep.
  { intros st b Hb [Hst Hst1].
    pose proof (stack_indexed_attribute_cases st b) as Hc.
    destruct (stack_indexed_attribute st b) as [st'|e]; [|done].
    destruct Hc as (_ & Hkeys & _ & Hsame).
    destruct (decide (b = r)) as [Hbr|Hbr].
    - subst b. rewrite Hsame; [done|]. by apply od_get_None.
    - split; intros [Heq|Hin]%Hkeys; try done; subst b; done. }
  specialize (Hfold Hstep).
  destruct (foldM stack_indexed_attribute _ (kwargs, [])) as [[d L]|e].
  - simpl. destruct (decide (1 < length (remove_dups L.*2))).
    { eexists. split; [done|]. simpl. left. }
    destruct Hfold as [Hd _]. simpl in Hd.
    assert (r ∈ missing_attributes cls d) as Hmiss.
    { unfold missing_attributes. by apply list_elem_of_filter. }
    destruct (missing_attributes cls d) as [|m ms]; [by apply elem_of_nil in Hmiss|].
    eexists. split; [done|]. simpl. right. left.
  - simpl. exists e. split; [done|]. rewrite Hfold. left.
Qed.

(** X5.  A keyword that is no attribute of the class and does not start
    with the name of an indexed attribute, the keywords being clear of the
    names the object uses itself (a keyword [cosmetic_attribs] would replace
    the list of the cosmetic attributes by its value): without
    [allow_cosmetic_attributes] the constructor fails; with it, and when
    the constructor succeeds, the keyword is recorded in
    [_cosmetic_attribs] and its value is stored, unchanged, under the name
    preceded by an underscore. *)
Theorem init_unknown_kwarg (cls : pclass) (allow_cosmetic_attributes : bool) (kwargs : list (string * value)) (k : string) (v : value) :
  Forall (clear_of parameter_own_names) (od_keys kwargs) →
  NoDup (od_keys kwargs) →
  od_get k kwargs = Some v →
  k ∉ attr_names (cls_attrs cls) →
  Forall (λ b, starts_with b k = false) (attr_names (_get_indexed_parameter_attributes cls)) →
  match __init__ cls allow_cosmetic_attributes kwargs with
  | Raise _ => True
  | Ok x =>
      allow_cosmetic_attributes = true
      ∧ k ∈ _cosmetic_attribs x
      ∧ inst_dict x !! private k = Some v
  end.
Proof.
  intros _ Hnd Hget Hk Hstarts. rewrite Forall_forall in Hstarts.
  cbv beta zeta delta [__init__].
  pose proof (foldM_stack_keeps (attr_names (_get_indexed_parameter_attributes cls))
                kwargs k (λ b Hb, not_starts_with_untouched b k (Hstarts b Hb))) as Hkeep.
  destruct (foldM stack_indexed_attribute _ (kwargs, [])) as [[d L]|e] eqn:Hfold; [|done].
  simpl in *. destruct (decide (1 < length (remove_dups L.*2))); [done|].
  destruct (missing_attributes cls d); [|done].
  destruct (foldM (init_attribute cls allow_cosmetic_attributes) d (Instance ∅ []))
    as [x|] eqn:Hloop; [|done].
  apply (init_loop_cosmetic cls allow_cosmetic_attributes d (Instance ∅ []) x k v); [| | |done].
  - by apply (foldM_stack_NoDup _ _ _ Hfold).
  - apply od_get_Some_elem_of. by rewrite Hkeep.
  - by apply find_descriptor_None.
Qed.

(** X6.  An object that the constructor has returned has all its
    attributes defined: every descriptor of the class can be read without an
    [AttributeError]; the required attributes have a stored value. *)
Theorem init_defines_attributes (cls : pclass) (allow_cosmetic_attributes : bool) (kwargs : list (string * value)) (x : instance) (d : descriptor) :
  __init__ cls allow_cosmetic_attributes kwargs = Ok x →
  d ∈ cls_attrs cls →
  (∃ v, __get__ d x = Ok v)
  ∧ (is_undefined d = true → is_Some (inst_dict x !! private (name (info d)))).
Proof.
  cbv beta zeta delta [__init__]. intros Hinit Hd.
  destruct (foldM stack_indexed_attribute _ (kwargs, [])) as [[data L]|e]; [|done].
  simpl in Hinit. destruct (decide (1 < length (remove_dups L.*2))); [done|].
  destruct (missing_attributes cls data) as [|m ms] eqn:Hmiss; [|done].
  assert (is_undefined d = true → is_Some (inst_dict x !! private (name (info d)))) as Hreq.
  { intros Hundef. eapply init_loop_sets; [done|].
    destruct (decide (name (info d) ∈ od_keys data)) as [|Hn]; [done|].
    assert (name (info d) ∈ missing_attributes cls data) as Hin.
    { unfold missing_attributes. apply list_elem_of_filter. split; [done|].
      unfold attr_names, _get_required_parameter_attributes, _get_parameter_attributes.
      apply (list_elem_of_fmap_2 (λ d, name (info d))). by apply list_elem_of_filter. }
    rewrite Hmiss in Hin. by apply elem_of_nil in Hin. }
  split; [|done]. unfold __get__.
  destruct (inst_dict x !! private (name (info d))) as [v|] eqn:Hv; [by eexists|].
  destruct (default_value (info d)) as [dflt|] eqn:Hdflt; [by eexists|].
  assert (is_undefined d = true) as Hundef
    by (unfold is_undefined; by rewrite Hdflt).
  destruct (Hreq Hundef) as [v' Hv']; first [done|congruence].
Qed.

End initializer_attributes.

Module InitExamples.
Import Exact.

(** A proper torsion without [phase]. *)
Definition no_phase : list (string * value) :=
  [("smirks", VStr "[*:1]-[*:2]-[*:3]-[*:4]");
   ("periodicity", VList [num 2; num 3]);
   ("k", VList [num 1; num 2])].

(** A bond with the comment of its author. *)
Definition commented_bond : list (string * value) :=
  [("smirks", VStr "[*:1]~[*:2]"); ("length", num 1); ("k", num 10);
   ("comment", VStr "fitted by hand")].

End InitExamples.

Lemma init_missing_required_witness :
  ∃ e, _ParameterAttributeInitializer.__init__ ParameterType.ProperTorsionType false
         InitExamples.no_phase = Raise e
       ∧ exn_cls e ∈ [TypeError; SMIRNOFFSpecError].
Proof.
  apply (init_missing_required ParameterType.ProperTorsionType false
           InitExamples.no_phase "phase").
  - apply (bool_decide_unpack _). vm_compute. reflexivity.
  - apply (bool_decide_unpack _). vm_compute. reflexivity.
  - apply (bool_decide_unpack _). vm_compute. reflexivity.
  - apply (bool_decide_unpack _). vm_compute. reflexivity.
Defined.

Lemma init_unknown_kwarg_witness :
  match _ParameterAttributeInitializer.__init__ ParameterType.BondType true
          InitExamples.commented_bond with
  | Raise _ => True
  | Ok x =>
      true = true
      ∧ "comment" ∈ _cosmetic_attribs x
      ∧ inst_dict x !! private "comment" = Some (VStr "fitted by hand")
  end.
Proof.
  apply (init_unknown_kwarg ParameterType.BondType true InitExamples.commented_bond
           "comment" (VStr "fitted by hand")).
  - apply (bool_decide_unpack _). vm_compute. reflexivity.
  - apply (bool_decide_unpack _). vm_compute. reflexivity.
  - reflexivity.
  - apply (bool_decide_unpack _). vm_compute. reflexivity.
  - apply (bool_decide_unpack _). vm_compute. reflexivity.
Defined.

Example commented_bond_init :
  _ParameterAttributeInitializer.__init__ ParameterType.BondType true
    InitExamples.commented_bond
  = Ok (Instance (list_to_map [("_smirks", VStr "[*:1]~[*:2]"); ("_length", num 1);
                               ("_k", num 10); ("_comment", VStr "fitted by hand")])
                 ["comment"]).
Proof. vm_compute. reflexivity. Qed.

Lemma init_defines_attributes_witness :
  (∃ v, ParameterAttribute.__get__
          (ParameterType.attribute "k" None (Some kilocalorie_per_mole_per_angstrom2) None)
          (Instance (list_to_map [("_smirks", VStr "[*:1]~[*:2]"); ("_length", num 1);
                                  ("_k", num 10); ("_comment", VStr "fitted by hand")])
                    ["comment"]) = Ok v)
  ∧ (ParameterAttribute.is_undefined
       (ParameterType.attribute "k" None (Some kilocalorie_per_mole_per_angstrom2) None) = true →
     is_Some (inst_dict
                (Instance (list_to_map [("_smirks", VStr "[*:1]~[*:2]"); ("_length", num 1);
                                        ("_k", num 10); ("_comment", VStr "fitted by hand")])
                          ["comment"]) !! private "k")).
Proof.
  apply (init_defines_attributes ParameterType.BondType true InitExamples.commented_bond).
  - vm_compute. reflexivity.
  - cbn. do 4 right. left.
Defined.

(** ** The constructor of [ParameterHandler] *)
Section handler_init.
Import ParameterHandler.
Context `{External}.

Lemma header_indexed_loop_None (fuel : nat) (key : string) (kwargs : list (string * value)) (st : list string * list (string * unit_t) * list (string * (value → outcome value))) (base : string) :
  key ∈ od_keys kwargs → header_indexed_loop fuel key kwargs st base = None.
Proof.
  intros Hkey. revert st. induction fuel as [|fuel IH]; intros [[a r] t]; simpl;
    rewrite decide_True by done; [done|apply IH].
Qed.

Lemma header_indexed_loop_Some (fuel : nat) (key : string) (kwargs : list (string * value)) (st : list string * list (string * unit_t) * list (string * (value → outcome value))) (base : string) :
  key ∉ od_keys kwargs → header_indexed_loop fuel key kwargs st base = Some st.
Proof. intros Hkey. destruct fuel; simpl; by rewrite decide_False. Qed.

Lemma header_indexed_None (fuel : nat) (bases : list string) (kwargs : list (string * value)) (st : list string * list (string * unit_t) * list (string * (value → outcome value))) (base : string) :
  base ∈ bases → indexed_key base 1 ∈ od_keys kwargs →
  header_indexed fuel bases kwargs st = None.
Proof.
  intros Hbase Hkey. revert st. induction bases as [|b bases IH]; intros st.
  - by apply elem_of_nil in Hbase.
  - simpl. destruct (decide (b +:+ pretty 1 ∈ od_keys kwargs)) as [Hb|Hb].
    + by rewrite header_indexed_loop_None.
    + rewrite header_indexed_loop_Some by done. simpl.
      apply elem_of_cons in Hbase as [->|Hbase]; [done|by apply IH].
Qed.

Lemma header_indexed_Some (fuel : nat) (bases : list string) (kwargs : list (string * value)) (st st' : list string * list (string * unit_t) * list (string * (value → outcome value))) :
  header_indexed fuel bases kwargs st = Some st' →
  st' = st ∧ ∀ b, b ∈ bases → indexed_key b 1 ∉ od_keys kwargs.
Proof.
  revert st. induction bases as [|b bases IH]; intros st; simpl.
  - intros [= <-]. split; [done|]. by intros b []%elem_of_nil.
  - destruct (decide (b +:+ pretty 1 ∈ od_keys kwargs)) as [Hb|Hb].
    + by rewrite header_indexed_loop_None.
    + rewrite header_indexed_loop_Some by done. simpl.
      intros [-> Hrest]%IH. split; [done|].
      intros b' [->|Hb']%elem_of_cons; [done|by apply Hrest].
Qed.

Lemma header_indexed_total (fuel : nat) (bases : list string) (kwargs : list (string * value)) (st : list string * list (string * unit_t) * list (string * (value → outcome value))) :
  (∀ b, b ∈ bases → indexed_key b 1 ∉ od_keys kwargs) →
  header_indexed fuel bases kwargs st = Some st.
Proof.
  induction bases as [|b bases IH]; intros Hnone; simpl; [done|].
  rewrite header_indexed_loop_Some by (apply Hnone; left). simpl.
  apply IH. intros b' Hb'. apply Hnone. by right.
Qed.

(** The keywords after the check of the version. *)
Definition versioned (cls : hclass) (kwargs kw1 : list (string * value)) : Prop :=
  kw1 = kwargs
  ∨ ("version" ∈ _REQUIRED_SPEC_ATTRIBS cls
     ∧ ("version" ∉ od_keys kwargs)
     ∧ kw1 = od_set "version" (_MAX_SUPPORTED_SECTION_VERSION cls) kwargs).

Lemma versioned_keys (cls : hclass) (kwargs kw1 : list (string * value)) (k : string) :
  versioned cls kwargs kw1 → k ∈ od_keys kwargs → k ∈ od_keys kw1.
Proof.
  intros [->|(_ & Hv & ->)]; [done|]. rewrite od_keys_od_set, decide_False by done.
  intros Hk. apply elem_of_app. by left.
Qed.

(** The casts of [_ATTRIBS_TO_TYPE] and the defaults of
    [_DEFAULT_SPEC_ATTRIBS], as [__init__] applies them. *)
Definition cast_attribs (attribs_to_type : list (string * (value → outcome value))) (kwargs : list (string * value)) : outcome (list (string * value)) :=
  foldM (λ kw at_,
           match od_get at_.1 kw with
           | Some v => v' ← at_.2 v; Ok (od_set at_.1 v' kw)
           | None => Ok kw
           end) attribs_to_type kwargs.

Definition add_defaults (defaults kwargs : list (string * value)) : list (string * value) :=
  foldl (λ d kv, if decide (kv.1 ∈ od_keys d) then d else od_set kv.1 kv.2 d)
        kwargs defaults.

Definition allowed_header_attribs (cls : hclass) : list string :=
  _REQUIRED_SPEC_ATTRIBS cls ++ od_keys (_DEFAULT_SPEC_ATTRIBS cls)
  ++ _OPTIONAL_SPEC_ATTRIBS cls.

(** The steps of a call of [__init__] that returns. *)
Lemma handler_init_Some (fuel : nat) (cls : hclass) (allow skip : bool) (kwargs : list (string * value)) (r : outcome handler) :
  __init__ fuel cls allow skip kwargs = Some r →
  (∃ e, r = Raise e ∧ exn_cls e ∈ [SMIRNOFFSpecError; SMIRNOFFVersionError])
  ∨ ∃ kw1,
      versioned cls kwargs kw1
      ∧ (∀ a, a ∈ _REQUIRED_SPEC_ATTRIBS cls → a ∈ od_keys kw1)
      ∧ (∀ b, b ∈ _INDEXED_ATTRIBS cls → indexed_key b 1 ∉ od_keys kw1)
      ∧ r = (kw2 ← cast_attribs (_ATTRIBS_TO_TYPE cls) kw1;
             let data := add_defaults (_DEFAULT_SPEC_ATTRIBS cls) kw2 in
             _ ← foldM (λ _ kv,
                    match od_get kv.1 (_REQUIRE_UNITS cls) with
                    | Some u => check_units_are_compatible kv.1 kv.2 u
                    | None => Ok ()
                    end) data ();
             foldM (init_header_attribute cls allow (allowed_header_attribs cls))
                   data (Handler ∅ [])).
Proof.
  unfold __init__. intros Hinit.
  match type of Hinit with
  | context [match ?c with Raise _ => _ | Ok _ => _ end] =>
      destruct c as [kw1|e] eqn:Hver
  end.
  - assert (versioned cls kwargs kw1) as Hv.
    { destruct (decide ("version" ∈ _REQUIRED_SPEC_ATTRIBS cls)); [|left; congruence].
      destruct (decide ("version" ∈ od_keys kwargs)) as [Hin|Hin]; simpl in Hver.
      - destruct (od_get "version" kwargs); [|done].
        destruct (_check_section_version_compatibility cls v); [|done].
        left. simpl in Hver. congruence.
      - destruct skip; simpl in Hver; [|done].
        destruct (od_get "version" _); [|done].
        destruct (_check_section_version_compatibility cls v); [|done].
        right. split_and!; [done..|]. simpl in Hver. congruence. }
    destruct (list_find _ (_REQUIRED_SPEC_ATTRIBS cls)) as [[i a]|] eqn:Hreq.
    { left. injection Hinit as <-. eexists. split; [done|]. simpl. left. }
    destruct (header_indexed _ _ _ _) as [[[al ru] at_]|] eqn:Hidx; simpl in Hinit; [|done].
    apply header_indexed_Some in Hidx as [[= -> -> ->] Hnone].
    right. exists kw1. split_and!; [done| |done|by injection Hinit as <-].
    apply list_find_None in Hreq. rewrite Forall_forall in Hreq.
    intros a Ha. specialize (Hreq a Ha). simpl in Hreq.
    by destruct (decide (a ∈ od_keys kw1)).
  - left. injection Hinit as <-. exists e. split; [done|].
    destruct (decide ("version" ∈ _REQUIRED_SPEC_ATTRIBS cls)); [|done].
    assert (∀ kw : list (string * value), "version" ∈ od_keys kw →
              match od_get "version" kw with
              | Some version =>
                  _ ← _check_section_version_compatibility cls version; Ok kw
              | None => raise KeyError "version"
              end = Raise e → exn_cls e ∈ [SMIRNOFFSpecError; SMIRNOFFVersionError]) as Haux.
    { intros kw Hin%od_get_is_Some. destruct Hin as [v ->].
      unfold _check_section_version_compatibility.
      destruct (_ || _); simpl; [|done]. intros [= <-]. simpl. right. left. }
    destruct (decide ("version" ∈ od_keys kwargs)) as [Hin|Hin]; simpl in Hver.
    + by apply Haux in Hver.
    + destruct skip; simpl in Hver.
      * apply Haux in Hver; [done|]. rewrite od_keys_od_set, decide_False by done.
        apply elem_of_app. right. left.
      * injection Hver as <-. simpl. left.
Qed.

(** X7.  The loop over the indexed attributes in the constructor of a
    handler never ends once it is entered: when the keywords hold [base1]
    for a [base] of [_INDEXED_ATTRIBS], no number of iterations makes the
    constructor return a handler; it raises the error of one of the checks
    that come before the loop, or it does not return at all.  With all
    required attributes given and a compatible version it does not
    return. *)
Theorem handler_init_never_returns (fuel : nat) (cls : hclass) (allow_cosmetic_attributes skip_version_check : bool) (kwargs : list (string * value)) (base : string) :
  base ∈ _INDEXED_ATTRIBS cls →
  indexed_key base 1 ∈ od_keys kwargs →
  (∀ h, __init__ fuel cls allow_cosmetic_attributes skip_version_check kwargs ≠ Some (Ok h))
  ∧ ((∀ a, a ∈ _REQUIRED_SPEC_ATTRIBS cls → a ∈ od_keys kwargs) →
     (∀ v, od_get "version" kwargs = Some v →
           _check_section_version_compatibility cls v = Ok ()) →
     __init__ fuel cls allow_cosmetic_attributes skip_version_check kwargs = None).
Proof.
  intros Hbase Hkey. split.
  - intros h Hinit. apply handler_init_Some in Hinit as [(e & [=] & _)|(kw1 & Hv & _ & Hnone & _)].
    apply (Hnone base Hbase). by eapply versioned_keys.
  - intros Hreq Hver. unfold __init__.
    assert ((if decide ("version" ∈ _REQUIRED_SPEC_ATTRIBS cls) then
               kwargs0 ← (if decide ("version" ∈ od_keys kwargs) then Ok kwargs
                          else if skip_version_check then
                            Ok (od_set "version" (_MAX_SUPPORTED_SECTION_VERSION cls) kwargs)
                          else raise SMIRNOFFSpecError
                                 ("Missing version while trying to construct " +:+ handler_name cls));
               match od_get "version" kwargs0 with
               | Some version => _ ← _check_section_version_compatibility cls version; Ok kwargs0
               | None => raise KeyError "version"
               end
             else Ok kwargs) = Ok kwargs) as ->.
    { destruct (decide ("version" ∈ _REQUIRED_SPEC_ATTRIBS cls)) as [Hin|]; [|done].
      rewrite decide_True by auto. simpl.
      destruct (od_get "version" kwargs) as [v|] eqn:Hget.
      - by rewrite (Hver v eq_refl).
      - apply od_get_None in Hget. destruct Hget. auto. }
    destruct (list_find _ (_REQUIRED_SPEC_ATTRIBS cls)) as [[i a]|] eqn:Hfind.
    { apply list_find_Some in Hfind as (Hi & Hna & _).
      destruct Hna. apply Hreq. by eapply list_elem_of_lookup_2. }
    by rewrite (header_indexed_None fuel _ kwargs _ base).
Qed.


Lemma cast_attribs_Ok (attribs_to_type : list (string * (value → outcome value))) (kw kw' : list (string * value)) :
  cast_attribs attribs_to_type kw = Ok kw' →
  od_keys kw' = od_keys kw
  ∧ ∀ k, k ∉ od_keys attribs_to_type → od_get k kw' = od_get k kw.
Proof.
  unfold cast_attribs. revert kw.
  induction attribs_to_type as [|[a f] ats IH]; intros kw; simpl.
  - by intros [= <-].
  - destruct (od_get a kw) as [v|] eqn:Hget; simpl.
    + destruct (f v) as [v'|]; simpl; [|done].
      intros [Hkeys Hother]%IH. split.
      * rewrite Hkeys, od_keys_od_set, decide_True; [done|].
        apply od_get_is_Some. by eexists.
      * intros k Hk. unfold od_keys in Hk. rewrite ?fmap_cons in Hk.
        apply not_elem_of_cons in Hk as [Hne Hk].
        rewrite (Hother k Hk), od_get_od_set. by rewrite decide_False.
    + intros [Hkeys Hother]%IH. split; [done|].
      intros k Hk. unfold od_keys in Hk. rewrite ?fmap_cons in Hk.
      apply not_elem_of_cons in Hk as [Hne Hk]. by apply Hother.
Qed.

Lemma add_defaults_present (defaults kw : list (string * value)) (k : string) :
  k ∈ od_keys kw → od_get k (add_defaults defaults kw) = od_get k kw.
Proof.
  unfold add_defaults. revert kw.
  induction defaults as [|[k0 v0] defaults IH]; intros kw Hk; simpl; [done|].
  destruct (decide (k0 ∈ od_keys kw)) as [Hk0|Hk0]; [by apply IH|].
  rewrite IH.
  - rewrite od_get_od_set, decide_False; [done|]. by intros ->.
  - rewrite od_keys_od_set, decide_False by done. apply elem_of_app. by left.
Qed.

Lemma add_defaults_absent (defaults kw : list (string * value)) (k : string) :
  k ∉ od_keys kw → od_get k (add_defaults defaults kw) = od_get k defaults.
Proof.
  unfold add_defaults. revert kw.
  induction defaults as [|[k0 v0] defaults IH]; intros kw Hk; simpl.
  - by apply od_get_None.
  - destruct (decide (k = k0)) as [->|Hne].
    + rewrite decide_False by done.
      pose proof (add_defaults_present defaults (od_set k0 v0 kw) k0) as Hp.
      unfold add_defaults in Hp. rewrite Hp.
      * by rewrite od_get_od_set, decide_True.
      * rewrite od_keys_od_set, decide_False by done. apply elem_of_app. right. left.
    + destruct (decide (k0 ∈ od_keys kw)) as [Hk0|Hk0]; [by apply IH|].
      apply IH. rewrite od_keys_od_set, decide_False by done.
      rewrite elem_of_app, list_elem_of_singleton. tauto.
Qed.

Lemma add_defaults_NoDup (defaults kw : list (string * value)) :
  NoDup (od_keys kw) → NoDup (od_keys (add_defaults defaults kw)).
Proof.
  unfold add_defaults. revert kw.
  induction defaults as [|[k0 v0] defaults IH]; intros kw Hnd; simpl; [done|].
  destruct (decide (k0 ∈ od_keys kw)); [by apply IH|]. by apply IH, od_set_NoDup.
Qed.

Lemma add_defaults_keys (defaults kw : list (string * value)) (k : string) :
  k ∈ od_keys (add_defaults defaults kw) ↔ k ∈ od_keys kw ∨ k ∈ od_keys defaults.
Proof.
  rewrite <-!od_get_is_Some. destruct (decide (k ∈ od_keys kw)) as [Hk|Hk].
  - rewrite add_defaults_present by done. apply od_get_is_Some in Hk. tauto.
  - rewrite add_defaults_absent by done. apply od_get_None in Hk. rewrite Hk.
    split; [auto|]. intros [[? [=]]|?]; done.
Qed.

(** The last loop of the constructor. *)
Lemma header_loop (cls : hclass) (allow : bool) (allowed : list string) (data : list (string * value)) (h0 h : handler) :
  foldM (init_header_attribute cls allow allowed) data h0 = Ok h →
  NoDup (od_keys data) →
  (∀ k, k ∉ od_keys data → handler_dict h !! private k = handler_dict h0 !! private k)
  ∧ (∀ k v, (k, v) ∈ data → Some k ≠ snd <$> _INFOTYPE cls →
            handler_dict h !! private k = Some v)
  ∧ (∀ k, k ∈ handler_cosmetic_attribs h ↔
          k ∈ handler_cosmetic_attribs h0
          ∨ (k ∈ od_keys data ∧ Some k ≠ snd <$> _INFOTYPE cls ∧ k ∉ allowed)).
Proof.
  revert h0. induction data as [|[k0 v0] data IH]; intros h0; simpl.
  - intros [= <-] _. split_and!; [done|by intros k v []%elem_of_nil|].
    intros k. split; [auto|]. intros [?|[[]%elem_of_nil _]]. done.
  - destruct (init_header_attribute cls allow allowed h0 (k0, v0)) as [h1|] eqn:Hstep;
      simpl; [|done].
    intros Hrest Hnd. unfold od_keys in Hnd. rewrite ?fmap_cons in Hnd.
    apply NoDup_cons in Hnd as [Hfresh Hnd].
    destruct (IH h1 Hrest Hnd) as (Hother & Hstored & Hcos).
    unfold init_header_attribute in Hstep. simpl in Hstep.
    assert (∀ k, k ≠ k0 → handler_dict h1 !! private k = handler_dict h0 !! private k) as Hh1.
    { intros k Hne. destruct (decide (Some k0 = snd <$> _INFOTYPE cls)); [by injection Hstep as <-|].
      assert (private k0 ≠ private k) by (intros ?%private_inj; done).
      destruct (decide (k0 ∈ allowed)); [injection Hstep as <-; simpl; by rewrite lookup_insert_ne|].
      destruct allow; [|done]. injection Hstep as <-. simpl. by rewrite lookup_insert_ne. }
    split_and!.
    + intros k Hk. unfold od_keys in Hk. rewrite ?fmap_cons in Hk.
      apply not_elem_of_cons in Hk as [Hne Hk]. rewrite (Hother k Hk). by apply Hh1.
    + intros k v [[= -> ->]|Hin]%elem_of_cons Hel; [|by eapply Hstored].
      rewrite (Hother k0 Hfresh).
      rewrite decide_False in Hstep by done.
      destruct (decide (k0 ∈ allowed)); [injection Hstep as <-; simpl; by rewrite lookup_insert_eq|].
      destruct allow; [|done]. injection Hstep as <-. simpl. by rewrite lookup_insert_eq.
    + intros k. rewrite Hcos. unfold od_keys. rewrite ?fmap_cons, elem_of_cons. simpl.
      destruct (decide (Some k0 = snd <$> _INFOTYPE cls)) as [Hel|Hel].
      { injection Hstep as <-. split; [tauto|].
        intros [?|[[->|?] [? ?]]]; [auto|done|auto]. }
      destruct (decide (k0 ∈ allowed)) as [Hal|Hal].
      { injection Hstep as <-. simpl. split; [tauto|].
        intros [?|[[->|?] [? ?]]]; [auto|done|auto]. }
      destruct allow; [|done]. injection Hstep as <-. simpl.
      rewrite elem_of_app, list_elem_of_singleton. split.
      * intros [[?| ->]|?]; auto. tauto.
      * intros [?|[[->|?] [? ?]]]; auto.
Qed.

(** The dictionary [smirnoff_data] that the last loop of a returning call
    goes through. *)
Lemma handler_init_data (fuel : nat) (cls : hclass) (allow skip : bool) (kwargs : list (string * value)) (h : handler) :
  __init__ fuel cls allow skip kwargs = Some (Ok h) →
  NoDup (od_keys kwargs) →
  ∃ data,
    NoDup (od_keys data)
    ∧ foldM (init_header_attribute cls allow (allowed_header_attribs cls))
            data (Handler ∅ []) = Ok h
    ∧ (∀ k v, od_get k kwargs = Some v → k ∉ od_keys (_ATTRIBS_TO_TYPE cls) →
              od_get k data = Some v)
    ∧ (∀ k v, od_get k (_DEFAULT_SPEC_ATTRIBS cls) = Some v → k ∉ od_keys kwargs →
              k ≠ "version" → od_get k data = Some v)
    ∧ (∀ k, k ∈ od_keys kwargs ∨ k ∈ _REQUIRED_SPEC_ATTRIBS cls
            ∨ k ∈ od_keys (_DEFAULT_SPEC_ATTRIBS cls) → k ∈ od_keys data)
    ∧ (∀ k, k ∈ od_keys data → k ∉ allowed_header_attribs cls → k ∈ od_keys kwargs).
Proof.
  intros Hinit Hnd.
  apply handler_init_Some in Hinit as [(e & [=] & _)|(kw1 & Hv & Hreq & _ & Hinit)].
  destruct (cast_attribs (_ATTRIBS_TO_TYPE cls) kw1) as [kw2|] eqn:Hcast; [|done].
  simpl in Hinit. destruct (foldM _ _ ()) as [[]|]; [|done]. simpl in Hinit.
  symmetry in Hinit. apply cast_attribs_Ok in Hcast as [Hkeys2 Hget2].
  assert (NoDup (od_keys kw1)) as Hnd1.
  { destruct Hv as [->|(_ & _ & ->)]; [done|by apply od_set_NoDup]. }
  assert (∀ k, k ≠ "version" → od_get k kw1 = od_get k kwargs) as Hget1.
  { intros k Hk. destruct Hv as [->|(_ & _ & ->)]; [done|].
    by rewrite od_get_od_set, decide_False. }
  assert (∀ k, k ∈ od_keys kwargs → od_get k kw1 = od_get k kwargs) as Hget1'.
  { intros k Hk. destruct Hv as [->|(_ & Hver & ->)]; [done|].
    rewrite od_get_od_set, decide_False; [done|]. by intros ->. }
  exists (add_defaults (_DEFAULT_SPEC_ATTRIBS cls) kw2).
  split_and!; [apply add_defaults_NoDup; by rewrite Hkeys2|done| | | |].
  - intros k v Hget Hcastk. rewrite add_defaults_present.
    + rewrite Hget2 by done. rewrite Hget1'; [done|]. apply od_get_is_Some. by eexists.
    + rewrite Hkeys2. eapply versioned_keys; [done|]. apply od_get_is_Some. by eexists.
  - intros k v Hget Hk Hver. rewrite add_defaults_absent; [done|].
    rewrite Hkeys2. apply od_get_None. rewrite Hget1 by done. by apply od_get_None.
  - intros k Hk. apply add_defaults_keys. rewrite Hkeys2.
    destruct Hk as [Hk|[Hk|Hk]]; [left; by eapply versioned_keys|left; by apply Hreq|by right].
  - intros k [Hk|Hk]%add_defaults_keys Hal.
    + rewrite Hkeys2 in Hk. destruct Hv as [->|(Hvreq & Hver & ->)]; [done|].
      apply od_keys_od_set_elem_of in Hk as [->|Hk]; [|done].
      destruct Hal. unfold allowed_header_attribs. apply elem_of_app. by left.
    + destruct Hal. unfold allowed_header_attribs. rewrite !elem_of_app. auto.
Qed.

(** X8.  What a handler returned by the constructor holds, the keywords
    and the header attributes of the class being clear of the names the
    handler uses itself (a keyword [cosmetic_attribs] or [parameters] would
    replace the list of the cosmetic attributes or the parameter list):
    every keyword given (apart from the element name of the parameters and
    from the keywords that are cast) under its name preceded by an
    underscore, with the value given; every default of
    [_DEFAULT_SPEC_ATTRIBS] that was not given, with its default value; and
    exactly the keywords outside the required, default and optional
    attributes as cosmetic attributes. *)
Theorem handler_init_stores (fuel : nat) (cls : hclass) (allow_cosmetic_attributes skip_version_check : bool) (kwargs : list (string * value)) (h : handler) :
  Forall (clear_of handler_own_names) (od_keys kwargs ++ allowed_header_attribs cls) →
  __init__ fuel cls allow_cosmetic_attributes skip_version_check kwargs = Some (Ok h) →
  NoDup (od_keys kwargs) →
  (∀ k v, od_get k kwargs = Some v → k ∉ od_keys (_ATTRIBS_TO_TYPE cls) →
          Some k ≠ snd <$> _INFOTYPE cls →
          handler_dict h !! private k = Some v)
  ∧ (∀ k v, od_get k (_DEFAULT_SPEC_ATTRIBS cls) = Some v → k ∉ od_keys kwargs →
            k ≠ "version" → Some k ≠ snd <$> _INFOTYPE cls →
            handler_dict h !! private k = Some v)
  ∧ (∀ k, k ∈ handler_cosmetic_attribs h ↔
          k ∈ od_keys kwargs ∧ (k ∉ allowed_header_attribs cls)
          ∧ Some k ≠ snd <$> _INFOTYPE cls).
Proof.
  intros _ Hinit Hnd.
  destruct (handler_init_data _ _ _ _ _ _ Hinit Hnd)
    as (data & Hnd' & Hloop & Hgiven & Hdflt & Hin & Hout).
  apply header_loop in Hloop as (_ & Hstored & Hcos); [|done].
  split_and!.
  - intros k v Hget Hcast Hel. apply Hstored; [|done].
    apply od_get_Some_elem_of. by apply Hgiven.
  - intros k v Hget Hk Hver Hel. apply Hstored; [|done].
    apply od_get_Some_elem_of. by apply Hdflt.
  - intros k. rewrite Hcos. simpl. split.
    + intros [[]%elem_of_nil|(Hk & Hel & Hal)]. split_and!; [|done..]. by apply Hout.
    + intros (Hk & Hal & Hel). right. split_and!; [|done..]. apply Hin. by left.
Qed.

Lemma od_get_od_update {K V} `{EqDecision K} (k : K) (e d : list (K * V)) :
  NoDup (od_keys e) →
  od_get k (od_update e d)
  = match od_get k e with Some v => Some v | None => od_get k d end.
Proof.
  unfold od_update. revert d. induction e as [|[k0 v0] e IH]; intros d Hnd; simpl; [done|].
  unfold od_keys in Hnd. rewrite ?fmap_cons in Hnd. apply NoDup_cons in Hnd as [Hfresh Hnd].
  rewrite IH by done. destruct (decide (k = k0)) as [->|Hne].
  - simpl in Hfresh. apply od_get_None in Hfresh. rewrite Hfresh.
    by rewrite od_get_od_set, decide_True.
  - destruct (od_get k e); [done|]. by rewrite od_get_od_set, decide_False.
Qed.

Lemma od_get_fmap_value {K V W} `{EqDecision K} (f : V → W) (k : K) (d : list (K * V)) :
  od_get k ((λ kv, (kv.1, f kv.2)) <$> d) = f <$> od_get k d.
Proof. induction d as [|[k0 v0] d IH]; simpl; [done|]. by case_decide. Qed.

Lemma od_keys_fmap_value {K V W} (f : V → W) (d : list (K * V)) :
  od_keys ((λ kv, (kv.1, f kv.2)) <$> d) = od_keys d.
Proof. unfold od_keys. rewrite <-list_fmap_compose. done. Qed.

(** The loop that collects the header attributes, when every name to be
    written is an attribute of the object. *)
Lemma header_attributes_collected (cls : hclass) (self : handler) (names : list string) (acc : list (string * value)) :
  (∀ n, n ∈ names → is_Some (handler_dict self !! private n)) →
  NoDup (od_keys acc) →
  ∃ hd,
    foldM (λ header_attribute_dict header_attribute,
             value ← handler_getattr cls self (private header_attribute);
             Ok (od_set header_attribute value header_attribute_dict)) names acc = Ok hd
    ∧ NoDup (od_keys hd)
    ∧ ∀ k, od_get k hd = if decide (k ∈ names) then handler_dict self !! private k
                         else od_get k acc.
Proof.
  revert acc. induction names as [|n names IH]; intros acc Hall Hnd.
  - exists acc. split_and!; [done..|]. intros k.
    first [done|by rewrite decide_False by apply not_elem_of_nil].
  - destruct (Hall n) as [v Hv]; [left|]. rewrite foldM_cons.
    assert (handler_getattr cls self (private n) = Ok v) as ->
      by (unfold handler_getattr; by rewrite Hv).
    rewrite !outcome_bind_Ok.
    destruct (IH (od_set n v acc)) as (hd & -> & Hnd' & Hget).
    { intros n' Hn'. apply Hall. by right. }
    { by apply od_set_NoDup. }
    exists hd. split_and!; [done..|]. intros k. rewrite Hget.
    destruct (decide (k ∈ names)) as [Hk|Hk].
    + by rewrite decide_True by (by right).
    + rewrite od_get_od_set. destruct (decide (k = n)) as [->|Hne].
      * by rewrite decide_True by left.
      * rewrite decide_False; [done|]. by intros [?|?]%elem_of_cons.
Qed.

(** X9.  Writing out a handler that the constructor has returned, the
    keywords and the header attributes of the class being clear of the names
    the handler uses itself (a keyword [cosmetic_attribs] or [parameters]
    would replace the list of the cosmetic attributes or the parameter list,
    and [to_dict] fail), and the parameter objects hiding nothing of their
    class: [to_dict] succeeds when the parameter list serializes, and its
    result holds the serialized parameter list under the element name, every
    keyword that was given (cosmetic ones unless they are discarded; the
    keywords that are cast apart) with the value given, and every default
    that was not given.  The element name is supposed not to be a header
    attribute. *)
Theorem handler_to_dict_round_trip (fuel : nat) (cls : hclass) (pcls : _ParameterAttributeInitializer.pclass) (el : string) (allow_cosmetic_attributes skip_version_check discard_cosmetic_attributes : bool) (kwargs : list (string * value)) (h : handler) (_parameters : list instance) (parameter_list : list (list (string * value))) :
  Forall (clear_of handler_own_names) (od_keys kwargs ++ allowed_header_attribs cls) →
  Forall plain_object _parameters →
  __init__ fuel cls allow_cosmetic_attributes skip_version_check kwargs = Some (Ok h) →
  NoDup (od_keys kwargs) →
  _INFOTYPE cls = Some (pcls, el) →
  el ∉ allowed_header_attribs cls →
  ParameterList.to_list pcls discard_cosmetic_attributes _parameters = Ok parameter_list →
  ∃ smirnoff_data,
    to_dict cls discard_cosmetic_attributes h _parameters = Ok smirnoff_data
    ∧ od_get el smirnoff_data = Some (ParameterDicts parameter_list)
    ∧ (∀ k v, od_get k kwargs = Some v → k ∉ od_keys (_ATTRIBS_TO_TYPE cls) → k ≠ el →
              discard_cosmetic_attributes = false ∨ k ∈ allowed_header_attribs cls →
              od_get k smirnoff_data = Some (HeaderValue v))
    ∧ (∀ k v, od_get k (_DEFAULT_SPEC_ATTRIBS cls) = Some v → k ∉ od_keys kwargs →
              k ≠ "version" →
              od_get k smirnoff_data = Some (HeaderValue v)).
Proof.
  intros _ _ Hinit Hnd Hinfo Hel Hlist.
  destruct (handler_init_data _ _ _ _ _ _ Hinit Hnd)
    as (data & Hnd' & Hloop & Hgiven & Hdflt & Hin & Hout).
  apply header_loop in Hloop as (_ & Hstored & Hcos); [|done].
  rewrite Hinfo in Hstored, Hcos. simpl in Hstored, Hcos.
  assert (∀ k, k ∈ od_keys data → k ≠ el →
               is_Some (handler_dict h !! private k)) as Hdata.
  { intros k [v Hv]%od_get_is_Some Hne. apply od_get_Some_elem_of in Hv.
    rewrite (Hstored k v); [eauto|done|congruence]. }
  assert (∀ k, k ∈ allowed_header_attribs cls → k ≠ el) as Hallowed.
  { by intros k Hk ->. }
  set (names := header_attribs_to_return cls discard_cosmetic_attributes h).
  set (spec_names := (_REQUIRED_SPEC_ATTRIBS cls ++ od_keys (_DEFAULT_SPEC_ATTRIBS cls))
                     ++ filter (λ key, handler_hasattr h (private key) = true)
                          (_OPTIONAL_SPEC_ATTRIBS cls)).
  assert (∀ n, n ∈ spec_names → n ≠ el ∧ is_Some (handler_dict h !! private n)) as Hspec.
  { intros n. unfold spec_names. rewrite !elem_of_app, list_elem_of_filter.
    intros [[Hn|Hn]|[Hn Hopt]].
    - assert (n ≠ el) as Hne
        by (apply Hallowed; unfold allowed_header_attribs; rewrite !elem_of_app; auto).
      split; [done|]. apply Hdata; [|done]. apply Hin. auto.
    - assert (n ≠ el) as Hne
        by (apply Hallowed; unfold allowed_header_attribs; rewrite !elem_of_app; auto).
      split; [done|]. apply Hdata; [|done]. apply Hin. auto.
    - split.
      + apply Hallowed. unfold allowed_header_attribs. rewrite !elem_of_app. auto.
      + unfold handler_hasattr in Hn. by apply bool_decide_eq_true in Hn. }
  assert (∀ n, n ∈ names → n ≠ el ∧ is_Some (handler_dict h !! private n)) as Hnames.
  { intros n. unfold names, header_attribs_to_return. fold spec_names.
    destruct discard_cosmetic_attributes; simpl; [by apply Hspec|].
    rewrite elem_of_app. intros [Hn|Hn]; [by apply Hspec|].
    apply Hcos in Hn as [[]%elem_of_nil|(Hk & Hne & Hal)].
    assert (n ≠ el) by congruence. split; [done|]. by apply Hdata. }
  assert (∀ n, n ∈ spec_names → n ∈ names) as Hsub.
  { intros n Hn. unfold names, header_attribs_to_return. fold spec_names.
    destruct discard_cosmetic_attributes; simpl; [done|]. apply elem_of_app. by left. }
  destruct (header_attributes_collected cls h names [])
    as (hd & Hhd & Hndhd & Hget); [by intros n [_ ?]%Hnames|apply NoDup_nil_2|].
  unfold to_dict. rewrite Hinfo, Hlist. simpl.
  unfold header_attribute_dict. fold names. rewrite Hhd. simpl.
  eexists. split; [done|].
  assert (∀ k, od_get k (od_update ((λ kv, (kv.1, HeaderValue kv.2)) <$> hd)
                           [(el, ParameterDicts parameter_list)])
               = if decide (k ∈ names) then HeaderValue <$> handler_dict h !! private k
                 else if decide (k = el) then Some (ParameterDicts parameter_list)
                 else None) as Hsd.
  { intros k. rewrite od_get_od_update by (by rewrite od_keys_fmap_value).
    rewrite od_get_fmap_value, Hget. destruct (decide (k ∈ names)) as [Hk|Hk].
    - destruct (Hnames k Hk) as [_ [v ->]]. done.
    - simpl. done. }
  split_and!.
  - rewrite Hsd, decide_False, decide_True; [done..|]. by intros [? _]%Hnames.
  - intros k v Hk Hcast Hne Hvis. rewrite Hsd.
    assert (k ∈ od_keys kwargs) as Hkin by (apply od_get_is_Some; eauto).
    rewrite (Hstored k v);
      [|by apply od_get_Some_elem_of, Hgiven|congruence].
    rewrite decide_True; [done|].
    destruct (decide (k ∈ allowed_header_attribs cls)) as [Hal|Hal].
    + apply Hsub. unfold allowed_header_attribs in Hal. rewrite !elem_of_app in Hal.
      unfold spec_names. rewrite !elem_of_app, list_elem_of_filter.
      destruct Hal as [?|[?|?]]; [auto..|]. right. split; [|done].
      unfold handler_hasattr. apply bool_decide_eq_true. apply Hdata; [|done].
      apply Hin. auto.
    + destruct Hvis as [->|?]; [|done]. unfold names, header_attribs_to_return.
      simpl. apply elem_of_app. right.
      apply Hcos. right. split_and!; [apply Hin; auto|congruence|done].
  - intros k v Hk Hnot Hver. rewrite Hsd.
    assert (k ∈ od_keys (_DEFAULT_SPEC_ATTRIBS cls)) as Hkin
      by (apply od_get_is_Some; eauto).
    assert (k ≠ el) as Hne
      by (apply Hallowed; unfold allowed_header_attribs; rewrite !elem_of_app; auto).
    rewrite (Hstored k v);
      [|by apply od_get_Some_elem_of, Hdflt|congruence].
    rewrite decide_True; [done|]. apply Hsub.
    unfold spec_names. rewrite !elem_of_app. auto.
Qed.

End handler_init.

Module HandlerExamples.
Import ParameterHandler.

(** [BondHandler(version=0.3, k1=...)] *)
Definition indexed_kwargs : list (string * value) :=
  [("version", num (3 # 10)); ("k1", num 10)].

(** [BondHandler(version=0.3, potential='harmonic', author='me',
    allow_cosmetic_attributes=True)] *)
Definition commented_kwargs : list (string * value) :=
  [("version", num (3 # 10)); ("potential", VStr "harmonic"); ("author", VStr "me")].

Definition commented_handler : handler :=
  Handler (list_to_map
             [("_version", num (3 # 10));
              ("_potential", VStr "harmonic");
              ("_author", VStr "me");
              ("_fractional_bondorder_method", VNone);
              ("_fractional_bondorder_interpolation", VStr "linear")]) ["author"].

End HandlerExamples.

Lemma handler_init_never_returns_witness :
  (∀ h, ParameterHandler.__init__ 1000 BondHandler.cls false false
          HandlerExamples.indexed_kwargs ≠ Some (Ok h))
  ∧ ((∀ a, a ∈ ParameterHandler._REQUIRED_SPEC_ATTRIBS BondHandler.cls →
           a ∈ od_keys HandlerExamples.indexed_kwargs) →
     (∀ v, od_get "version" HandlerExamples.indexed_kwargs = Some v →
           ParameterHandler._check_section_version_compatibility BondHandler.cls v = Ok ()) →
     ParameterHandler.__init__ 1000 BondHandler.cls false false
       HandlerExamples.indexed_kwargs = None).
Proof.
  apply (handler_init_never_returns 1000 BondHandler.cls false false
           HandlerExamples.indexed_kwargs "k").
  - apply (bool_decide_unpack _). vm_compute. reflexivity.
  - apply (bool_decide_unpack _). vm_compute. reflexivity.
Defined.

Example commented_handler_init :
  ParameterHandler.__init__ 0 BondHandler.cls true false HandlerExamples.commented_kwargs
  = Some (Ok HandlerExamples.commented_handler).
Proof. vm_compute. reflexivity. Qed.

Lemma handler_init_stores_witness :
  (∀ k v, od_get k HandlerExamples.commented_kwargs = Some v →
          k ∉ od_keys (ParameterHandler._ATTRIBS_TO_TYPE BondHandler.cls) →
          Some k ≠ snd <$> ParameterHandler._INFOTYPE BondHandler.cls →
          ParameterHandler.handler_dict HandlerExamples.commented_handler !! private k = Some v)
  ∧ (∀ k v, od_get k (ParameterHandler._DEFAULT_SPEC_ATTRIBS BondHandler.cls) = Some v →
            k ∉ od_keys HandlerExamples.commented_kwargs →
            k ≠ "version" → Some k ≠ snd <$> ParameterHandler._INFOTYPE BondHandler.cls →
            ParameterHandler.handler_dict HandlerExamples.commented_handler !! private k = Some v)
  ∧ (∀ k, k ∈ ParameterHandler.handler_cosmetic_attribs HandlerExamples.commented_handler ↔
          k ∈ od_keys HandlerExamples.commented_kwargs
          ∧ (k ∉ allowed_header_attribs BondHandler.cls)
          ∧ Some k ≠ snd <$> ParameterHandler._INFOTYPE BondHandler.cls).
Proof.
  apply (handler_init_stores 0 BondHandler.cls true false HandlerExamples.commented_kwargs
           HandlerExamples.commented_handler).
  - apply (bool_decide_unpack _). vm_compute. reflexivity.
  - vm_compute. reflexivity.
  - apply (bool_decide_unpack _). vm_compute. reflexivity.
Defined.

Lemma handler_to_dict_round_trip_witness :
  ∃ smirnoff_data,
    ParameterHandler.to_dict BondHandler.cls false HandlerExamples.commented_handler
      [Examples.generic_bond] = Ok smirnoff_data
    ∧ od_get "Bond" smirnoff_data
      = Some (ParameterHandler.ParameterDicts
                [[("smirks", VStr "[*:1]~[*:2]"); ("length", num 1); ("k", num 10)]])
    ∧ (∀ k v, od_get k HandlerExamples.commented_kwargs = Some v →
              k ∉ od_keys (ParameterHandler._ATTRIBS_TO_TYPE BondHandler.cls) → k ≠ "Bond" →
              false = false ∨ k ∈ allowed_header_attribs BondHandler.cls →
              od_get k smirnoff_data = Some (ParameterHandler.HeaderValue v))
    ∧ (∀ k v, od_get k (ParameterHandler._DEFAULT_SPEC_ATTRIBS BondHandler.cls) = Some v →
              k ∉ od_keys HandlerExamples.commented_kwargs → k ≠ "version" →
              od_get k smirnoff_data = Some (ParameterHandler.HeaderValue v)).
Proof.
  apply (handler_to_dict_round_trip 0 BondHandler.cls ParameterType.BondType "Bond"
           true false false HandlerExamples.commented_kwargs
           HandlerExamples.commented_handler [Examples.generic_bond]).
  - apply (bool_decide_unpack _). vm_compute. reflexivity.
  - apply (bool_decide_unpack _). vm_compute. reflexivity.
  - vm_compute. reflexivity.
  - apply (bool_decide_unpack _). vm_compute. reflexivity.
  - reflexivity.
  - apply (bool_decide_unpack _). vm_compute. reflexivity.
  - vm_compute. reflexivity.
Defined.

(** The handler of the example, written out. *)
Example commented_handler_to_dict :
  ParameterHandler.to_dict BondHandler.cls false HandlerExamples.commented_handler
    [Examples.generic_bond]
  = Ok [("Bond", ParameterHandler.ParameterDicts
                   [[("smirks", VStr "[*:1]~[*:2]"); ("length", num 1); ("k", num 10)]]);
        ("version", ParameterHandler.HeaderValue (num (3 # 10)));
        ("potential", ParameterHandler.HeaderValue (VStr "harmonic"));
        ("fractional_bondorder_method", ParameterHandler.HeaderValue VNone);
        ("fractional_bondorder_interpolation", ParameterHandler.HeaderValue (VStr "linear"));
        ("author", ParameterHandler.HeaderValue (VStr "me"))].
Proof. vm_compute. reflexivity. Qed.

(** ** [ParameterList]: access by SMIRKS *)
Section parameter_list.
Import ParameterAttribute _ParameterAttributeInitializer ParameterList.
Context `{External}.
Context (pcls : pclass).

(** A parameter object whose SMIRKS can be read and differs from [item]. *)
Definition other_smirks (item : value) (y : instance) : Prop :=
  ∃ s, smirks pcls y = Ok s ∧ s ≠ item.

Lemma index_from_split (l : list instance) (item : value) (pos i : nat) :
  index_from pcls l item pos = Ok i ↔
  ∃ l1 x l2, l = l1 ++ x :: l2 ∧ i = pos + length l1
             ∧ smirks pcls x = Ok item ∧ Forall (other_smirks item) l1.
Proof.
  revert pos. induction l as [|y l IH]; intros pos; simpl.
  - split; [done|]. intros (l1 & x & l2 & Hl & _). by destruct l1.
  - destruct (smirks pcls y) as [s|e] eqn:Hy; simpl.
    + destruct (decide (s = item)) as [->|Hne].
      * split.
        -- intros [= <-]. exists [], y, l. split_and!; [done|simpl; lia|done|constructor].
        -- intros (l1 & x & l2 & Hl & -> & Hx & Hl1). destruct l1 as [|y' l1].
           ++ simpl. f_equal. lia.
           ++ injection Hl as <- _. apply Forall_cons in Hl1 as [(s & Hs & Hne) _]. congruence.
      * rewrite IH. split.
        -- intros (l1 & x & l2 & -> & -> & Hx & Hl1). exists (y :: l1), x, l2.
           split_and!; [done|simpl; lia|done|]. constructor; [by exists s|done].
        -- intros (l1 & x & l2 & Hl & -> & Hx & Hl1). destruct l1 as [|y' l1].
           ++ injection Hl as <- _. congruence.
           ++ injection Hl as <- ->. apply Forall_cons in Hl1 as [_ Hl1].
              exists l1, x, l2. split_and!; [done|simpl; lia|done..].
    + split; [done|]. intros (l1 & x & l2 & Hl & _ & Hx & Hl1). destruct l1 as [|y' l1].
      * injection Hl as <- _. congruence.
      * injection Hl as <- _. apply Forall_cons in Hl1 as [(s & Hs & _) _]. congruence.
Qed.

Lemma index_from_absent (l : list instance) (item : value) (pos : nat) :
  Forall (other_smirks item) l →
  ∃ msg, index_from pcls l item pos = Raise (Exn IndexError msg).
Proof.
  revert pos. induction l as [|y l IH]; intros pos Hl; simpl; [by eexists|].
  apply Forall_cons in Hl as [(s & -> & Hne) Hl]. simpl.
  rewrite decide_False by done. by apply IH.
Qed.

(** X10.  Access by SMIRKS goes to the first parameter object that has it:
    [index(item)] returns the position [i], and [self[item]] the object [x],
    exactly when [x] stands at [i], its SMIRKS equals [item] and every
    object before it has another SMIRKS.  When every object of the list has
    another SMIRKS, [index] raises an [IndexError]. *)
Theorem index_first_match (l : list instance) (item : value) :
  (∀ i, index pcls l item = Ok i ↔
        ∃ l1 x l2, l = l1 ++ x :: l2 ∧ i = length l1
                   ∧ smirks pcls x = Ok item ∧ Forall (other_smirks item) l1)
  ∧ (∀ x, __getitem__ pcls l item = Ok x ↔
          ∃ l1 l2, l = l1 ++ x :: l2
                   ∧ smirks pcls x = Ok item ∧ Forall (other_smirks item) l1)
  ∧ (Forall (other_smirks item) l →
     ∃ msg, index pcls l item = Raise (Exn IndexError msg)).
Proof.
  split_and!.
  - intros i. unfold index. rewrite index_from_split. naive_solver.
  - intros x. unfold __getitem__, index.
    destruct (index_from pcls l item 0) as [i|e] eqn:Hi; simpl.
    + apply index_from_split in Hi as (l1 & x' & l2 & -> & -> & Hx' & Hl1). simpl.
      rewrite (list_lookup_middle l1 l2 x' (length l1) eq_refl). split.
      * intros [= <-]. eauto.
      * intros (l1' & l2' & Hl & Hx & Hl1'). f_equal.
        assert (index_from pcls (l1 ++ x' :: l2) item 0 = Ok (length l1')) as H1.
        { apply index_from_split. exists l1', x, l2'. split_and!; done. }
        assert (index_from pcls (l1 ++ x' :: l2) item 0 = Ok (length l1)) as H2.
        { apply index_from_split. exists l1, x', l2. split_and!; done. }
        rewrite H1 in H2. injection H2 as Hlen.
        apply (f_equal (λ l, l !! length l1)) in Hl.
        rewrite (list_lookup_middle l1 l2 x' _ eq_refl) in Hl.
        rewrite (list_lookup_middle l1' l2' x _ (eq_sym Hlen)) in Hl. congruence.
    + split; [done|]. intros (l1 & l2 & Hl & Hx & Hl1).
      assert (index_from pcls l item 0 = Ok (length l1)) as H1.
      { apply index_from_split. exists l1, x, l2. split_and!; done. }
      congruence.
  - apply index_from_absent.
Qed.

(** X11.  [del self[item]] takes out the first parameter object whose
    SMIRKS is [item], and nothing else: it returns the list [l1 ++ l2]
    exactly when the list is [l1 ++ x :: l2], the SMIRKS of [x] is [item]
    and the objects of [l1] have other SMIRKS. *)
Theorem delitem_first_match (l l' : list instance) (item : value) :
  __delitem__ pcls l item = Ok l' ↔
  ∃ l1 x l2, l = l1 ++ x :: l2 ∧ l' = l1 ++ l2
             ∧ smirks pcls x = Ok item ∧ Forall (other_smirks item) l1.
Proof.
  unfold __delitem__, index.
  destruct (index_from pcls l item 0) as [i|e] eqn:Hi; simpl.
  - apply index_from_split in Hi as (l1 & x & l2 & -> & -> & Hx & Hl1). simpl.
    rewrite (list_lookup_middle l1 l2 x (length l1) eq_refl), delete_middle. split.
    + intros [= <-]. exists l1, x, l2. done.
    + intros (l1' & x' & l2' & Hl & -> & Hx' & Hl1'). f_equal.
      assert (index_from pcls (l1 ++ x :: l2) item 0 = Ok (length l1')) as H1.
      { apply index_from_split. exists l1', x', l2'. split_and!; done. }
      assert (index_from pcls (l1 ++ x :: l2) item 0 = Ok (length l1)) as H2.
      { apply index_from_split. exists l1, x, l2. split_and!; done. }
      rewrite H1 in H2. injection H2 as Hlen.
      apply (f_equal (delete (length l1))) in Hl.
      rewrite delete_middle in Hl. rewrite <-Hlen, delete_middle in Hl. done.
  - split; [done|]. intros (l1 & x & l2 & Hl & _ & Hx & Hl1).
    assert (index_from pcls l item 0 = Ok (length l1)) as H1.
    { apply index_from_split. exists l1, x, l2. split_and!; done. }
    congruence.
Qed.

End parameter_list.

(** ** Cosmetic attributes and descriptors *)
Section attributes.
Import ParameterAttribute _ParameterAttributeInitializer.
Context `{External}.

Lemma list_remove_first_app (n : string) (l : list string) :
  n ∉ l → list_remove_first n (l ++ [n]) = Some l.
Proof.
  induction l as [|y l IH]; intros Hn; simpl.
  - by rewrite decide_True.
  - apply not_elem_of_cons in Hn as [Hne Hn]. rewrite decide_False by done.
    by rewrite IH.
Qed.

Lemma list_remove_first_None (n : string) (l : list string) :
  n ∉ l → list_remove_first n l = None.
Proof.
  induction l as [|y l IH]; intros Hn; simpl; [done|].
  apply not_elem_of_cons in Hn as [Hne Hn]. rewrite decide_False by done.
  by rewrite IH.
Qed.

(** X12.  Adding a cosmetic attribute under a new name, clear of the
    names the object uses itself ([cosmetic_attribs] above all: under that
    name the value would replace the list of the cosmetic attributes), and
    deleting it again gives back the object as it was. *)
Theorem cosmetic_attribute_add_delete (x : instance) (attr_name : string) (attr_value : value) :
  clear_of parameter_own_names attr_name →
  attr_name ∉ _cosmetic_attribs x →
  inst_dict x !! private attr_name = None →
  delete_cosmetic_attribute (add_cosmetic_attribute x attr_name attr_value) attr_name
  = (x, Ok ()).
Proof.
  intros _ Hn Hd. unfold delete_cosmetic_attribute, add_cosmetic_attribute. simpl.
  rewrite lookup_insert_eq, list_remove_first_app by done. simpl.
  rewrite delete_insert_id by done. by destruct x.
Qed.

(** X13.  [delete_cosmetic_attribute] called with the name of a parameter
    attribute that holds a value (and is no cosmetic attribute) raises a
    [ValueError], and the object has lost the value by then: the attribute
    reads as its default, or raises an [AttributeError] when it has none. *)
Theorem delete_cosmetic_attribute_of_parameter (x : instance) (d : descriptor) (v : value) :
  inst_dict x !! private (name (info d)) = Some v →
  name (info d) ∉ _cosmetic_attribs x →
  ∃ x' msg,
    delete_cosmetic_attribute x (name (info d)) = (x', Raise (Exn ValueError msg))
    ∧ __get__ d x = Ok v
    ∧ __get__ d x' = match default_value (info d) with
                     | Some dflt => Ok dflt
                     | None => Raise (Exn AttributeError (private (name (info d))))
                     end.
Proof.
  intros Hv Hn. unfold delete_cosmetic_attribute. rewrite Hv. simpl.
  rewrite list_remove_first_None by done. eexists _, _. split_and!; [done| |].
  - unfold __get__. by rewrite Hv.
  - unfold __get__. simpl. by rewrite lookup_delete_eq.
Qed.

(** X14.  Assigning to an attribute stores the converted and validated
    value: after [x.name = v] has succeeded, [x.name] reads as what
    [_convert_and_validate] made of [v]; the attributes of other names and
    the cosmetic attributes are as before. *)
Theorem descriptor_set_get (d : descriptor) (x x' : instance) (v : value) :
  __set__ d x v = Ok x' →
  __get__ d x' = _convert_and_validate d x v
  ∧ (∀ d', name (info d') ≠ name (info d) → __get__ d' x' = __get__ d' x)
  ∧ _cosmetic_attribs x' = _cosmetic_attribs x.
Proof.
  unfold __set__. destruct (_convert_and_validate d x v) as [w|]; simpl; [|done].
  intros [= <-]. split_and!; [|intros d' Hne|done]; unfold __get__; simpl.
  - by rewrite lookup_insert_eq.
  - rewrite lookup_insert_ne; [done|]. intros Heq%private_inj. done.
Qed.

(** X15.  The default of an attribute can always be assigned: it is stored
    as it is, without the check of the units and without a call of the
    converter, by plain and by indexed attributes alike. *)
Theorem descriptor_set_default (d : descriptor) (x : instance) (dflt : value) :
  default_value (info d) = Some dflt →
  __set__ d x dflt
  = Ok (Instance (<[private (name (info d)) := dflt]> (inst_dict x)) (_cosmetic_attribs x))
  ∧ __get__ d (Instance (<[private (name (info d)) := dflt]> (inst_dict x))
                        (_cosmetic_attribs x)) = Ok dflt.
Proof.
  intros Hd. split.
  - unfold __set__, _convert_and_validate, indexed_convert_and_validate,
      scalar_convert_and_validate, _is_valid_default.
    rewrite Hd, bool_decide_eq_true_2 by done. by destruct (indexed d).
  - unfold __get__. simpl. by rewrite lookup_insert_eq.
Qed.

End attributes.

Lemma index_first_match_witness :
  ParameterList.index ParameterType.BondType
    [Examples.generic_bond; Examples.carbon_bond; Examples.carbon_bond]
    (VStr "[#6:1]-[#6:2]") = Ok 1.
Proof.
  apply (proj1 (index_first_match ParameterType.BondType
                  [Examples.generic_bond; Examples.carbon_bond; Examples.carbon_bond]
                  (VStr "[#6:1]-[#6:2]"))).
  exists [Examples.generic_bond], Examples.carbon_bond, [Examples.carbon_bond].
  split_and!; [reflexivity..|].
  repeat constructor. exists (VStr "[*:1]~[*:2]"). split; [reflexivity|discriminate].
Defined.

Lemma delitem_first_match_witness :
  ParameterList.__delitem__ ParameterType.BondType
    [Examples.generic_bond; Examples.carbon_bond; Examples.carbon_bond]
    (VStr "[#6:1]-[#6:2]")
  = Ok [Examples.generic_bond; Examples.carbon_bond].
Proof.
  apply (delitem_first_match ParameterType.BondType).
  exists [Examples.generic_bond], Examples.carbon_bond, [Examples.carbon_bond].
  split_and!; [reflexivity..|].
  repeat constructor. exists (VStr "[*:1]~[*:2]"). split; [reflexivity|discriminate].
Defined.

Lemma cosmetic_attribute_add_delete_witness :
  _ParameterAttributeInitializer.delete_cosmetic_attribute
    (_ParameterAttributeInitializer.add_cosmetic_attribute Examples.generic_bond
       "comment" (VStr "fitted by hand")) "comment"
  = (Examples.generic_bond, Ok ()).
Proof.
  apply (cosmetic_attribute_add_delete Examples.generic_bond "comment"
           (VStr "fitted by hand")).
  - apply (bool_decide_unpack _). vm_compute. reflexivity.
  - apply (bool_decide_unpack _). vm_compute. reflexivity.
  - vm_compute. reflexivity.
Defined.

Lemma delete_cosmetic_attribute_of_parameter_witness :
  ∃ x' msg,
    _ParameterAttributeInitializer.delete_cosmetic_attribute Examples.generic_bond "k"
    = (x', Raise (Exn ValueError msg))
    ∧ ParameterAttribute.__get__
        (ParameterType.attribute "k" None (Some kilocalorie_per_mole_per_angstrom2) None)
        Examples.generic_bond = Ok (num 10)
    ∧ ParameterAttribute.__get__
        (ParameterType.attribute "k" None (Some kilocalorie_per_mole_per_angstrom2) None) x'
      = Raise (Exn AttributeError "_k").
Proof.
  apply (delete_cosmetic_attribute_of_parameter Examples.generic_bond
           (ParameterType.attribute "k" None (Some kilocalorie_per_mole_per_angstrom2) None)
           (num 10)).
  - vm_compute. reflexivity.
  - apply (bool_decide_unpack _). vm_compute. reflexivity.
Defined.

Lemma descriptor_set_get_witness :
  ParameterAttribute.__get__
    (ParameterType.attribute "k" None (Some kilocalorie_per_mole_per_angstrom2) None)
    (Examples.object [("smirks", VStr "[*:1]~[*:2]"); ("length", num 1); ("k", num 20)])
  = ParameterAttribute._convert_and_validate
      (ParameterType.attribute "k" None (Some kilocalorie_per_mole_per_angstrom2) None)
      Examples.generic_bond (num 20)
  ∧ (∀ d', ParameterAttribute.name (ParameterAttribute.info d') ≠ "k" →
           ParameterAttribute.__get__ d'
             (Examples.object [("smirks", VStr "[*:1]~[*:2]"); ("length", num 1); ("k", num 20)])
           = ParameterAttribute.__get__ d' Examples.generic_bond)
  ∧ _cosmetic_attribs
      (Examples.object [("smirks", VStr "[*:1]~[*:2]"); ("length", num 1); ("k", num 20)])
    = _cosmetic_attribs Examples.generic_bond.
Proof.
  apply (descriptor_set_get
           (ParameterType.attribute "k" None (Some kilocalorie_per_mole_per_angstrom2) None)
           Examples.generic_bond).
  vm_compute. reflexivity.
Defined.

Lemma descriptor_set_default_witness :
  ParameterAttribute.__set__
    (ParameterType.indexed_attribute "idivf" (Some VNone) None
       (Some (ParameterAttribute.free_function py_float)))
    TorsionExamples.two_term_torsion VNone
  = Ok (Instance (<[private "idivf" := VNone]> (inst_dict TorsionExamples.two_term_torsion))
                 (_cosmetic_attribs TorsionExamples.two_term_torsion))
  ∧ ParameterAttribute.__get__
      (ParameterType.indexed_attribute "idivf" (Some VNone) None
         (Some (ParameterAttribute.free_function py_float)))
      (Instance (<[private "idivf" := VNone]> (inst_dict TorsionExamples.two_term_torsion))
                (_cosmetic_attribs TorsionExamples.two_term_torsion))
    = Ok VNone.
Proof.
  apply (descriptor_set_default
           (ParameterType.indexed_attribute "idivf" (Some VNone) None
              (Some (ParameterAttribute.free_function py_float)))
           TorsionExamples.two_term_torsion VNone).
  reflexivity.
Defined.

(** ** The torsion handlers: sequences of unequal length, missing divisors *)
Section torsion_terms.
Import ParameterHandler.
Context `{External}.

Lemma length_zip4 {A} (a b c d : list A) :
  length (zip4 a b c d) = Nat.min (Nat.min (length a) (length b)) (Nat.min (length c) (length d)).
Proof.
  revert b c d. induction a as [|x a IH]; intros [|y b] [|z c] [|u d]; simpl; try lia.
  rewrite IH. lia.
Qed.

Lemma create_torsion_run (force a0 a1 a2 a3 : nat) (m : Match) (x : instance) (ps phs ks ds : list value) (w : world) :
  _assert_correct_connectivity m None = Ok () →
  parameters w !! parameter_type m = Some x →
  record_getattr ParameterType.ProperTorsionType x "periodicity" = Ok (VList ps) →
  record_getattr ParameterType.ProperTorsionType x "phase" = Ok (VList phs) →
  record_getattr ParameterType.ProperTorsionType x "k" = Ok (VList ks) →
  record_getattr ParameterType.ProperTorsionType x "idivf" = Ok (VList ds) →
  ProperTorsionHandler.create_torsion force ([a0; a1; a2; a3], m) w
  = forM (zip4 ps phs ks ds)
         (ProperTorsionHandler.add_torsion_term force [a0; a1; a2; a3]) w.
Proof.
  intros Hconn Hx Hps Hphs Hks Hds.
  unfold ProperTorsionHandler.create_torsion.
  rewrite (bind_lift_Ok _ () _ _ Hconn).
  unfold mbind at 1, M_bind at 1, get_parameter. rewrite Hx.
  erewrite bind_lift_Ok; [done|].
  unfold ProperTorsionHandler.zipped_terms. rewrite Hps, Hphs, Hks, Hds. done.
Qed.

(** One pass of the loop for a matched proper torsion whose [idivf] was
    never set (it reads as the default, [None]): a [TypeError] at the [zip]
    of the four sequences, and no term. *)
Lemma create_torsion_without_idivf (force : nat) (atom_indices : list nat) (m : Match) (x : instance) (ps phs ks : list value) (w : world) :
  _assert_correct_connectivity m None = Ok () →
  parameters w !! parameter_type m = Some x →
  record_getattr ParameterType.ProperTorsionType x "periodicity" = Ok (VList ps) →
  record_getattr ParameterType.ProperTorsionType x "phase" = Ok (VList phs) →
  record_getattr ParameterType.ProperTorsionType x "k" = Ok (VList ks) →
  record_getattr ParameterType.ProperTorsionType x "idivf" = Ok VNone →
  ∃ msg, ProperTorsionHandler.create_torsion force (atom_indices, m) w
         = (w, Raise (Exn TypeError msg)).
Proof.
  intros Hconn Hx Hps Hphs Hks Hds.
  unfold ProperTorsionHandler.create_torsion.
  rewrite (bind_lift_Ok _ () _ _ Hconn).
  unfold mbind at 1, M_bind at 1, get_parameter. rewrite Hx.
  eexists. erewrite bind_lift_Raise; [done|].
  unfold ProperTorsionHandler.zipped_terms. rewrite Hps, Hphs, Hks, Hds. done.
Qed.

(** One pass of the loop for a matched proper torsion: one term per
    element of [zip(periodicity, phase, k, idivf)], as many as the shortest
    of the four sequences has elements (no divisor among them being
    ['auto'], every quotient defined). *)
Lemma create_torsion_zip_truncates (force a0 a1 a2 a3 : nat) (m : Match) (x : instance) (ps phs ks ds kds : list value) (w : world) :
  _assert_correct_connectivity m None = Ok () →
  parameters w !! parameter_type m = Some x →
  record_getattr ParameterType.ProperTorsionType x "periodicity" = Ok (VList ps) →
  record_getattr ParameterType.ProperTorsionType x "phase" = Ok (VList phs) →
  record_getattr ParameterType.ProperTorsionType x "k" = Ok (VList ks) →
  record_getattr ParameterType.ProperTorsionType x "idivf" = Ok (VList ds) →
  Forall2 (λ (t : value * value * value * value) kd,
             t.2 ≠ VStr "auto" ∧ py_truediv t.1.2 t.2 = Ok kd)
          (zip4 ps phs ks ds) kds →
  ProperTorsionHandler.create_torsion force ([a0; a1; a2; a3], m) w
  = (with_terms force
       (zip_with (λ (t : value * value * value * value) kd,
                    TorsionTerm a0 a1 a2 a3 t.1.1.1 t.1.1.2 kd)
                 (zip4 ps phs ks ds) kds) w, Ok ())
  ∧ length (zip_with (λ (t : value * value * value * value) kd,
                        TorsionTerm a0 a1 a2 a3 t.1.1.1 t.1.1.2 kd)
                     (zip4 ps phs ks ds) kds)
    = Nat.min (Nat.min (length ps) (length phs)) (Nat.min (length ks) (length ds)).
Proof.
  intros Hconn Hx Hps Hphs Hks Hds Hall. split.
  - rewrite (create_torsion_run force a0 a1 a2 a3 m x ps phs ks ds w) by done.
    by apply add_torsion_terms_ok.
  - rewrite length_zip_with, <-(Forall2_length _ _ _ Hall), length_zip4. lia.
Qed.

(** The three terms the improper handler adds for one term of the
    parameter: the central atom [a1] first, the others in their three cyclic
    orders. *)
Definition trefoil (a0 a1 a2 a3 : nat) (periodicity phase kd : value) : list term :=
  [TorsionTerm a1 a0 a2 a3 periodicity phase kd;
   TorsionTerm a1 a2 a3 a0 periodicity phase kd;
   TorsionTerm a1 a3 a0 a2 periodicity phase kd].

(** The divisor the improper handler uses. *)
Definition improper_divisor (idivf : value) : value :=
  if decide (idivf = VStr "auto") then num 3 else idivf.

Lemma add_trefoil_ok (f a0 a1 a2 a3 : nat) (t : value * value * value * value) (kd : value) (w : world) :
  py_truediv t.1.2 (improper_divisor t.2) = Ok kd →
  ImproperTorsionHandler.add_trefoil f [a0; a1; a2; a3] t w
  = (with_terms f (trefoil a0 a1 a2 a3 t.1.1.1 t.1.1.2 kd) w, Ok ()).
Proof.
  destruct t as [[[p ph] k] d]. unfold improper_divisor. simpl. intros Hdiv.
  unfold ImproperTorsionHandler.add_trefoil.
  unfold mbind, M_bind, lift, tuple_get. simpl. rewrite Hdiv. simpl.
  unfold add_term, modify, with_terms, trefoil, mret, M_ret. simpl.
  rewrite !list_alter_alter_eq. f_equal. f_equal. apply list_alter_ext; [|done].
  intros [kf ts] _. simpl. by rewrite <-!app_assoc.
Qed.

Lemma add_trefoils_ok (f a0 a1 a2 a3 : nat) (ts : list (value * value * value * value)) (kds : list value) (w : world) :
  Forall2 (λ t kd, py_truediv t.1.2 (improper_divisor t.2) = Ok kd) ts kds →
  forM ts (ImproperTorsionHandler.add_trefoil f [a0; a1; a2; a3]) w
  = (with_terms f
       (concat (zip_with (λ t kd, trefoil a0 a1 a2 a3 t.1.1.1 t.1.1.2 kd) ts kds)) w,
     Ok ()).
Proof.
  intros Hall. revert w. induction Hall as [|t kd ts kds Hdiv _ IH]; intros w.
  - simpl. by rewrite with_terms_nil.
  - cbn [forM zip_with concat]. unfold mbind at 1, M_bind at 1.
    rewrite (add_trefoil_ok f a0 a1 a2 a3 t kd w Hdiv).
    rewrite IH, with_terms_app. done.
Qed.

Lemma length_concat_trefoil (a0 a1 a2 a3 : nat) (ts : list (value * value * value * value)) (kds : list value) :
  length ts = length kds →
  length (concat (zip_with (λ t kd, trefoil a0 a1 a2 a3 t.1.1.1 t.1.1.2 kd) ts kds))
  = 3 * length ts.
Proof.
  revert kds. induction ts as [|t ts IH]; intros [|kd kds]; simpl; try done.
  intros [= Hlen]. rewrite IH by done. lia.
Qed.

(** One pass of the loop for a matched improper torsion with atoms
    [(a0, a1, a2, a3)] whose [idivf] is set: three terms per element of
    [zip(periodicity, phase, k, idivf)], and nothing else changes. *)
Lemma create_improper_trefoil (force a0 a1 a2 a3 : nat) (m : Match) (x : instance) (ps phs ks ds kds : list value) (w : world) :
  _assert_correct_connectivity m (Some [(0, 1); (1, 2); (1, 3)]) = Ok () →
  parameters w !! parameter_type m = Some x →
  record_getattr ParameterType.ImproperTorsionType x "periodicity" = Ok (VList ps) →
  record_getattr ParameterType.ImproperTorsionType x "phase" = Ok (VList phs) →
  record_getattr ParameterType.ImproperTorsionType x "k" = Ok (VList ks) →
  record_getattr ParameterType.ImproperTorsionType x "idivf" = Ok (VList ds) →
  Forall2 (λ (t : value * value * value * value) kd,
             py_truediv t.1.2 (improper_divisor t.2) = Ok kd)
          (zip4 ps phs ks ds) kds →
  ImproperTorsionHandler.create_improper force ([a0; a1; a2; a3], m) w
  = (with_terms force
       (concat (zip_with (λ (t : value * value * value * value) kd,
                            trefoil a0 a1 a2 a3 t.1.1.1 t.1.1.2 kd)
                         (zip4 ps phs ks ds) kds)) w, Ok ())
  ∧ length (concat (zip_with (λ (t : value * value * value * value) kd,
                                trefoil a0 a1 a2 a3 t.1.1.1 t.1.1.2 kd)
                             (zip4 ps phs ks ds) kds))
    = 3 * (Nat.min (Nat.min (length ps) (length phs)) (Nat.min (length ks) (length ds))).
Proof.
  intros Hconn Hx Hps Hphs Hks Hds Hall. split.
  - unfold ImproperTorsionHandler.create_improper.
    rewrite (bind_lift_Ok _ () _ _ Hconn).
    unfold mbind at 1, M_bind at 1, ImproperTorsionHandler.default_idivf.
    unfold mbind at 1, M_bind at 1, get_parameter. rewrite Hx.
    rewrite (bind_lift_Ok _ (VList ds) _ _ Hds). rewrite decide_False by done.
    unfold mret, M_ret. unfold mbind at 1, M_bind at 1. rewrite Hx.
    erewrite bind_lift_Ok;
      [|unfold ProperTorsionHandler.zipped_terms; rewrite Hps, Hphs, Hks, Hds; done].
    by apply add_trefoils_ok.
  - rewrite length_concat_trefoil by (by eapply Forall2_length).
    by rewrite length_zip4.
Qed.

End torsion_terms.

Module TruncationExamples.
Import ParameterHandler Exact.

(** Two periodicities and phases, one force constant. *)
Definition lopsided_torsion : instance :=
  Examples.object
    [("smirks", VStr "[*:1]-[*:2]-[*:3]-[*:4]");
     ("periodicity", VList [num 2; num 3]);
     ("phase", VList [num 0; num 180]);
     ("k", VList [num 1]);
     ("idivf", VList [num 1; num 2])].

(** An improper with the divisor 2. *)
Definition halved_improper : instance :=
  Examples.object
    [("smirks", VStr "[*:1]~[#6:2](~[*:3])~[*:4]");
     ("periodicity", VList [num 2]);
     ("phase", VList [num 180]);
     ("k", VList [num 3]);
     ("idivf", VList [num 2])].

End TruncationExamples.

(** The lopsided torsion gives one term. *)
Example lopsided_torsion_one_term :
  ProperTorsionHandler.create_torsion 0
    ([0; 1; 2; 3], ParameterHandler._Match 0 TorsionExamples.quartet)
    (World [TruncationExamples.lopsided_torsion] [Force PeriodicTorsionForce []] [] [])
  = (World [TruncationExamples.lopsided_torsion]
       [Force PeriodicTorsionForce [TorsionTerm 0 1 2 3 (num 2) (num 0) (num 1)]] [] [],
     Ok ()).
Proof. vm_compute. reflexivity. Qed.

(** The three terms of the example. *)
Example halved_improper_terms :
  ImproperTorsionHandler.create_improper 0
    ([0; 1; 2; 3], ParameterHandler._Match 0 TorsionExamples.quartet)
    (World [TruncationExamples.halved_improper] [Force PeriodicTorsionForce []] [] [])
  = (World [TruncationExamples.halved_improper]
       [Force PeriodicTorsionForce
          [TorsionTerm 1 0 2 3 (num 2) (num 180) (num (3 # 2));
           TorsionTerm 1 2 3 0 (num 2) (num 180) (num (3 # 2));
           TorsionTerm 1 3 0 2 (num 2) (num 180) (num (3 # 2))]] [] [],
     Ok ()).
Proof. vm_compute. reflexivity. Qed.

(** ** The forces of the system, and the check of the connectivity *)
Section forces.
Import ParameterHandler.
Context `{External}.

(** A computation that keeps the kinds of the forces of the system and
    changes no force but the one at position [fi]. *)
Definition frames_forces {A} (fi : nat) (m : M A) : Prop :=
  ∀ w, kind <$> forces (m w).1 = kind <$> forces w
       ∧ ∀ i, i ≠ fi → forces (m w).1 !! i = forces w !! i.

Lemma frames_forces_ret {A} (fi : nat) (a : A) : frames_forces fi (mret a).
Proof. done. Qed.

Lemma frames_forces_lift {A} (fi : nat) (o : outcome A) : frames_forces fi (lift o).
Proof. done. Qed.

Lemma frames_forces_get_world (fi : nat) : frames_forces fi get_world.
Proof. done. Qed.

Lemma frames_forces_bind {A B} (fi : nat) (m : M A) (k : A → M B) :
  frames_forces fi m → (∀ a, frames_forces fi (k a)) → frames_forces fi (m ≫= k).
Proof.
  intros Hm Hk w. unfold mbind, M_bind. destruct (Hm w) as [Hkinds Hother].
  destruct (m w) as [w' [a|e]]; simpl in *; [|done].
  destruct (Hk a w') as [Hkinds' Hother']. split; [congruence|].
  intros i Hi. rewrite Hother' by done. by apply Hother.
Qed.

Lemma frames_forces_forM {A} (fi : nat) (xs : list A) (body : A → M unit) :
  (∀ x, frames_forces fi (body x)) → frames_forces fi (forM xs body).
Proof.
  intros Hbody. induction xs as [|x xs IH]; simpl; [done|].
  apply frames_forces_bind; [done|]. by intros _.
Qed.

Lemma frames_forces_add_term (fi : nat) (t : term) : frames_forces fi (add_term fi t).
Proof.
  intros w. unfold add_term, modify. simpl. split.
  - rewrite (list_fmap_alter kind _ id) by (by apply Forall_true).
    by apply list_alter_id.
  - intros i Hi. by apply list_lookup_alter_ne.
Qed.

Lemma frames_forces_get_parameter (fi i : nat) : frames_forces fi (get_parameter i).
Proof. intros w. unfold get_parameter. by destruct (parameters w !! i). Qed.

Lemma frames_forces_set_parameter (fi i : nat) (x : instance) :
  frames_forces fi (set_parameter i x).
Proof. done. Qed.

Lemma frames_forces_add_torsion_term (fi : nat) (atom_indices : list nat) (t : value * value * value * value) :
  frames_forces fi (ProperTorsionHandler.add_torsion_term fi atom_indices t).
Proof.
  destruct t as [[[p ph] k] d]. unfold ProperTorsionHandler.add_torsion_term.
  case_decide; [apply frames_forces_lift|].
  repeat (apply frames_forces_bind; [apply frames_forces_lift|intros ?]).
  apply frames_forces_add_term.
Qed.

Lemma frames_forces_add_trefoil (fi : nat) (atom_indices : list nat) (t : value * value * value * value) :
  frames_forces fi (ImproperTorsionHandler.add_trefoil fi atom_indices t).
Proof.
  destruct t as [[[p ph] k] d]. unfold ImproperTorsionHandler.add_trefoil.
  repeat (apply frames_forces_bind; [apply frames_forces_lift|intros ?]).
  apply frames_forces_forM. intros [[? ?] ?].
  repeat (apply frames_forces_bind; [apply frames_forces_lift|intros ?]).
  apply frames_forces_add_term.
Qed.

Lemma frames_forces_create_torsion (fi : nat) (item : list nat * Match) :
  frames_forces fi (ProperTorsionHandler.create_torsion fi item).
Proof.
  destruct item as [atom_indices m]. unfold ProperTorsionHandler.create_torsion.
  apply frames_forces_bind; [apply frames_forces_lift|intros _].
  apply frames_forces_bind; [apply frames_forces_get_parameter|intros x].
  apply frames_forces_bind; [apply frames_forces_lift|intros zipped].
  apply frames_forces_forM. intros t. apply frames_forces_add_torsion_term.
Qed.

Lemma frames_forces_default_idivf (fi i : nat) :
  frames_forces fi (ImproperTorsionHandler.default_idivf i).
Proof.
  unfold ImproperTorsionHandler.default_idivf.
  apply frames_forces_bind; [apply frames_forces_get_parameter|intros x].
  apply frames_forces_bind; [apply frames_forces_lift|intros idivf].
  case_decide; [|apply frames_forces_ret].
  repeat (apply frames_forces_bind; [apply frames_forces_lift|intros ?]).
  apply frames_forces_set_parameter.
Qed.

Lemma frames_forces_create_improper (fi : nat) (item : list nat * Match) :
  frames_forces fi (ImproperTorsionHandler.create_improper fi item).
Proof.
  destruct item as [atom_indices m]. unfold ImproperTorsionHandler.create_improper.
  apply frames_forces_bind; [apply frames_forces_lift|intros _].
  apply frames_forces_bind; [apply frames_forces_default_idivf|intros _].
  apply frames_forces_bind; [apply frames_forces_get_parameter|intros x].
  apply frames_forces_bind; [apply frames_forces_lift|intros zipped].
  apply frames_forces_forM. intros t. apply frames_forces_add_trefoil.
Qed.

(** The forces after a handler has run, to those before. *)
Definition reuses_force (k : force_kind) (w w' : world) : Prop :=
  (kind <$> forces w' = kind <$> forces w
   ∨ ((k ∉ kind <$> forces w) ∧ kind <$> forces w' = (kind <$> forces w) ++ [k]))
  ∧ ∀ i f, forces w !! i = Some f → kind f ≠ k → forces w' !! i = Some f.

Lemma reuses_force_refl (k : force_kind) (w : world) : reuses_force k w w.
Proof. split; [by left|done]. Qed.

Lemma reuses_force_trans (k : force_kind) (w w1 w2 : world) :
  reuses_force k w w1 → reuses_force k w1 w2 → reuses_force k w w2.
Proof.
  intros [Hk1 Hf1] [Hk2 Hf2]. split.
  - destruct Hk1 as [Hk1|[Hnot Hk1]].
    + rewrite Hk1 in Hk2. destruct Hk2 as [Hk2|[Hnot Hk2]]; [left; congruence|right; done].
    + destruct Hk2 as [Hk2|[Hnot2 Hk2]]; [right; split; [done|congruence]|].
      destruct Hnot2. rewrite Hk1. apply elem_of_app. right. left.
  - intros i f Hi Hf. apply Hf2; [|done]. by apply Hf1.
Qed.

Lemma get_or_create_force_reuses (k : force_kind) (body : nat → M unit) (w : world) :
  (∀ fi, frames_forces fi (body fi)) →
  reuses_force k w ((get_or_create_force k ≫= body) w).1.
Proof.
  intros Hbody. unfold mbind, M_bind, get_or_create_force.
  destruct (list_find _ (forces w)) as [[fi fc]|] eqn:Hfind.
  - apply list_find_Some in Hfind as (Hfi & Hkind & _).
    destruct (Hbody fi w) as [Hkinds Hother]. split; [by left|].
    intros i f Hi Hf. rewrite Hother; [done|]. intros ->. congruence.
  - apply list_find_None in Hfind. rewrite Forall_forall in Hfind.
    set (w1 := World _ _ _ _).
    destruct (Hbody (length (forces w)) w1) as [Hkinds Hother]. split.
    + right. split.
      * intros (f & Hk & Hf)%list_elem_of_fmap. by apply (Hfind f).
      * rewrite Hkinds. unfold w1. simpl. by rewrite fmap_app.
    + intros i f Hi Hf. rewrite Hother.
      * unfold w1. simpl. rewrite lookup_app_l; [done|]. by eapply lookup_lt_Some.
      * apply lookup_lt_Some in Hi. lia.
Qed.

Lemma proper_create_force_reuses (self : handler) (topo : topology) (w : world) :
  reuses_force PeriodicTorsionForce w (ProperTorsionHandler.create_force self topo w).1.
Proof.
  unfold ProperTorsionHandler.create_force.
  destruct (ProperTorsionHandler.validate_parameters self) as [[]|e] eqn:Hv.
  - rewrite (bind_lift_Ok (Ok ()) () _ _ eq_refl). apply get_or_create_force_reuses.
    intros fi. apply frames_forces_bind; [apply frames_forces_get_world|intros w0].
    apply frames_forces_bind; [apply frames_forces_lift|intros ms].
    apply frames_forces_bind; [|intros _; apply frames_forces_lift].
    apply frames_forces_forM. intros item. apply frames_forces_create_torsion.
  - rewrite (bind_lift_Raise (Raise e) e _ _ eq_refl). apply reuses_force_refl.
Qed.

Lemma improper_create_force_reuses (self : handler) (topo : topology) (w : world) :
  reuses_force PeriodicTorsionForce w (ImproperTorsionHandler.create_force self topo w).1.
Proof.
  unfold ImproperTorsionHandler.create_force.
  destruct (ImproperTorsionHandler.validate_parameters self) as [[]|e] eqn:Hv.
  - rewrite (bind_lift_Ok (Ok ()) () _ _ eq_refl). apply get_or_create_force_reuses.
    intros fi. apply frames_forces_bind; [apply frames_forces_get_world|intros w0].
    apply frames_forces_bind; [apply frames_forces_lift|intros ms].
    apply frames_forces_forM. intros item. apply frames_forces_create_improper.
  - rewrite (bind_lift_Raise (Raise e) e _ _ eq_refl). apply reuses_force_refl.
Qed.

(** X19.  The two torsion handlers share one force: after
    [ProperTorsionHandler.create_force] and then
    [ImproperTorsionHandler.create_force], whatever they return or raise, the
    system has the forces it had, in their order, followed by one new
    [PeriodicTorsionForce] at most, and by none when it had one already;
    every force of another kind is as it was. *)
Theorem torsion_handlers_share_force (proper improper : handler) (topo : topology) (w : world) :
  let w1 := (ProperTorsionHandler.create_force proper topo w).1 in
  let w2 := (ImproperTorsionHandler.create_force improper topo w1).1 in
  (kind <$> forces w2 = kind <$> forces w
   ∨ ((PeriodicTorsionForce ∉ kind <$> forces w)
      ∧ kind <$> forces w2 = (kind <$> forces w) ++ [PeriodicTorsionForce]))
  ∧ ∀ i f, forces w !! i = Some f → kind f ≠ PeriodicTorsionForce →
           forces w2 !! i = Some f.
Proof.
  intros w1 w2.
  apply (reuses_force_trans PeriodicTorsionForce w w1 w2).
  - apply proper_create_force_reuses.
  - apply improper_create_force_reuses.
Qed.

(** The check of one pair of [expected_connectivity]. *)
Definition bonded_pair (m : Match) (connectivity : nat * nat) : Prop :=
  ∃ atom_i atom_j b,
    reference_atom_indices (environment_match m) !! connectivity.1 = Some atom_i
    ∧ reference_atom_indices (environment_match m) !! connectivity.2 = Some atom_j
    ∧ get_bond_between (reference_molecule (environment_match m)) atom_i atom_j = Ok b.

Lemma connectivity_loop (m : Match) (cs : list (nat * nat)) :
  foldM (λ _ connectivity,
           atom_i ← tuple_get (reference_atom_indices (environment_match m)) connectivity.1;
           atom_j ← tuple_get (reference_atom_indices (environment_match m)) connectivity.2;
           _ ← get_bond_between (reference_molecule (environment_match m)) atom_i atom_j;
           Ok ()) cs () = Ok ()
  ↔ Forall (bonded_pair m) cs.
Proof.
  induction cs as [|c cs IH]; simpl; [by split; [constructor|]|].
  rewrite Forall_cons, <-IH. unfold bonded_pair, tuple_get.
  destruct (reference_atom_indices (environment_match m) !! c.1) as [ai|]; simpl;
    [|split; [done|by intros [(? & ? & ? & [=] & _) _]]].
  destruct (reference_atom_indices (environment_match m) !! c.2) as [aj|]; simpl;
    [|split; [done|by intros [(? & ? & ? & _ & [=] & _) _]]].
  destruct (get_bond_between _ ai aj) as [b|e] eqn:Hb; simpl.
  - split; [intros Hrest; split; [by exists ai, aj, b|done]|by intros [_ ?]].
  - split; [done|]. intros [(? & ? & ? & [= <-] & [= <-] & Hb') _]. congruence.
Qed.

(** X20.  [_assert_correct_connectivity] succeeds exactly when, for every
    pair of the expected connectivity, the two positions exist among the
    reference atoms of the match and the reference molecule has a bond
    between the atoms there.  Without an expected connectivity the pairs are
    those of the chain [(0, 1), ..., (n - 2, n - 1)], [n] being the number of
    topology atoms of the match; nothing is checked for a match of fewer
    than two atoms. *)
Theorem assert_correct_connectivity_spec (m : Match) :
  (∀ cs, _assert_correct_connectivity m (Some cs) = Ok () ↔ Forall (bonded_pair m) cs)
  ∧ (_assert_correct_connectivity m None = Ok () ↔
     ∀ i, S i < length (topology_atom_indices (environment_match m)) →
          bonded_pair m (i, i + 1))
  ∧ (length (topology_atom_indices (environment_match m)) < 2 →
     _assert_correct_connectivity m None = Ok ()).
Proof.
  assert (_assert_correct_connectivity m None = Ok () ↔
          ∀ i, S i < length (topology_atom_indices (environment_match m)) →
               bonded_pair m (i, i + 1)) as Hchain.
  { unfold _assert_correct_connectivity. rewrite connectivity_loop, Forall_fmap, Forall_forall.
    split.
    - intros Hall i Hi. apply (Hall i). apply elem_of_seq. lia.
    - intros Hall i Hi%elem_of_seq. apply Hall. lia. }
  split_and!; [|done|].
  - intros cs. unfold _assert_correct_connectivity. apply connectivity_loop.
  - intros Hlen. apply Hchain. intros i Hi. lia.
Qed.

End forces.

(** ** The compatibility of two handlers of one section *)
Section compatibility.
Import ParameterHandler.
Context `{External}.

(** The attribute [a] is stored on both handlers, with one value. *)
Definition same_attribute (self other_handler : handler) (a : string) : Prop :=
  ∃ v, handler_dict self !! private a = Some v
       ∧ handler_dict other_handler !! private a = Some v.

(** The attribute [a] is stored on both handlers. *)
Definition both_have (self other_handler : handler) (a : string) : Prop :=
  is_Some (handler_dict self !! private a)
  ∧ is_Some (handler_dict other_handler !! private a).

Lemma same_attribute_sym (self other_handler : handler) (a : string) :
  same_attribute self other_handler a → same_attribute other_handler self a.
Proof. intros (v & ? & ?). by exists v. Qed.

(** The loop over [string_attrs_to_compare]. *)
Definition compare_strings (cls : hclass) (self other_handler : handler) (attrs : list string) : outcome unit :=
  foldM (λ _ string_attr,
           this_val ← handler_getattr cls self (private string_attr);
           other_val ← handler_getattr cls other_handler (private string_attr);
           if decide (this_val ≠ other_val) then
             raise IncompatibleParameterError
               (string_attr +:+ " values are not identical. (handler value: "
                +:+ py_str this_val +:+ ", incompatible value: " +:+ py_str other_val)
           else Ok ())
        attrs ().

Lemma compare_strings_Ok (cls : hclass) (self other_handler : handler) (attrs : list string) :
  compare_strings cls self other_handler attrs = Ok ()
  ↔ Forall (same_attribute self other_handler) attrs.
Proof.
  unfold compare_strings.
  induction attrs as [|a attrs IH]; simpl; [by split; [constructor|]|].
  rewrite Forall_cons, <-IH. unfold same_attribute, handler_getattr.
  destruct (handler_dict self !! private a) as [v|]; simpl;
    [|split; [done|by intros [(? & [=] & _) _]]].
  destruct (handler_dict other_handler !! private a) as [v'|]; simpl;
    [|split; [done|by intros [(? & _ & [=]) _]]].
  destruct (decide (v ≠ v')) as [Hne|Heq%dec_stable]; simpl.
  - split; [done|]. intros [(? & [= <-] & [= <-]) _]. done.
  - subst v'. split; [intros Hrest; split; [by exists v|done]|by intros [_ ?]].
Qed.

Lemma compare_strings_raises (cls : hclass) (self other_handler : handler) (attrs : list string) (e : exn) :
  Forall (both_have self other_handler) attrs →
  compare_strings cls self other_handler attrs = Raise e →
  exn_cls e = IncompatibleParameterError.
Proof.
  unfold compare_strings.
  induction attrs as [|a attrs IH]; simpl; [done|].
  intros [[[v Hv] [v' Hv']] Hrest]%Forall_cons. unfold handler_getattr.
  rewrite Hv, Hv'. simpl.
  destruct (decide (v ≠ v')); simpl; [by intros [= <-]|by apply IH].
Qed.

(** X21.  Two bond handlers are compatible exactly when each of
    [potential], [fractional_bondorder_method] and
    [fractional_bondorder_interpolation] is stored on both with one value;
    the check is symmetric; and when the three attributes are stored on both
    handlers the only exception is [IncompatibleParameterError]. *)
Theorem bond_handlers_compatible (self other_handler : handler) :
  let attrs := ["potential"; "fractional_bondorder_method";
                "fractional_bondorder_interpolation"] in
  (BondHandler.check_handler_compatibility self other_handler = Ok ()
   ↔ Forall (same_attribute self other_handler) attrs)
  ∧ (BondHandler.check_handler_compatibility self other_handler = Ok ()
     ↔ BondHandler.check_handler_compatibility other_handler self = Ok ())
  ∧ (Forall (both_have self other_handler) attrs →
     ∀ e, BondHandler.check_handler_compatibility self other_handler = Raise e →
          exn_cls e = IncompatibleParameterError).
Proof.
  intros attrs.
  change (BondHandler.check_handler_compatibility self other_handler)
    with (compare_strings BondHandler.cls self other_handler attrs).
  change (BondHandler.check_handler_compatibility other_handler self)
    with (compare_strings BondHandler.cls other_handler self attrs).
  split_and!.
  - apply compare_strings_Ok.
  - rewrite !compare_strings_Ok.
    split; intros Hall; (eapply Forall_impl; [exact Hall|]);
      intros a; apply same_attribute_sym.
  - intros Hboth e. by apply compare_strings_raises.
Qed.

Context `{!Comparison}.

(** X22.  When the [default_idivf] of a proper torsion handler is a number
    and differs from the one of the other handler by more than [1e-6], the
    check reads [self._SCALETOL] for its message; the class defines no such
    attribute, so that unless the object itself carries one the exception is
    an [AttributeError], not an [IncompatibleParameterError]. *)
Theorem proper_handlers_differ_attribute_error (self other_handler : handler) (this_val other_val difference distance : value) :
  handler_dict self !! "_default_idivf" = Some this_val →
  this_val ≠ VStr "auto" →
  handler_dict other_handler !! "_default_idivf" = Some other_val →
  py_sub this_val other_val = Ok difference →
  py_abs difference = Ok distance →
  py_gt distance (num (1 # 1000000)) = Ok true →
  handler_dict self !! "_SCALETOL" = None →
  ProperTorsionHandler.check_handler_compatibility self other_handler
  = Raise (Exn AttributeError
             "'ProperTorsionHandler' object has no attribute '_SCALETOL'").
Proof.
  intros Hthis Hauto Hother Hsub Habs Hgt Hscale.
  assert (∀ cls, handler_getattr cls self "_default_idivf" = Ok this_val) as Hg
    by (intros cls; unfold handler_getattr; by rewrite Hthis).
  assert (∀ cls, handler_getattr cls other_handler "_default_idivf" = Ok other_val) as Hg'
    by (intros cls; unfold handler_getattr; by rewrite Hother).
  unfold ProperTorsionHandler.check_handler_compatibility.
  rewrite Hg. simpl. rewrite decide_False by done. simpl.
  change (private "default_idivf") with "_default_idivf".
  rewrite Hg, Hg'. simpl. rewrite Hsub. simpl. rewrite Habs. simpl.
  rewrite Hgt. simpl. unfold handler_getattr. rewrite Hscale. done.
Qed.

(** X23.  A proper torsion handler whose [default_idivf] is ['auto'] is
    compatible with exactly the handlers whose [default_idivf] is ['auto']
    too and whose [potential] is stored with the value it has on this
    handler: in this case no number is compared. *)
Theorem proper_handlers_auto_compatible (self other_handler : handler) :
  handler_dict self !! "_default_idivf" = Some (VStr "auto") →
  ProperTorsionHandler.check_handler_compatibility self other_handler = Ok ()
  ↔ handler_dict other_handler !! "_default_idivf" = Some (VStr "auto")
    ∧ same_attribute self other_handler "potential".
Proof.
  intros Hthis.
  assert (∀ cls, handler_getattr cls self "_default_idivf" = Ok (VStr "auto")) as Hg
    by (intros cls; unfold handler_getattr; by rewrite Hthis).
  assert (ProperTorsionHandler.check_handler_compatibility self other_handler
          = compare_strings ProperTorsionHandler.cls self other_handler
              ["potential"; "default_idivf"]) as ->.
  { unfold ProperTorsionHandler.check_handler_compatibility.
    rewrite Hg. simpl. done. }
  rewrite compare_strings_Ok, !Forall_cons, Forall_nil.
  unfold same_attribute at 2.
  change (private "default_idivf") with "_default_idivf". rewrite Hthis.
  split.
  - intros (Hpot & (v & [= <-] & Hother) & _). done.
  - intros [Hother Hpot]. split_and!; [done| |done]. by exists (VStr "auto").
Qed.

End compatibility.

(** ** Membership in a parameter list *)
Section parameter_list_membership.
Import ParameterAttribute _ParameterAttributeInitializer ParameterList.
Context `{External}.
Context (pcls : pclass).

Lemma all_smirks_index (l : list instance) (item : value) (all_smirks : list value) (pos : nat) :
  mapM_outcome (smirks pcls) l = Ok all_smirks →
  item ∈ all_smirks ↔ ∃ i, index_from pcls l item pos = Ok i.
Proof.
  revert all_smirks pos. induction l as [|x l IH]; intros all_smirks pos; simpl.
  - intros [= <-]. split; [by intros ?%elem_of_nil|by intros [? ?]].
  - destruct (smirks pcls x) as [s|e]; simpl; [|done].
    destruct (mapM_outcome (smirks pcls) l) as [ss|e]; simpl; [|done].
    intros [= <-]. rewrite elem_of_cons.
    destruct (decide (s = item)) as [->|Hne].
    + split; [by exists pos|by left].
    + rewrite <-(IH ss (S pos) eq_refl). split; [by intros [->|?]|by right].
Qed.

Lemma all_smirks_raises (l : list instance) (e : exn) :
  mapM_outcome (smirks pcls) l = Raise e →
  ∃ y, y ∈ l ∧ smirks pcls y = Raise e.
Proof.
  induction l as [|x l IH]; simpl; [done|].
  destruct (smirks pcls x) as [s|e'] eqn:Hx; simpl.
  - destruct (mapM_outcome (smirks pcls) l) as [ss|e']; simpl; [done|].
    intros [= ->]. destruct (IH eq_refl) as (y & Hy & Hs).
    exists y. split; [by right|done].
  - intros [= ->]. exists x. split; [by left|done].
Qed.

Lemma all_smirks_fails (l : list instance) (y : instance) (e : exn) :
  y ∈ l → smirks pcls y = Raise e →
  ∃ e', mapM_outcome (smirks pcls) l = Raise e'.
Proof.
  intros Hin Hy. induction Hin as [y l|y z l Hin IH]; simpl.
  - rewrite Hy. by exists e.
  - destruct (smirks pcls z) as [s|e']; simpl; [|by exists e'].
    destruct (IH Hy) as [e' ->]. by exists e'.
Qed.

(** X24.  When [item in self] returns, for a string [item], it returns
    [True] exactly when [index(item)] finds a position; it raises only an
    exception that reading the SMIRKS of one of the objects raises; and, as
    it reads the SMIRKS of every object, it raises where [index] finds the
    item before reaching an object whose SMIRKS cannot be read. *)
Theorem contains_agrees_with_index (l : list instance) (item : string) :
  (∀ b, __contains__ pcls l item = Ok b →
        (b = true ↔ ∃ i, index pcls l (VStr item) = Ok i))
  ∧ (∀ e, __contains__ pcls l item = Raise e →
          ∃ y, y ∈ l ∧ smirks pcls y = Raise e)
  ∧ (∀ l1 x l2 y e,
       l = l1 ++ x :: l2 → Forall (other_smirks pcls (VStr item)) l1 →
       smirks pcls x = Ok (VStr item) → y ∈ l2 → smirks pcls y = Raise e →
       index pcls l (VStr item) = Ok (length l1)
       ∧ ∃ e', __contains__ pcls l item = Raise e').
Proof.
  split_and!.
  - intros b. unfold __contains__, index.
    destruct (mapM_outcome (smirks pcls) l) as [ss|e] eqn:Hss; simpl; [|done].
    intros [= <-]. rewrite bool_decide_eq_true.
    by apply all_smirks_index.
  - intros e. unfold __contains__.
    destruct (mapM_outcome (smirks pcls) l) as [ss|e'] eqn:Hss; simpl; [done|].
    intros [= ->]. by apply all_smirks_raises.
  - intros l1 x l2 y e -> Hl1 Hx Hin Hy. split.
    + unfold index. apply index_from_split. exists l1, x, l2. done.
    + unfold __contains__.
      destruct (all_smirks_fails (l1 ++ x :: l2) y e) as [e' ->]; [|done|by exists e'].
      apply elem_of_app. right. by right.
Qed.

End parameter_list_membership.

Module CompatibilityExamples.
Import ParameterHandler Exact.

(** [abs] and [>] on plain numbers. *)
#[global] Instance comparison : Comparison := {|
  py_abs := λ v,
    match v with
    | VNum q => Ok (if bool_decide (Qclt q (Q2Qc 0)) then num (Qopp (this q)) else VNum q)
    | _ => raise TypeError "bad operand type for abs()"
    end;
  py_gt := λ a b,
    match a, b with
    | VNum x, VNum y => Ok (bool_decide (Qclt y x))
    | _, _ => raise TypeError "'>' not supported between instances"
    end;
|}.

(** A single atom, matched by itself. *)
Definition lone_atom : environment_match_t :=
  EnvironmentMatch [0] (Examples.bonded VNone) [0].

(** A handler of the section with the header attribute [name] set. *)
Definition with_attribute (cls : hclass) (name : string) (v : value) : handler :=
  Handler (<[private name := v]> (handler_dict (TorsionExamples.handler_of cls))) [].

End CompatibilityExamples.

Example torsion_handlers_share_force_example :
  let w := World [TorsionExamples.two_term_torsion] [Force HarmonicBondForce []] [] [] in
  kind <$> forces
    (ImproperTorsionHandler.create_force
       (TorsionExamples.handler_of ImproperTorsionHandler.cls) TorsionExamples.butane_like
       (ProperTorsionHandler.create_force
          (TorsionExamples.handler_of ProperTorsionHandler.cls) TorsionExamples.butane_like
          w).1).1
  = [HarmonicBondForce; PeriodicTorsionForce].
Proof. vm_compute. reflexivity. Qed.

Lemma assert_correct_connectivity_spec_witness :
  ParameterHandler._assert_correct_connectivity
    (ParameterHandler._Match 0 CompatibilityExamples.lone_atom) None = Ok ().
Proof.
  apply (proj2 (proj2 (assert_correct_connectivity_spec
                         (ParameterHandler._Match 0 CompatibilityExamples.lone_atom)))).
  simpl. lia.
Defined.

Lemma bond_handlers_compatible_witness :
  BondHandler.check_handler_compatibility
    (TorsionExamples.handler_of BondHandler.cls)
    (ParameterHandler.add_cosmetic_attribute
       (TorsionExamples.handler_of BondHandler.cls) "note" (VStr "checked"))
  = Ok ().
Proof.
  apply (proj2 (proj1 (bond_handlers_compatible
                         (TorsionExamples.handler_of BondHandler.cls)
                         (ParameterHandler.add_cosmetic_attribute
                            (TorsionExamples.handler_of BondHandler.cls) "note"
                            (VStr "checked"))))).
  repeat constructor; eexists; split; vm_compute; reflexivity.
Defined.

Lemma proper_handlers_differ_attribute_error_witness :
  ProperTorsionHandler.check_handler_compatibility
    (CompatibilityExamples.with_attribute ProperTorsionHandler.cls "default_idivf" (num 1))
    (CompatibilityExamples.with_attribute ProperTorsionHandler.cls "default_idivf" (num 2))
  = Raise (Exn AttributeError
             "'ProperTorsionHandler' object has no attribute '_SCALETOL'").
Proof.
  apply (proper_handlers_differ_attribute_error
           (CompatibilityExamples.with_attribute ProperTorsionHandler.cls "default_idivf" (num 1))
           (CompatibilityExamples.with_attribute ProperTorsionHandler.cls "default_idivf" (num 2))
           (num 1) (num 2) (num (-1)) (num 1));
    first [done | vm_compute; reflexivity].
Defined.

Lemma proper_handlers_auto_compatible_witness :
  ProperTorsionHandler.check_handler_compatibility
    (TorsionExamples.handler_of ProperTorsionHandler.cls)
    (CompatibilityExamples.with_attribute ProperTorsionHandler.cls "default_idivf" (num 2))
  ≠ Ok ().
Proof.
  intros Hok.
  apply (proper_handlers_auto_compatible
           (TorsionExamples.handler_of ProperTorsionHandler.cls)
           (CompatibilityExamples.with_attribute ProperTorsionHandler.cls "default_idivf" (num 2)))
    in Hok; [|vm_compute; reflexivity].
  destruct Hok as [Hother _]. vm_compute in Hother. discriminate Hother.
Defined.

Lemma contains_agrees_with_index_witness :
  ∃ i, ParameterList.index ParameterType.BondType
         [Examples.generic_bond; Examples.carbon_bond] (VStr "[#6:1]-[#6:2]") = Ok i.
Proof.
  apply (proj1 (contains_agrees_with_index ParameterType.BondType
                  [Examples.generic_bond; Examples.carbon_bond] "[#6:1]-[#6:2]") true);
    reflexivity.
Defined.

(** ** [create_force] of the torsion handlers, match by match *)
Section create_force_loops.
Import ParameterHandler.
Context `{External}.

(** The force of the handler: it is in the system after the search, at the
    position returned, and the parameter objects are as before. *)
Lemma get_or_create_force_spec (k : force_kind) (w w1 : world) (fi : nat) :
  get_or_create_force k w = (w1, Ok fi) →
  parameters w1 = parameters w
  ∧ ∃ fc, forces w1 !! fi = Some fc ∧ kind fc = k.
Proof.
  unfold get_or_create_force.
  destruct (list_find _ (forces w)) as [[i fc]|] eqn:Hfind.
  - intros [= <- <-]. split; [done|].
    apply list_find_Some in Hfind as (Hi & Hk & _). eauto.
  - intros [= <- <-]. split; [done|]. exists (Force k []). split; [|done].
    simpl. by apply list_lookup_middle.
Qed.

Lemma forM_cons {A} (x : A) (xs : list A) (body : A → M unit) (w : world) :
  forM (x :: xs) body w
  = match body x w with
    | (w', Ok _) => forM xs body w'
    | (w', Raise e) => (w', Raise e)
    end.
Proof. done. Qed.

Lemma forM_app {A} (xs ys : list A) (body : A → M unit) (w : world) :
  forM (xs ++ ys) body w
  = match forM xs body w with
    | (w', Ok _) => forM ys body w'
    | (w', Raise e) => (w', Raise e)
    end.
Proof.
  revert w. induction xs as [|x xs IH]; intros w; [done|].
  rewrite <-app_comm_cons, !forM_cons.
  destruct (body x w) as [w' [[]|e]]; [apply IH|done].
Qed.

(** A loop whose passes add terms to the force at [fi] and do nothing else:
    [P params item ts] says what one pass adds, given the parameter
    objects. *)
Lemma forM_adds_terms {A} (fi : nat) (body : A → M unit) (P : list instance → A → list term → Prop) (items : list A) (tss : list (list term)) (w : world) :
  (∀ item ts w', P (parameters w') item ts → body item w' = (with_terms fi ts w', Ok ())) →
  Forall2 (P (parameters w)) items tss →
  forM items body w = (with_terms fi (concat tss) w, Ok ()).
Proof.
  intros Hbody. revert tss w. induction items as [|item items IH]; intros tss w Hall.
  - apply Forall2_nil_inv_l in Hall as ->. simpl. by rewrite with_terms_nil.
  - apply Forall2_cons_inv_l in Hall as (ts & tss' & Hts & Hrest & ->).
    rewrite forM_cons, (Hbody _ _ _ Hts).
    rewrite (IH tss' (with_terms fi ts w) Hrest).
    cbn [concat]. by rewrite with_terms_app.
Qed.


(** [ProperTorsionHandler.create_force], once the potential is validated
    and the matches are found: the loop over the matches, then the audit. *)
Lemma proper_create_force_run (self : handler) (topo : topology) (w w1 : world) (fi : nat) (ms : list (list nat * Match)) :
  ProperTorsionHandler.validate_parameters self = Ok () →
  get_or_create_force PeriodicTorsionForce w = (w1, Ok fi) →
  find_matches ProperTorsionHandler.cls (parameters w) topo = Ok ms →
  ProperTorsionHandler.create_force self topo w
  = match forM ms (ProperTorsionHandler.create_torsion fi) w1 with
    | (w2, Ok _) =>
        (w2, _check_all_valence_terms_assigned ProperTorsionHandler.cls ValenceDict ms
               (propers topo) UnassignedProperTorsionParameterException)
    | (w2, Raise e) => (w2, Raise e)
    end.
Proof.
  intros Hv Hf Hm. destruct (get_or_create_force_spec _ _ _ _ Hf) as [Hp _].
  unfold ProperTorsionHandler.create_force.
  rewrite (bind_lift_Ok _ () _ _ Hv).
  unfold mbind at 1, M_bind at 1. rewrite Hf.
  unfold mbind at 1, M_bind at 1, get_world.
  rewrite Hp, (bind_lift_Ok _ ms _ _ Hm).
  unfold mbind at 1, M_bind at 1.
  by destruct (forM ms _ w1) as [w2 [[]|e]].
Qed.

Lemma improper_create_force_run (self : handler) (topo : topology) (w w1 : world) (fi : nat) (ms : list (list nat * Match)) :
  ImproperTorsionHandler.validate_parameters self = Ok () →
  get_or_create_force PeriodicTorsionForce w = (w1, Ok fi) →
  ImproperTorsionHandler.find_matches (parameters w) topo = Ok ms →
  ImproperTorsionHandler.create_force self topo w
  = forM ms (ImproperTorsionHandler.create_improper fi) w1.
Proof.
  intros Hv Hf Hm. destruct (get_or_create_force_spec _ _ _ _ Hf) as [Hp _].
  unfold ImproperTorsionHandler.create_force.
  rewrite (bind_lift_Ok _ () _ _ Hv).
  unfold mbind at 1, M_bind at 1. rewrite Hf.
  unfold mbind at 1, M_bind at 1, get_world.
  by rewrite Hp, (bind_lift_Ok _ ms _ _ Hm).
Qed.

(** What the loop of [ProperTorsionHandler.create_force] adds for one match
    [item] (the atom indices and the match): the connectivity is as
    expected, the matched parameter object holds four sequences, and [ts]
    are the terms of [zip(periodicity, phase, k, idivf)], each with the
    force constant [k / idivf], no divisor being ['auto']. *)
Definition proper_terms (params : list instance) (item : list nat * Match) (ts : list term) : Prop :=
  ∃ a0 a1 a2 a3 x ps phs ks ds kds,
    item.1 = [a0; a1; a2; a3]
    ∧ _assert_correct_connectivity item.2 None = Ok ()
    ∧ params !! parameter_type item.2 = Some x
    ∧ record_getattr ParameterType.ProperTorsionType x "periodicity" = Ok (VList ps)
    ∧ record_getattr ParameterType.ProperTorsionType x "phase" = Ok (VList phs)
    ∧ record_getattr ParameterType.ProperTorsionType x "k" = Ok (VList ks)
    ∧ record_getattr ParameterType.ProperTorsionType x "idivf" = Ok (VList ds)
    ∧ Forall2 (λ (t : value * value * value * value) kd,
                 t.2 ≠ VStr "auto" ∧ py_truediv t.1.2 t.2 = Ok kd)
              (zip4 ps phs ks ds) kds
    ∧ ts = zip_with (λ (t : value * value * value * value) kd,
                       TorsionTerm a0 a1 a2 a3 t.1.1.1 t.1.1.2 kd)
                    (zip4 ps phs ks ds) kds.

(** The same for four sequences of one length: [ts] holds one term per
    index, with the periodicity and the phase of that index and the force
    constant [k / idivf]. *)
Definition indexed_terms (params : list instance) (item : list nat * Match) (ts : list term) : Prop :=
  ∃ a0 a1 a2 a3 x ps phs ks ds kds,
    item.1 = [a0; a1; a2; a3]
    ∧ _assert_correct_connectivity item.2 None = Ok ()
    ∧ params !! parameter_type item.2 = Some x
    ∧ record_getattr ParameterType.ProperTorsionType x "periodicity" = Ok (VList ps)
    ∧ record_getattr ParameterType.ProperTorsionType x "phase" = Ok (VList phs)
    ∧ record_getattr ParameterType.ProperTorsionType x "k" = Ok (VList ks)
    ∧ record_getattr ParameterType.ProperTorsionType x "idivf" = Ok (VList ds)
    ∧ length phs = length ps ∧ length ks = length ps ∧ length ds = length ps
    ∧ (VStr "auto" ∉ ds)
    ∧ divided ks ds kds
    ∧ ts = emitted_terms a0 a1 a2 a3 ps phs kds.

(** A match whose parameter object holds the divisor ['auto'] (the other
    quotients being defined). *)
Definition unresolved_divisor (params : list instance) (item : list nat * Match) : Prop :=
  ∃ a0 a1 a2 a3 x ps phs ks ds,
    item.1 = [a0; a1; a2; a3]
    ∧ _assert_correct_connectivity item.2 None = Ok ()
    ∧ params !! parameter_type item.2 = Some x
    ∧ record_getattr ParameterType.ProperTorsionType x "periodicity" = Ok (VList ps)
    ∧ record_getattr ParameterType.ProperTorsionType x "phase" = Ok (VList phs)
    ∧ record_getattr ParameterType.ProperTorsionType x "k" = Ok (VList ks)
    ∧ record_getattr ParameterType.ProperTorsionType x "idivf" = Ok (VList ds)
    ∧ length phs = length ps ∧ length ks = length ps ∧ length ds = length ps
    ∧ (VStr "auto" ∈ ds)
    ∧ ∀ k d, k ∈ ks → d ∈ ds → d ≠ VStr "auto" → is_ok (py_truediv k d) = true.

Lemma create_torsion_proper_terms (fi : nat) (item : list nat * Match) (ts : list term) (w : world) :
  proper_terms (parameters w) item ts →
  ProperTorsionHandler.create_torsion fi item w = (with_terms fi ts w, Ok ()).
Proof.
  destruct item as [atoms m].
  intros (a0 & a1 & a2 & a3 & x & ps & phs & ks & ds & kds
          & Hat & Hconn & Hx & Hps & Hphs & Hks & Hds & Hall & ->).
  simpl in Hat, Hconn, Hx. subst atoms.
  by apply (create_torsion_zip_truncates fi a0 a1 a2 a3 m x ps phs ks ds kds w).
Qed.

Lemma indexed_terms_proper_terms (params : list instance) (item : list nat * Match) (ts : list term) :
  indexed_terms params item ts → proper_terms params item ts.
Proof.
  intros (a0 & a1 & a2 & a3 & x & ps & phs & ks & ds & kds
          & Hat & Hconn & Hx & Hps & Hphs & Hks & Hds & Lphs & Lks & Lds & Hauto & Hdiv & ->).
  destruct (divided_Forall2 ps phs ks ds kds Lphs Lks Lds Hauto Hdiv) as [Hall Hlen].
  exists a0, a1, a2, a3, x, ps, phs, ks, ds, kds.
  split_and!; try done. by rewrite zip4_zip_with.
Qed.

Lemma indexed_terms_length (params : list instance) (item : list nat * Match) (ts : list term) :
  indexed_terms params item ts →
  ∃ x ks, params !! parameter_type item.2 = Some x
          ∧ record_getattr ParameterType.ProperTorsionType x "k" = Ok (VList ks)
          ∧ length ts = length ks.
Proof.
  intros (a0 & a1 & a2 & a3 & x & ps & phs & ks & ds & kds
          & Hat & Hconn & Hx & Hps & Hphs & Hks & Hds & Lphs & Lks & Lds & Hauto & Hdiv & ->).
  destruct (divided_Forall2 ps phs ks ds kds Lphs Lks Lds Hauto Hdiv) as [Hall Hlen].
  exists x, ks. split_and!; [done..|].
  unfold emitted_terms. rewrite length_zip_with, length_zip. lia.
Qed.

(** C5.  [ProperTorsionHandler.create_force], the potential being valid:
    when every match of the topology has the expected connectivity and its
    parameter object holds parallel sequences [periodicity], [phase], [k]
    and [idivf] of one length, no divisor being ['auto'] and every quotient
    [k / idivf] defined, it adds to the handler's force, match after match,
    exactly one torsion term per index of the sequences, with the
    periodicity and the phase of that index and the force constant
    [k / idivf]; nothing else changes, and the result is that of the audit.
    When the loop comes to a match whose parameter object holds the divisor
    ['auto'], [create_force] raises [NotImplementedError]. *)
Theorem proper_torsion_one_term_per_index (self : handler) (topo : topology) (w w1 : world) (fi : nat) (ms : list (list nat * Match)) :
  ProperTorsionHandler.validate_parameters self = Ok () →
  get_or_create_force PeriodicTorsionForce w = (w1, Ok fi) →
  find_matches ProperTorsionHandler.cls (parameters w) topo = Ok ms →
  (∀ tss, Forall2 (indexed_terms (parameters w)) ms tss →
     ProperTorsionHandler.create_force self topo w
     = (with_terms fi (concat tss) w1,
        _check_all_valence_terms_assigned ProperTorsionHandler.cls ValenceDict ms
          (propers topo) UnassignedProperTorsionParameterException)
     ∧ (∃ fc, forces w1 !! fi = Some fc ∧ kind fc = PeriodicTorsionForce)
     ∧ Forall2 (λ item ts,
                  ∃ x ks, parameters w !! parameter_type item.2 = Some x
                          ∧ record_getattr ParameterType.ProperTorsionType x "k" = Ok (VList ks)
                          ∧ length ts = length ks) ms tss)
  ∧ (∀ ms1 item ms2 tss1,
       ms = ms1 ++ item :: ms2 →
       Forall2 (indexed_terms (parameters w)) ms1 tss1 →
       unresolved_divisor (parameters w) item →
       ∃ w' msg,
         ProperTorsionHandler.create_force self topo w
         = (w', Raise (Exn NotImplementedError msg))).
Proof.
  intros Hv Hf Hm. destruct (get_or_create_force_spec _ _ _ _ Hf) as [Hp Hfc].
  rewrite (proper_create_force_run self topo w w1 fi ms Hv Hf Hm). split.
  - intros tss Hall. split_and!; [|done|].
    + rewrite (forM_adds_terms fi _ proper_terms ms tss w1); [done| |].
      * intros item ts w'. apply create_torsion_proper_terms.
      * rewrite Hp. eapply Forall2_impl; [exact Hall|].
        intros item ts. apply indexed_terms_proper_terms.
    + eapply Forall2_impl; [exact Hall|]. intros item ts. apply indexed_terms_length.
  - intros ms1 [atoms m] ms2 tss1 -> Hall Hauto.
    rewrite forM_app.
    rewrite (forM_adds_terms fi _ proper_terms ms1 tss1 w1).
    + rewrite forM_cons.
      destruct Hauto as (a0 & a1 & a2 & a3 & x & ps & phs & ks & ds
                         & Hat & Hconn & Hx & Hps & Hphs & Hks & Hds
                         & Lphs & Lks & Lds & Hauto & Hdiv).
      simpl in Hat, Hconn, Hx. subst atoms. rewrite <-Hp in Hx.
      destruct (create_torsion_one_term_per_index fi a0 a1 a2 a3 m x ps phs ks ds
                  (with_terms fi (concat tss1) w1) Hconn Hx Hps Hphs Hks Hds Lphs Lks Lds)
        as [_ Hraise].
      destruct (Hraise Hauto Hdiv) as (w' & msg & ->). by exists w', msg.
    + intros item ts w'. apply create_torsion_proper_terms.
    + rewrite Hp. eapply Forall2_impl; [exact Hall|].
      intros item ts. apply indexed_terms_proper_terms.
Qed.

(** X16.  When the loop of [ProperTorsionHandler.create_force] comes to a
    match whose parameter object was built without [idivf] (it reads as the
    default, [None]), [create_force] raises a [TypeError], at the [zip] of
    the four sequences: the terms of the matches before it are in the
    force, none is added for this match, and the audit is not reached.
    (The improper handler puts 3 in the place of a missing [idivf].) *)
Theorem proper_torsion_without_idivf (self : handler) (topo : topology) (w w1 : world) (fi : nat) (ms1 ms2 : list (list nat * Match)) (item : list nat * Match) (tss1 : list (list term)) (x : instance) (ps phs ks : list value) :
  ProperTorsionHandler.validate_parameters self = Ok () →
  get_or_create_force PeriodicTorsionForce w = (w1, Ok fi) →
  find_matches ProperTorsionHandler.cls (parameters w) topo = Ok (ms1 ++ item :: ms2) →
  Forall2 (proper_terms (parameters w)) ms1 tss1 →
  _assert_correct_connectivity item.2 None = Ok () →
  parameters w !! parameter_type item.2 = Some x →
  record_getattr ParameterType.ProperTorsionType x "periodicity" = Ok (VList ps) →
  record_getattr ParameterType.ProperTorsionType x "phase" = Ok (VList phs) →
  record_getattr ParameterType.ProperTorsionType x "k" = Ok (VList ks) →
  record_getattr ParameterType.ProperTorsionType x "idivf" = Ok VNone →
  ∃ msg,
    ProperTorsionHandler.create_force self topo w
    = (with_terms fi (concat tss1) w1, Raise (Exn TypeError msg)).
Proof.
  intros Hv Hf Hm Hall Hconn Hx Hps Hphs Hks Hds.
  destruct (get_or_create_force_spec _ _ _ _ Hf) as [Hp _].
  rewrite (proper_create_force_run self topo w w1 fi _ Hv Hf Hm).
  rewrite forM_app.
  rewrite (forM_adds_terms fi _ proper_terms ms1 tss1 w1).
  - rewrite forM_cons. destruct item as [atoms m]. simpl in Hconn, Hx.
    rewrite <-Hp in Hx.
    destruct (create_torsion_without_idivf fi atoms m x ps phs ks
                (with_terms fi (concat tss1) w1) Hconn Hx Hps Hphs Hks Hds) as [msg ->].
    by exists msg.
  - intros it ts w'. apply create_torsion_proper_terms.
  - by rewrite Hp.
Qed.

(** X17.  Sequences of unequal length are cut to the shortest without an
    error: for every match, [ProperTorsionHandler.create_force] adds one
    term per element of [zip(periodicity, phase, k, idivf)], that is as many
    terms as the shortest of the four sequences of the matched parameter
    object has elements (no divisor among them being ['auto'], every
    quotient defined), and ignores what the longer sequences hold beyond. *)
Theorem proper_torsion_zip_truncates (self : handler) (topo : topology) (w w1 : world) (fi : nat) (ms : list (list nat * Match)) (tss : list (list term)) :
  ProperTorsionHandler.validate_parameters self = Ok () →
  get_or_create_force PeriodicTorsionForce w = (w1, Ok fi) →
  find_matches ProperTorsionHandler.cls (parameters w) topo = Ok ms →
  Forall2 (proper_terms (parameters w)) ms tss →
  ProperTorsionHandler.create_force self topo w
  = (with_terms fi (concat tss) w1,
     _check_all_valence_terms_assigned ProperTorsionHandler.cls ValenceDict ms
       (propers topo) UnassignedProperTorsionParameterException)
  ∧ Forall2 (λ item ts,
               ∀ x ps phs ks ds,
                 parameters w !! parameter_type item.2 = Some x →
                 record_getattr ParameterType.ProperTorsionType x "periodicity" = Ok (VList ps) →
                 record_getattr ParameterType.ProperTorsionType x "phase" = Ok (VList phs) →
                 record_getattr ParameterType.ProperTorsionType x "k" = Ok (VList ks) →
                 record_getattr ParameterType.ProperTorsionType x "idivf" = Ok (VList ds) →
                 length ts
                 = Nat.min (Nat.min (length ps) (length phs)) (Nat.min (length ks) (length ds)))
            ms tss.
Proof.
  intros Hv Hf Hm Hall. destruct (get_or_create_force_spec _ _ _ _ Hf) as [Hp _].
  rewrite (proper_create_force_run self topo w w1 fi ms Hv Hf Hm). split.
  - rewrite (forM_adds_terms fi _ proper_terms ms tss w1); [done| |by rewrite Hp].
    intros item ts w'. apply create_torsion_proper_terms.
  - eapply Forall2_impl; [exact Hall|]. intros item ts.
    intros (a0 & a1 & a2 & a3 & x & ps & phs & ks & ds & kds
            & Hat & Hconn & Hx & Hps & Hphs & Hks & Hds & Hdiv & ->).
    intros x' ps' phs' ks' ds' Hx' Hps' Hphs' Hks' Hds'.
    assert (x' = x) as -> by congruence.
    assert (ps' = ps) as -> by congruence. assert (phs' = phs) as -> by congruence.
    assert (ks' = ks) as -> by congruence. assert (ds' = ds) as -> by congruence.
    rewrite length_zip_with, <-(Forall2_length _ _ _ Hdiv), length_zip4. lia.
Qed.

(** What the loop of [ImproperTorsionHandler.create_force] adds for one
    match whose parameter object has its [idivf] set: three terms per
    element of [zip(periodicity, phase, k, idivf)], the central atom first
    and the three others in their three cyclic orders, each with the force
    constant [k / idivf], the divisor being 3 where [idivf] is ['auto']. *)
Definition improper_terms (params : list instance) (item : list nat * Match) (ts : list term) : Prop :=
  ∃ a0 a1 a2 a3 x ps phs ks ds kds,
    item.1 = [a0; a1; a2; a3]
    ∧ _assert_correct_connectivity item.2 (Some [(0, 1); (1, 2); (1, 3)]) = Ok ()
    ∧ params !! parameter_type item.2 = Some x
    ∧ record_getattr ParameterType.ImproperTorsionType x "periodicity" = Ok (VList ps)
    ∧ record_getattr ParameterType.ImproperTorsionType x "phase" = Ok (VList phs)
    ∧ record_getattr ParameterType.ImproperTorsionType x "k" = Ok (VList ks)
    ∧ record_getattr ParameterType.ImproperTorsionType x "idivf" = Ok (VList ds)
    ∧ Forall2 (λ (t : value * value * value * value) kd,
                 py_truediv t.1.2 (improper_divisor t.2) = Ok kd)
              (zip4 ps phs ks ds) kds
    ∧ ts = concat (zip_with (λ (t : value * value * value * value) kd,
                               trefoil a0 a1 a2 a3 t.1.1.1 t.1.1.2 kd)
                            (zip4 ps phs ks ds) kds).

Lemma create_improper_improper_terms (fi : nat) (item : list nat * Match) (ts : list term) (w : world) :
  improper_terms (parameters w) item ts →
  ImproperTorsionHandler.create_improper fi item w = (with_terms fi ts w, Ok ()).
Proof.
  destruct item as [atoms m].
  intros (a0 & a1 & a2 & a3 & x & ps & phs & ks & ds & kds
          & Hat & Hconn & Hx & Hps & Hphs & Hks & Hds & Hall & ->).
  simpl in Hat, Hconn, Hx. subst atoms.
  by apply (create_improper_trefoil fi a0 a1 a2 a3 m x ps phs ks ds kds w).
Qed.

(** X18.  [ImproperTorsionHandler.create_force], the potential being
    valid and every matched parameter object having its [idivf] set: for a
    match with atoms [(a0, a1, a2, a3)] it adds to the handler's force three
    terms per element of [zip(periodicity, phase, k, idivf)], the central
    atom [a1] first and the three others in their three cyclic orders, each
    with the periodicity and phase of that element and the force constant
    [k / idivf], the divisor being 3 where [idivf] is ['auto'].  The
    parameter objects and everything else stay as they are, and the call
    returns. *)
Theorem improper_torsion_trefoil (self : handler) (topo : topology) (w w1 : world) (fi : nat) (ms : list (list nat * Match)) (tss : list (list term)) :
  ImproperTorsionHandler.validate_parameters self = Ok () →
  get_or_create_force PeriodicTorsionForce w = (w1, Ok fi) →
  ImproperTorsionHandler.find_matches (parameters w) topo = Ok ms →
  Forall2 (improper_terms (parameters w)) ms tss →
  ImproperTorsionHandler.create_force self topo w = (with_terms fi (concat tss) w1, Ok ())
  ∧ Forall2 (λ item ts,
               ∀ x ps phs ks ds,
                 parameters w !! parameter_type item.2 = Some x →
                 record_getattr ParameterType.ImproperTorsionType x "periodicity" = Ok (VList ps) →
                 record_getattr ParameterType.ImproperTorsionType x "phase" = Ok (VList phs) →
                 record_getattr ParameterType.ImproperTorsionType x "k" = Ok (VList ks) →
                 record_getattr ParameterType.ImproperTorsionType x "idivf" = Ok (VList ds) →
                 length ts
                 = 3 * Nat.min (Nat.min (length ps) (length phs))
                               (Nat.min (length ks) (length ds)))
            ms tss.
Proof.
  intros Hv Hf Hm Hall. destruct (get_or_create_force_spec _ _ _ _ Hf) as [Hp _].
  rewrite (improper_create_force_run self topo w w1 fi ms Hv Hf Hm). split.
  - apply (forM_adds_terms fi _ improper_terms ms tss w1); [|by rewrite Hp].
    intros item ts w'. apply create_improper_improper_terms.
  - eapply Forall2_impl; [exact Hall|]. intros item ts.
    intros (a0 & a1 & a2 & a3 & x & ps & phs & ks & ds & kds
            & Hat & Hconn & Hx & Hps & Hphs & Hks & Hds & Hdiv & ->).
    intros x' ps' phs' ks' ds' Hx' Hps' Hphs' Hks' Hds'.
    assert (x' = x) as -> by congruence.
    assert (ps' = ps) as -> by congruence. assert (phs' = phs) as -> by congruence.
    assert (ks' = ks) as -> by congruence. assert (ds' = ds) as -> by congruence.
    rewrite length_concat_trefoil by (by eapply Forall2_length).
    by rewrite length_zip4.
Qed.

End create_force_loops.

(** ** C10: the parameter objects after [ImproperTorsionHandler.create_force] *)
Section improper_mutation.
Import ParameterAttribute _ParameterAttributeInitializer ParameterHandler.
Context `{External}.








Section one_object.
Variables (i : nat) (x : instance) (ks : list value) (v3 : value).
Hypothesis Hidivf : record_getattr ParameterType.ImproperTorsionType x "idivf" = Ok VNone.
Hypothesis Hk : record_getattr ParameterType.ImproperTorsionType x "k" = Ok (VList ks).
Hypothesis Hfloat : py_float (num 3) = Ok v3.









End one_object.


End improper_mutation.

Module CreateForceExamples.
Import ParameterHandler Exact.

(** A torsion whose second divisor is ['auto'], written into the object
    directly: the converter [float] of [idivf] refuses the string. *)
Definition auto_torsion : instance :=
  Examples.object
    [("smirks", VStr "[*:1]-[*:2]-[*:3]-[*:4]");
     ("periodicity", VList [num 2; num 3]);
     ("phase", VList [num 0; num 180]);
     ("k", VList [num 1; num 2]);
     ("idivf", VList [num 1; VStr "auto"])].

(** A proper torsion built without [idivf]. *)
Definition bare_torsion : instance :=
  Examples.object
    [("smirks", VStr "[*:1]-[*:2]-[*:3]-[*:4]");
     ("periodicity", VList [num 2]);
     ("phase", VList [num 180]);
     ("k", VList [num 3])].

(** The one match of [butane_like], whatever the pattern. *)
Definition quartet_match : list nat * Match :=
  ([0; 1; 2; 3], _Match 0 TorsionExamples.quartet).

(** The world of one parameter object, before the call and with the force
    of the torsion handlers. *)
Definition before (x : instance) : world := World [x] [] [] [].

Definition with_force (x : instance) : world :=
  World [x] [Force PeriodicTorsionForce []] [] [].

End CreateForceExamples.

(** The constructor returns the torsion without [idivf] when none is
    given. *)
Example bare_torsion_init :
  ParameterType.__init__ ParameterType.ProperTorsionType
    (VStr "[*:1]-[*:2]-[*:3]-[*:4]") false TorsionExamples.improper_kwargs
  = Ok CreateForceExamples.bare_torsion.
Proof. vm_compute. reflexivity. Qed.

Lemma proper_torsion_one_term_per_index_witness :
  (ProperTorsionHandler.create_force
     (TorsionExamples.handler_of ProperTorsionHandler.cls) TorsionExamples.butane_like
     (CreateForceExamples.before TorsionExamples.two_term_torsion)
   = (with_terms 0
        (concat [emitted_terms 0 1 2 3 [num 2; num 3] [num 0; num 180] [num 1; num 1]])
        (CreateForceExamples.with_force TorsionExamples.two_term_torsion),
      ParameterHandler._check_all_valence_terms_assigned ProperTorsionHandler.cls
        ParameterHandler.ValenceDict [CreateForceExamples.quartet_match]
        (propers TorsionExamples.butane_like) UnassignedProperTorsionParameterException)
   ∧ length (emitted_terms 0 1 2 3 [num 2; num 3] [num 0; num 180] [num 1; num 1]) = 2)
  ∧ ∃ w' msg,
      ProperTorsionHandler.create_force
        (TorsionExamples.handler_of ProperTorsionHandler.cls) TorsionExamples.butane_like
        (CreateForceExamples.before CreateForceExamples.auto_torsion)
      = (w', Raise (Exn NotImplementedError msg)).
Proof.
  split.
  - destruct (proper_torsion_one_term_per_index
                (TorsionExamples.handler_of ProperTorsionHandler.cls)
                TorsionExamples.butane_like
                (CreateForceExamples.before TorsionExamples.two_term_torsion)
                (CreateForceExamples.with_force TorsionExamples.two_term_torsion)
                0 [CreateForceExamples.quartet_match]) as [Hterms _];
      [reflexivity..|].
    destruct (Hterms [emitted_terms 0 1 2 3 [num 2; num 3] [num 0; num 180] [num 1; num 1]])
      as (Hrun & _ & _); [|split; [exact Hrun|reflexivity]].
    constructor; [|constructor].
    exists 0, 1, 2, 3, TorsionExamples.two_term_torsion,
      [num 2; num 3], [num 0; num 180], [num 1; num 2], [num 1; num 2], [num 1; num 1].
    split_and!; try reflexivity.
    + apply (bool_decide_unpack _). vm_compute. reflexivity.
    + repeat constructor.
  - destruct (proper_torsion_one_term_per_index
                (TorsionExamples.handler_of ProperTorsionHandler.cls)
                TorsionExamples.butane_like
                (CreateForceExamples.before CreateForceExamples.auto_torsion)
                (CreateForceExamples.with_force CreateForceExamples.auto_torsion)
                0 [CreateForceExamples.quartet_match]) as [_ Hauto];
      [reflexivity..|].
    apply (Hauto [] CreateForceExamples.quartet_match [] []); [reflexivity|constructor|].
    exists 0, 1, 2, 3, CreateForceExamples.auto_torsion,
      [num 2; num 3], [num 0; num 180], [num 1; num 2], [num 1; VStr "auto"].
    split_and!; try reflexivity.
    + apply (bool_decide_unpack _). vm_compute. reflexivity.
    + intros k d Hk Hd Hne.
      apply elem_of_cons in Hd as [->|Hd];
        [|apply list_elem_of_singleton in Hd; congruence].
      apply elem_of_cons in Hk as [->|Hk];
        [|apply list_elem_of_singleton in Hk as ->]; vm_compute; reflexivity.
Defined.


Lemma proper_torsion_without_idivf_witness :
  ∃ msg,
    ProperTorsionHandler.create_force
      (TorsionExamples.handler_of ProperTorsionHandler.cls) TorsionExamples.butane_like
      (CreateForceExamples.before CreateForceExamples.bare_torsion)
    = (with_terms 0 (concat [])
         (CreateForceExamples.with_force CreateForceExamples.bare_torsion),
       Raise (Exn TypeError msg)).
Proof.
  apply (proper_torsion_without_idivf
           (TorsionExamples.handler_of ProperTorsionHandler.cls)
           TorsionExamples.butane_like
           (CreateForceExamples.before CreateForceExamples.bare_torsion)
           (CreateForceExamples.with_force CreateForceExamples.bare_torsion)
           0 [] [] CreateForceExamples.quartet_match []
           CreateForceExamples.bare_torsion [num 2] [num 180] [num 3]);
    first [reflexivity | constructor].
Defined.

Lemma proper_torsion_zip_truncates_witness :
  ProperTorsionHandler.create_force
    (TorsionExamples.handler_of ProperTorsionHandler.cls) TorsionExamples.butane_like
    (CreateForceExamples.before TruncationExamples.lopsided_torsion)
  = (with_terms 0 (concat [[TorsionTerm 0 1 2 3 (num 2) (num 0) (num 1)]])
       (CreateForceExamples.with_force TruncationExamples.lopsided_torsion),
     ParameterHandler._check_all_valence_terms_assigned ProperTorsionHandler.cls
       ParameterHandler.ValenceDict [CreateForceExamples.quartet_match]
       (propers TorsionExamples.butane_like) UnassignedProperTorsionParameterException).
Proof.
  apply (proper_torsion_zip_truncates
           (TorsionExamples.handler_of ProperTorsionHandler.cls)
           TorsionExamples.butane_like
           (CreateForceExamples.before TruncationExamples.lopsided_torsion)
           (CreateForceExamples.with_force TruncationExamples.lopsided_torsion)
           0 [CreateForceExamples.quartet_match]
           [[TorsionTerm 0 1 2 3 (num 2) (num 0) (num 1)]]);
    [reflexivity..|].
  constructor; [|constructor].
  exists 0, 1, 2, 3, TruncationExamples.lopsided_torsion,
    [num 2; num 3], [num 0; num 180], [num 1], [num 1; num 2], [num 1].
  split_and!; try reflexivity.
  constructor; [|constructor]. split; [discriminate|vm_compute; reflexivity].
Defined.

Lemma improper_torsion_trefoil_witness :
  ImproperTorsionHandler.create_force
    (TorsionExamples.handler_of ImproperTorsionHandler.cls) TorsionExamples.butane_like
    (CreateForceExamples.before TruncationExamples.halved_improper)
  = (with_terms 0 (concat [trefoil 0 1 2 3 (num 2) (num 180) (num (3 # 2))])
       (CreateForceExamples.with_force TruncationExamples.halved_improper),
     Ok ()).
Proof.
  apply (improper_torsion_trefoil
           (TorsionExamples.handler_of ImproperTorsionHandler.cls)
           TorsionExamples.butane_like
           (CreateForceExamples.before TruncationExamples.halved_improper)
           (CreateForceExamples.with_force TruncationExamples.halved_improper)
           0 [CreateForceExamples.quartet_match]
           [trefoil 0 1 2 3 (num 2) (num 180) (num (3 # 2))]);
    [reflexivity..|].
  constructor; [|constructor].
  exists 0, 1, 2, 3, TruncationExamples.halved_improper,
    [num 2], [num 180], [num 3], [num 2], [num (3 # 2)].
  split_and!; try reflexivity.
  constructor; [|constructor]. vm_compute. reflexivity.
Defined.

(** ** C7: what [to_dict] writes, of a parameter object and of a handler *)
Section to_dict_writes.
Import ParameterAttribute _ParameterAttributeInitializer.
Context `{External}.

Lemma od_update_app {K V} `{EqDecision K} (e e' d : list (K * V)) :
  od_update (e ++ e') d = od_update e' (od_update e d).
Proof. unfold od_update. by rewrite foldl_app. Qed.

(** Of two assignments to one key, the later value stands. *)
Lemma od_get_od_update_last {K V} `{EqDecision K} (k : K) (e d : list (K * V)) :
  od_get k (od_update e d)
  = match od_get k (reverse e) with Some v => Some v | None => od_get k d end.
Proof.
  revert d. induction e as [|[k0 v0] e IH]; intros d; [done|].
  change (od_update ((k0, v0) :: e) d) with (od_update e (od_set k0 v0 d)).
  rewrite IH, reverse_cons, od_get_app, od_get_od_set.
  destruct (od_get k (reverse e)); [done|]. simpl. by case_decide.
Qed.

Lemma od_update_NoDup {K V} `{EqDecision K} (e d : list (K * V)) :
  NoDup (od_keys d) → NoDup (od_keys (od_update e d)).
Proof.
  revert d. induction e as [|[k0 v0] e IH]; intros d Hd; [done|].
  change (od_update ((k0, v0) :: e) d) with (od_update e (od_set k0 v0 d)).
  by apply IH, od_set_NoDup.
Qed.

Lemma to_dict_attribute_writes (cls : pclass) (self : instance) (acc : list (string * value)) (d : descriptor) :
  to_dict_attribute cls self acc d
  = (items ← attribute_items self d; Ok (od_update items acc)).
Proof.
  unfold to_dict_attribute, attribute_items.
  destruct (__get__ d self) as [v|]; simpl; [|done].
  destruct (indexed d); [|done].
  destruct (py_iter v) as [vs|]; simpl; [|done]. by rewrite expand_indexed_items.
Qed.

Lemma to_dict_attributes_write (cls : pclass) (self : instance) (ds : list descriptor) (acc : list (string * value)) :
  foldM (to_dict_attribute cls self) ds acc
  = (its ← mapM_outcome (attribute_items self) ds; Ok (od_update (concat its) acc)).
Proof.
  revert acc. induction ds as [|d ds IH]; intros acc; [done|].
  cbn [foldM mapM_outcome]. rewrite to_dict_attribute_writes.
  destruct (attribute_items self d) as [it|]; simpl; [|done]. rewrite IH.
  destruct (mapM_outcome (attribute_items self) ds) as [its|]; simpl; [|done].
  by rewrite od_update_app.
Qed.

Lemma to_dict_cosmetics_write (self : instance) (cs : list string) (acc : list (string * value)) :
  foldM (to_dict_cosmetic self) cs acc
  = (its ← mapM_outcome (cosmetic_item self) cs; Ok (od_update its acc)).
Proof.
  assert (∀ a c, to_dict_cosmetic self a c
                 = (it ← cosmetic_item self c; Ok (od_set it.1 it.2 a))) as Hstep.
  { intros a c. unfold to_dict_cosmetic, cosmetic_item.
    by destruct (inst_dict self !! private c). }
  revert acc. induction cs as [|c cs IH]; intros acc; [done|].
  cbn [foldM mapM_outcome]. rewrite Hstep.
  destruct (cosmetic_item self c) as [[k v]|]; simpl; [|done]. rewrite IH.
  by destruct (mapM_outcome (cosmetic_item self) cs) as [its|].
Qed.

(** [to_dict] of a parameter object writes the entries of
    [serialized_items], one after the other. *)
Lemma to_dict_serialized_items (cls : pclass) (discard_cosmetic_attributes : bool) (self : instance) :
  to_dict cls discard_cosmetic_attributes self
  = (items ← serialized_items cls discard_cosmetic_attributes self;
     Ok (od_update items [])).
Proof.
  unfold to_dict, serialized_items.
  rewrite defined_parameter_attributes_emitted, to_dict_attributes_write, mapM_outcome_app.
  destruct (mapM_outcome _ (_get_required_parameter_attributes cls)) as [req|]; simpl; [|done].
  destruct (mapM_outcome _ (filter _ _)) as [opt|]; simpl; [|done].
  destruct discard_cosmetic_attributes; simpl.
  - by rewrite app_nil_r, concat_app.
  - rewrite to_dict_cosmetics_write.
    destruct (mapM_outcome (cosmetic_item self) _) as [cos|]; simpl; [|done].
    by rewrite concat_app, app_assoc, (od_update_app (concat req ++ concat opt) cos).
Qed.

Import ParameterHandler.

(** The names of the header attributes that [to_dict] of a handler writes:
    the required ones, those with a declared default, the optional ones
    that are set on the handler and, unless they are discarded, the cosmetic
    ones. *)
Definition written_header (cls : hclass) (discard_cosmetic_attributes : bool) (self : handler) (k : string) : Prop :=
  k ∈ _REQUIRED_SPEC_ATTRIBS cls
  ∨ k ∈ od_keys (_DEFAULT_SPEC_ATTRIBS cls)
  ∨ (k ∈ _OPTIONAL_SPEC_ATTRIBS cls ∧ is_Some (handler_dict self !! private k))
  ∨ (discard_cosmetic_attributes = false ∧ k ∈ handler_cosmetic_attribs self).

Lemma header_attribs_to_return_written (cls : hclass) (discard_cosmetic_attributes : bool) (self : handler) (k : string) :
  k ∈ header_attribs_to_return cls discard_cosmetic_attributes self
  ↔ written_header cls discard_cosmetic_attributes self k.
Proof.
  unfold header_attribs_to_return, written_header, handler_hasattr.
  destruct discard_cosmetic_attributes; simpl;
    rewrite !elem_of_app, list_elem_of_filter, bool_decide_eq_true; intuition congruence.
Qed.

Lemma header_loop_Ok (cls : hclass) (self : handler) (names : list string) (acc hd : list (string * value)) :
  foldM (λ header_attribute_dict header_attribute,
           value ← handler_getattr cls self (private header_attribute);
           Ok (od_set header_attribute value header_attribute_dict)) names acc = Ok hd →
  ∀ n, n ∈ names → is_Some (handler_dict self !! private n).
Proof.
  revert acc. induction names as [|n names IH]; intros acc Hhd n'.
  - by intros ?%elem_of_nil.
  - rewrite foldM_cons in Hhd.
    destruct (handler_dict self !! private n) as [v|] eqn:Hn.
    + assert (handler_getattr cls self (private n) = Ok v) as Hg
        by (unfold handler_getattr; by rewrite Hn).
      rewrite Hg, !outcome_bind_Ok in Hhd.
      intros [->|Hin]%elem_of_cons; [by rewrite Hn|by eapply IH].
    + assert (∃ e, handler_getattr cls self (private n) = Raise e) as [e Hg]
        by (unfold handler_getattr; rewrite Hn; by eexists).
      by rewrite Hg in Hhd.
Qed.

(** What [to_dict] of a handler returns. *)
Lemma handler_to_dict_Ok (cls : hclass) (discard_cosmetic_attributes : bool) (self : handler) (_parameters : list instance) (smirnoff_data : list (string * section_value)) :
  ParameterHandler.to_dict cls discard_cosmetic_attributes self _parameters = Ok smirnoff_data →
  (∀ k, written_header cls discard_cosmetic_attributes self k →
        ∃ v, handler_dict self !! private k = Some v
             ∧ od_get k smirnoff_data = Some (HeaderValue v))
  ∧ (∀ k, k ∈ od_keys smirnoff_data →
          written_header cls discard_cosmetic_attributes self k
          ∨ Some k = snd <$> _INFOTYPE cls).
Proof.
  unfold ParameterHandler.to_dict.
  destruct (match _INFOTYPE cls with
            | Some (pcls, _) =>
                ParameterList.to_list pcls discard_cosmetic_attributes _parameters
            | None => Ok []
            end) as [pl|]; simpl; [|done].
  destruct (header_attribute_dict cls discard_cosmetic_attributes self) as [hd|] eqn:Hhd;
    simpl; [|done].
  intros [= <-]. unfold header_attribute_dict in Hhd.
  pose proof (header_loop_Ok cls self _ _ _ Hhd) as Hset.
  destruct (header_attributes_collected cls self
              (header_attribs_to_return cls discard_cosmetic_attributes self) [])
    as (hd' & Hhd' & Hnd & Hget); [done|apply NoDup_nil_2|].
  rewrite Hhd in Hhd'. injection Hhd' as <-.
  split.
  - intros k Hk%header_attribs_to_return_written.
    destruct (Hset k Hk) as [v Hv]. exists v. split; [done|].
    rewrite od_get_od_update by (by rewrite od_keys_fmap_value).
    by rewrite od_get_fmap_value, Hget, decide_True, Hv.
  - intros k Hk. apply od_get_is_Some in Hk as [sv Hk].
    rewrite od_get_od_update in Hk by (by rewrite od_keys_fmap_value).
    rewrite od_get_fmap_value, Hget in Hk.
    destruct (decide (k ∈ header_attribs_to_return cls discard_cosmetic_attributes self))
      as [Hin|Hout]; [left; by apply header_attribs_to_return_written|].
    right. simpl in Hk. destruct (_INFOTYPE cls) as [[pcls el]|]; simpl in *; [|done].
    destruct (decide (k = el)) as [->|]; done.
Qed.

(** C7 (as the code has it).  For a parameter object that hides nothing
    of its class, [to_dict] writes, in this order: every required attribute;
    every optional attribute except those whose declared default is [None]
    and whose value is [None] (an optional attribute with another default is
    emitted whatever its value); and, unless they are discarded, the cosmetic
    attributes.  An indexed attribute stands as the keys [name1], [name2],
    ..., one per element, in ascending order.  It raises what reading one of
    these raises.  A key that is written twice (a cosmetic attribute named
    like one of the keys before it) stands once, at its first place and with
    its last value; when the keys are pairwise distinct the result is the
    list of the entries.  For a handler that hides nothing of its class,
    [to_dict] writes every required attribute and every attribute with a
    declared default, whatever its value, every optional attribute that is
    set on the handler and, unless they are discarded, the cosmetic
    attributes, each with the value stored; it writes nothing else but the
    parameter list. *)
Theorem to_dict_emits (cls : pclass) (hcls : hclass) (discard_cosmetic_attributes : bool) (self : instance) (h : handler) (_parameters : list instance) :
  (plain_object self →
   _ParameterAttributeInitializer.to_dict cls discard_cosmetic_attributes self
   = (items ← serialized_items cls discard_cosmetic_attributes self;
      Ok (od_update items []))
   ∧ ∀ items,
       serialized_items cls discard_cosmetic_attributes self = Ok items →
       (∃ d, _ParameterAttributeInitializer.to_dict cls discard_cosmetic_attributes self = Ok d
             ∧ NoDup (od_keys d)
             ∧ (∀ k, k ∈ od_keys d ↔ k ∈ od_keys items)
             ∧ ∀ k, od_get k d = od_get k (reverse items))
       ∧ (NoDup (od_keys items) →
          _ParameterAttributeInitializer.to_dict cls discard_cosmetic_attributes self = Ok items))
  ∧ (plain_handler hcls h → Forall plain_object _parameters →
     ∀ smirnoff_data,
       ParameterHandler.to_dict hcls discard_cosmetic_attributes h _parameters
       = Ok smirnoff_data →
       (∀ k, written_header hcls discard_cosmetic_attributes h k →
             ∃ v, handler_dict h !! private k = Some v
                  ∧ od_get k smirnoff_data = Some (HeaderValue v))
       ∧ (∀ k, k ∈ od_keys smirnoff_data →
               written_header hcls discard_cosmetic_attributes h k
               ∨ Some k = snd <$> _INFOTYPE hcls)).
Proof.
  split.
  - intros _. split; [apply to_dict_serialized_items|].
    intros items Hitems. rewrite to_dict_serialized_items, Hitems. simpl. split.
    + exists (od_update items []). split_and!; [done| | |].
      * apply od_update_NoDup, NoDup_nil_2.
      * intros k. rewrite <-!od_get_is_Some, od_get_od_update_last.
        assert (is_Some (od_get k (reverse items)) ↔ is_Some (od_get k items)) as <-.
        { rewrite !od_get_is_Some. unfold od_keys. by rewrite fmap_reverse, elem_of_reverse. }
        destruct (od_get k (reverse items)); [done|]. simpl. done.
      * intros k. rewrite od_get_od_update_last.
        by destruct (od_get k (reverse items)).
    + intros Hnd. f_equal. unfold od_update. by apply foldl_od_set_fresh.
  - intros _ _ smirnoff_data. apply handler_to_dict_Ok.
Qed.

End to_dict_writes.

Module SerializationExamples.
Import Exact.

(** A proper torsion given with [k] as a sequence and a cosmetic attribute
    named like the second of its keys. *)
Definition colliding_kwargs : list (string * value) :=
  [("periodicity", VList [num 2; num 3]);
   ("phase", VList [num 0; num 180]);
   ("k", VList [num 1; num 2]);
   ("idivf", VList [num 1; num 2]);
   ("k2", num 7)].

Definition colliding_torsion : instance :=
  Instance (list_to_map
              [("_smirks", VStr "[*:1]-[*:2]-[*:3]-[*:4]");
               ("_periodicity", VList [num 2; num 3]);
               ("_phase", VList [num 0; num 180]);
               ("_k", VList [num 1; num 2]);
               ("_idivf", VList [num 1; num 2]);
               ("_k2", num 7)]) ["k2"].

End SerializationExamples.

(** The constructor accepts the cosmetic attribute [k2] beside the sequence
    [k]; [to_dict] then writes the key [k2] twice, and the cosmetic value
    stands in the place of the second force constant. *)
Example to_dict_key_written_twice :
  ParameterType.__init__ ParameterType.ProperTorsionType
    (VStr "[*:1]-[*:2]-[*:3]-[*:4]") true SerializationExamples.colliding_kwargs
  = Ok SerializationExamples.colliding_torsion
  ∧ _ParameterAttributeInitializer.to_dict ParameterType.ProperTorsionType false
      SerializationExamples.colliding_torsion
    = Ok [("smirks", VStr "[*:1]-[*:2]-[*:3]-[*:4]");
          ("periodicity1", num 2); ("periodicity2", num 3);
          ("phase1", num 0); ("phase2", num 180);
          ("k1", num 1); ("k2", num 7);
          ("idivf1", num 1); ("idivf2", num 2)].
Proof. split; vm_compute; reflexivity. Qed.

Lemma to_dict_emits_witness :
  _ParameterAttributeInitializer.to_dict ParameterType.ProperTorsionType false
    TorsionExamples.two_term_torsion
  = Ok [("smirks", VStr "[*:1]-[*:2]-[*:3]-[*:4]");
        ("periodicity1", num 2); ("periodicity2", num 3);
        ("phase1", num 0); ("phase2", num 180);
        ("k1", num 1); ("k2", num 2);
        ("idivf1", num 1); ("idivf2", num 2)]
  ∧ ∃ v, ParameterHandler.handler_dict HandlerExamples.commented_handler
           !! private "fractional_bondorder_interpolation" = Some v
         ∧ od_get "fractional_bondorder_interpolation"
             [("Bond", ParameterHandler.ParameterDicts
                         [[("smirks", VStr "[*:1]~[*:2]"); ("length", num 1); ("k", num 10)]]);
              ("version", ParameterHandler.HeaderValue (num (3 # 10)));
              ("potential", ParameterHandler.HeaderValue (VStr "harmonic"));
              ("fractional_bondorder_method", ParameterHandler.HeaderValue VNone);
              ("fractional_bondorder_interpolation",
               ParameterHandler.HeaderValue (VStr "linear"));
              ("author", ParameterHandler.HeaderValue (VStr "me"))]
           = Some (ParameterHandler.HeaderValue v).
Proof.
  destruct (to_dict_emits ParameterType.ProperTorsionType BondHandler.cls false
              TorsionExamples.two_term_torsion HandlerExamples.commented_handler
              [Examples.generic_bond]) as [Hobject Hhandler].
  split.
  - destruct Hobject as [_ Hitems].
    { apply (bool_decide_unpack _). vm_compute. reflexivity. }
    destruct (Hitems [("smirks", VStr "[*:1]-[*:2]-[*:3]-[*:4]");
                      ("periodicity1", num 2); ("periodicity2", num 3);
                      ("phase1", num 0); ("phase2", num 180);
                      ("k1", num 1); ("k2", num 2);
                      ("idivf1", num 1); ("idivf2", num 2)]) as [_ Hdistinct].
    { vm_compute. reflexivity. }
    apply Hdistinct. apply (bool_decide_unpack _). vm_compute. reflexivity.
  - edestruct Hhandler as [Hwritten _].
    { apply (bool_decide_unpack _). vm_compute. reflexivity. }
    { apply (bool_decide_unpack _). vm_compute. reflexivity. }
    { vm_compute. reflexivity. }
    apply Hwritten. right. left. apply (bool_decide_unpack _). vm_compute. reflexivity.
Defined.
